(** * gempy.core.data: a shallow embedding of the data classes

    The Python module [gempy/core/data.py] holds the tables of a geological
    model (grid, series, faults, formations, interfaces, orientations) and the
    quantities derived from them (rescaling, structure, kriging defaults,
    surface extraction).  Each class is embedded below in a module of its own,
    the methods as functions on explicit states.

    Conventions.
    - A Python float is an exact number: a rational ([Q]) where the code only
      uses field operations and comparisons, a real ([R]) where it uses
      square roots or trigonometry.  Rounding is outside the model.
    - A missing cell of a pandas frame (NaN) is [None].
    - A method that can raise returns a sum or an option; where a method
      mutates its object before raising, the state reached is returned
      together with the exception. *)

From Stdlib Require Import List ZArith QArith Qminmax Lia Lqa Bool String.
From Stdlib Require Import FinFun Sorted Permutation Reals Lra.
Import ListNotations.

(** ** Small list utilities shared by the modules *)

Definition sum_nat (l : list nat) : nat := fold_right Nat.add 0%nat l.

Definition mem_string (s : string) (l : list string) : bool :=
  existsb (String.eqb s) l.

(** ** GridClass *)

Module GridClass.
Local Open Scope Q_scope.

(** [numpy.linspace(start, stop, num)] with [endpoint=True]: [num] samples,
    the i-th being [i * step + start] with [step = (stop - start) / (num - 1)];
    with a single sample the step is undefined and the sample is [start];
    with more than one the last sample is overwritten by [stop]. *)
Fixpoint set_last (l : list Q) (v : Q) : list Q :=
  match l with
  | [] => []
  | [_] => [v]
  | x :: r => x :: set_last r v
  end.

Definition arange (num : nat) : list Q :=
  map (fun i => inject_Z (Z.of_nat i)) (seq 0 num).

Definition linspace (start stop : Q) (num : nat) : list Q :=
  let div := inject_Z (Z.of_nat num - 1) in
  let delta := stop - start in
  let y := if (1 <? num)%nat
           then map (fun v => v * (delta / div)) (arange num)
           else map (fun v => v * delta) (arange num) in
  let y := map (fun v => v + start) y in
  if (1 <? num)%nat then set_last y stop else y.

(** [numpy.meshgrid(xs, ys, zs, indexing="ij")], each array ravelled, the
    three stacked and transposed: one row per lattice point, the first axis
    varying slowest and the last fastest. *)
Definition meshgrid_ravel (xs ys zs : list Q) : list (Q * Q * Q) :=
  flat_map (fun x => flat_map (fun y => map (fun z => (x, y, z)) zs) ys) xs.

(** [create_regular_grid_3d(extent, resolution)].  The three cell widths are
    all divided by [resolution[0]], as in the source.  [None] stands for the
    exception Python raises on a short list or on a zero divisor. *)
Definition create_regular_grid_3d (extent : list Q) (resolution : list nat)
  : option (list (Q * Q * Q)) :=
  match extent, resolution with
  | [e0; e1; e2; e3; e4; e5], [r0; r1; r2] =>
      if (r0 =? 0)%nat then None else
      let dx := (e1 - e0) / inject_Z (Z.of_nat r0) in
      let dy := (e3 - e2) / inject_Z (Z.of_nat r0) in
      let dz := (e5 - e4) / inject_Z (Z.of_nat r0) in
      Some (meshgrid_ravel
              (linspace (e0 + dx / 2) (e1 - dx / 2) r0)
              (linspace (e2 + dy / 2) (e3 - dy / 2) r1)
              (linspace (e4 + dz / 2) (e5 - dz / 2) r2))
  | _, _ => None
  end.

Record t := mk {
  extent : list Q;
  resolution : list nat;
  values : list (Q * Q * Q)
}.

(** [set_regular_grid(extent, resolution)]. *)
Definition set_regular_grid (extent : list Q) (resolution : list nat) (g : t)
  : option t :=
  match create_regular_grid_3d extent resolution with
  | Some v => Some (mk extent resolution v)
  | None => None
  end.

(** The lattice as the specification words it: along each axis [n] cell
    centres, the first half a cell width above the axis minimum, consecutive
    ones one cell width apart, the cell width being the axis length divided
    by the resolution of that same axis. *)
Definition cell_centres (lo hi : Q) (n : nat) : list Q :=
  let w := (hi - lo) / inject_Z (Z.of_nat n) in
  map (fun i => lo + w / 2 + inject_Z (Z.of_nat i) * w) (seq 0 n).

Definition cell_centred_lattice (extent : list Q) (resolution : list nat)
  : option (list (Q * Q * Q)) :=
  match extent, resolution with
  | [e0; e1; e2; e3; e4; e5], [r0; r1; r2] =>
      Some (meshgrid_ravel (cell_centres e0 e1 r0) (cell_centres e2 e3 r1)
                           (cell_centres e4 e5 r2))
  | _, _ => None
  end.

Definition point_eq (p q : Q * Q * Q) : Prop :=
  fst (fst p) == fst (fst q) /\ snd (fst p) == snd (fst q) /\ snd p == snd q.

Definition point_eqb (p q : Q * Q * Q) : bool :=
  Qeq_bool (fst (fst p)) (fst (fst q)) && Qeq_bool (snd (fst p)) (snd (fst q))
  && Qeq_bool (snd p) (snd q).

Definition red_point (p : Q * Q * Q) : Q * Q * Q :=
  (Qred (fst (fst p)), Qred (snd (fst p)), Qred (snd p)).

End GridClass.

(** ** RescaledData *)

Module RescaledData.
Local Open Scope Q_scope.

(** What a division of floats can give: a number, or an infinity when a
    number that is not zero is divided by zero.  The third outcome, NaN
    (zero divided by zero), is [None], as a missing cell is. *)
Inductive float :=
  | Finite (q : Q)
  | PosInf
  | NegInf.

(** The coordinate columns of a row of [Interfaces.df] or [Orientations.df]:
    the observed [X], [Y], [Z] and the derived [X_r], [Y_r], [Z_r], which are
    missing until the rescaler writes them. *)
Record row := mkrow {
  X : Q; Y : Q; Z : Q;
  X_r : option float; Y_r : option float; Z_r : option float
}.

Record grid := mkgrid {
  extent : list Q;
  values : list (Q * Q * Q);
  extent_r : option (list (option float));
  values_r : option (list (option float * option float * option float))
}.

Record t := mk {
  interfaces : list row;
  orientations : list row;
  the_grid : grid;
  rescaling_factor : option Q;
  centers : option (Q * Q * Q)
}.

(** [DataFrame.max()] and [DataFrame.min()] on one column; an empty column
    has no maximum (pandas answers NaN). *)
Definition col_max (l : list Q) : option Q :=
  match l with
  | [] => None
  | x :: r => Some (fold_left Qmax r x)
  end.

Definition col_min (l : list Q) : option Q :=
  match l with
  | [] => None
  | x :: r => Some (fold_left Qmin r x)
  end.

(** [max_min_coord(interfaces, orientations)]: the two frames are
    concatenated, orientations first, and the maximum and minimum of the
    columns X, Y, Z are taken. *)
Definition max_min_coord (interfaces orientations : list row)
  : option ((Q * Q * Q) * (Q * Q * Q)) :=
  let df := orientations ++ interfaces in
  match col_max (map X df), col_max (map Y df), col_max (map Z df),
        col_min (map X df), col_min (map Y df), col_min (map Z df) with
  | Some Mx, Some My, Some Mz, Some mx, Some my, Some mz =>
      Some ((Mx, My, Mz), (mx, my, mz))
  | _, _, _, _, _, _ => None
  end.

(** [compute_data_center]: [((max_coord + min_coord) / 2)]. *)
Definition compute_data_center (max_coord min_coord : Q * Q * Q) : Q * Q * Q :=
  let '(Mx, My, Mz) := max_coord in
  let '(mx, my, mz) := min_coord in
  ((Mx + mx) / 2, (My + my) / 2, (Mz + mz) / 2).

(** [compute_rescaling_factor]: [2 * np.max(max_coord - min_coord)]. *)
Definition compute_rescaling_factor (max_coord min_coord : Q * Q * Q) : Q :=
  let '(Mx, My, Mz) := max_coord in
  let '(mx, my, mz) := min_coord in
  2 * fold_left Qmax [My - my; Mz - mz] (Mx - mx).

Definition bias : Q := 5001 # 10000.

(** The arithmetic shared by [rescale_interfaces], [rescale_orientations],
    [rescale_data_point] and [rescale_grid]:
    [(x - centers) / rescaling_factor + 0.5001].  pandas and numpy do not
    raise on a division by zero: a factor of zero (the [0.0] that
    [compute_rescaling_factor] gives when the observations coincide) turns a
    positive difference into [inf], a negative one into [-inf] and a zero
    one into NaN, and adding 0.5001 leaves these as they are. *)
Definition rescale_coord (rf c x : Q) : option float :=
  if Qeq_bool rf 0 then
    match (x - c) ?= 0 with
    | Eq => None
    | Gt => Some PosInf
    | Lt => Some NegInf
    end
  else Some (Finite ((x - c) / rf + bias)).

(** [rescale_interfaces] and [rescale_orientations] with [idx=None]: the new
    columns for every row. *)
Definition rescale_rows (rows : list row) (rf : Q) (c : Q * Q * Q)
  : list (option float * option float * option float) :=
  let '(cx, cy, cz) := c in
  map (fun r => (rescale_coord rf cx (X r), rescale_coord rf cy (Y r),
                 rescale_coord rf cz (Z r))) rows.

Definition rescale_interfaces := rescale_rows.
Definition rescale_orientations := rescale_rows.

(** [set_rescaled_interfaces] and [set_rescaled_orientations] with
    [idx=None]: the columns X_r, Y_r, Z_r of every row are overwritten. *)
Definition write_rescaled (rows : list row)
    (new : list (option float * option float * option float)) : list row :=
  map (fun rn => let '(r, (x, y, z)) := rn in
                 mkrow (X r) (Y r) (Z r) x y z)
      (combine rows new).

Definition set_rescaled_interfaces (rf : Q) (c : Q * Q * Q) (st : t) : t :=
  mk (write_rescaled (interfaces st) (rescale_interfaces (interfaces st) rf c))
     (orientations st) (the_grid st) (rescaling_factor st) (centers st).

Definition set_rescaled_orientations (rf : Q) (c : Q * Q * Q) (st : t) : t :=
  mk (interfaces st)
     (write_rescaled (orientations st) (rescale_orientations (orientations st) rf c))
     (the_grid st) (rescaling_factor st) (centers st).

(** [rescale_grid]: the extent has the centers repeated twice subtracted
    ([np.repeat(centers, 2)] is [cx, cx, cy, cy, cz, cz]); numpy refuses an
    extent that has not six entries. *)
Definition rescale_grid (g : grid) (rf : Q) (c : Q * Q * Q)
  : option (list (option float)
            * list (option float * option float * option float)) :=
  let '(cx, cy, cz) := c in
  match extent g with
  | [e0; e1; e2; e3; e4; e5] =>
      Some ([rescale_coord rf cx e0; rescale_coord rf cx e1;
             rescale_coord rf cy e2; rescale_coord rf cy e3;
             rescale_coord rf cz e4; rescale_coord rf cz e5],
            map (fun p => let '(x, y, z) := p in
                          (rescale_coord rf cx x, rescale_coord rf cy y,
                           rescale_coord rf cz z)) (values g))
  | _ => None
  end.

Definition set_rescaled_grid (rf : Q) (c : Q * Q * Q) (st : t) : option t :=
  match rescale_grid (the_grid st) rf c with
  | Some (e, v) =>
      Some (mk (interfaces st) (orientations st)
               (mkgrid (extent (the_grid st)) (values (the_grid st)) (Some e) (Some v))
               (rescaling_factor st) (centers st))
  | None => None
  end.

(** [rescale_data(rescaling_factor=None, centers=None)].  The answer is
    [None] when the factor or the centers come out as NaN (no observation at
    all and no explicit value) or when the grid extent is malformed. *)
Definition rescale_data (factor : option Q) (cs : option (Q * Q * Q)) (st : t)
  : option t :=
  let mm := max_min_coord (interfaces st) (orientations st) in
  let rf := match factor with
            | None => option_map (fun m => compute_rescaling_factor (fst m) (snd m)) mm
            | Some f => Some f
            end in
  let c := match cs with
           | None => option_map (fun m => compute_data_center (fst m) (snd m)) mm
           | Some c => Some c
           end in
  match rf, c with
  | Some rf, Some c =>
      let st := mk (interfaces st) (orientations st) (the_grid st) (Some rf) (Some c) in
      set_rescaled_grid rf c (set_rescaled_orientations rf c (set_rescaled_interfaces rf c st))
  | _, _ => None
  end.

(** The vocabulary of the specification: the greatest and the least entry
    of a column, and the rescaling formula written out. *)
Definition is_max (l : list Q) (M : Q) : Prop :=
  In M l /\ Forall (fun x => x <= M) l.

Definition is_min (l : list Q) (m : Q) : Prop :=
  In m l /\ Forall (fun x => m <= x) l.

Definition rescaled (rf c x : Q) : Q := (x - c) / rf + (5001 # 10000).

Definition rescaled_row (rf : Q) (c : Q * Q * Q) (r r' : row) : Prop :=
  X r' = X r /\ Y r' = Y r /\ Z r' = Z r /\
  X_r r' = Some (Finite (rescaled rf (fst (fst c)) (X r))) /\
  Y_r r' = Some (Finite (rescaled rf (snd (fst c)) (Y r))) /\
  Z_r r' = Some (Finite (rescaled rf (snd c) (Z r))).

Definition rescaled_point (rf : Q) (c : Q * Q * Q) (p : Q * Q * Q)
  : option float * option float * option float :=
  (Some (Finite (rescaled rf (fst (fst c)) (fst (fst p)))),
   Some (Finite (rescaled rf (snd (fst c)) (snd (fst p)))),
   Some (Finite (rescaled rf (snd c) (snd p)))).

(** A row none of whose rescaled coordinates is a number: the three are
    NaN, and the observed coordinates are those of [r]. *)
Definition not_rescaled_row (r r' : row) : Prop :=
  X r' = X r /\ Y r' = Y r /\ Z r' = Z r /\
  X_r r' = None /\ Y_r r' = None /\ Z_r r' = None.

(** The observations all lie at one point. *)
Definition coincide (rows : list row) : Prop :=
  forall r r', In r rows -> In r' rows ->
    X r == X r' /\ Y r == Y r' /\ Z r == Z r'.

(** Two interface points, one orientation and a grid of one point. *)
Definition sample : t :=
  mk [mkrow 0 0 0 None None None; mkrow 10 4 2 None None None]
     [mkrow 5 5 5 None None None]
     (mkgrid [0; 10; 0; 10; 0; 10] [(5, 5, 5)] None None)
     None None.

(** One interface point and no orientation, on the same grid. *)
Definition one_point : t :=
  mk [mkrow 3 4 5 None None None] []
     (mkgrid [0; 10; 0; 10; 0; 10] [(5, 5, 5)] None None)
     None None.

End RescaledData.

(** ** Exceptions and results *)

Inductive exn : Set :=
  | AssertionError (msg : string)
  | AttributeError
  | IndexError
  | IndexingError
  | InvalidIndexError
  | KeyError
  | RuntimeError
  | TypeError
  | ValueError.

Definition result (A : Type) : Type := (exn + A)%type.

Definition bind {A B : Type} (m : result A) (k : A -> result B) : result B :=
  match m with
  | inl e => inl e
  | inr a => k a
  end.

Notation "x <- m ;; k" := (bind m (fun x => k))
  (at level 61, m at next level, right associativity).

(** A method that mutates its object runs on the state and leaves the state
    it reached together with the exception it raised, if any. *)
Definition method (S : Type) : Type := S -> S * option exn.

Definition andThen {S : Type} (a b : method S) : method S :=
  fun s => match a s with
           | (s', None) => b s'
           | (s', Some e) => (s', Some e)
           end.

Infix ">>" := andThen (at level 62, right associativity).

Definition skip {S : Type} : method S := fun s => (s, None).

Definition raise {S : Type} (e : exn) : method S := fun s => (s, Some e).

(** A property of the state that a method keeps, whether it returns or
    raises. *)
Definition preserves {S : Type} (P : S -> Prop) (a : method S) : Prop :=
  forall s, P s -> P (fst (a s)).

Definition only_one_basement : string :=
  "Only one formation can be basement"%string.

(** ** Orientations *)

Module Orientations.
Local Open Scope string_scope.
Local Open Scope list_scope.
Local Open Scope R_scope.

Definition label : Set := BinNums.Z.

(** A row of [Orientations.df].  Every numeric cell can be missing. *)
Record row := mkrow {
  X : option R; Y : option R; Z : option R;
  G_x : option R; G_y : option R; G_z : option R;
  dip : option R; azimuth : option R; polarity : option R;
  surface : option string
}.

(** The frame: rows under their index labels, in row order. *)
Definition frame := list (label * row).

Definition empty_row : row :=
  mkrow None None None None None None None None None None.

(** Arithmetic on cells: a missing operand gives a missing result. *)
Definition lift1 (f : R -> R) (a : option R) : option R := option_map f a.

Definition lift2 (f : R -> R -> R) (a b : option R) : option R :=
  match a, b with
  | Some x, Some y => Some (f x y)
  | _, _ => None
  end.

Definition rad2deg (x : R) : R := x * (180 / PI).
Definition deg2rad (x : R) : R := x * (PI / 180).

(** [np.nan_to_num(np.arccos(z))]: the arccosine is NaN outside [-1, 1] and
    on a missing cell, and [nan_to_num] turns NaN into 0. *)
Definition arccos_nan_to_num (z : option R) : R :=
  match z with
  | Some z => if Rle_dec (-1) z then if Rle_dec z 1 then acos z else 0 else 0
  | None => 0
  end.

(** [np.arctan2(x1, x2)]: the angle in (-PI, PI] of the point with abscissa
    [x2] and ordinate [x1]. *)
Definition arctan2 (x1 x2 : R) : R :=
  if Rlt_dec 0 x2 then atan (x1 / x2)
  else if Rlt_dec x2 0 then
         if Rle_dec 0 x1 then atan (x1 / x2) + PI else atan (x1 / x2) - PI
  else if Rlt_dec 0 x1 then PI / 2
  else if Rlt_dec x1 0 then - (PI / 2)
  else 0.

Definition arctan2_nan_to_num (x1 x2 : option R) : R :=
  match x1, x2 with
  | Some a, Some b => arctan2 a b
  | _, _ => 0
  end.

Definition epsilon : R := / 10 ^ 12.

(** One row of [calculate_orientations()]: polarity 1, dip the arccosine of
    [G_z / polarity] in degrees, azimuth the [arctan2] of [G_x / polarity]
    and [G_y / polarity] in degrees, plus 360 where negative, then 0 where
    the dip is below 0.001.  The sum with 360 is exact here; the doubles of
    the program round it, and a negative azimuth next to zero is rounded up
    to 360.0 itself, so of the shifted azimuth only the bound [<= 360] is
    the program's. *)
Definition calculate_orientations_row (r : row) : row :=
  let pol := Some 1 in
  let d := rad2deg (arccos_nan_to_num (lift2 Rdiv (G_z r) pol)) in
  let az := rad2deg (arctan2_nan_to_num (lift2 Rdiv (G_x r) pol)
                                        (lift2 Rdiv (G_y r) pol)) in
  let az := if Rlt_dec az 0 then az + 360 else az in
  let az := if Rlt_dec d (1 / 1000) then 0 else az in
  mkrow (X r) (Y r) (Z r) (G_x r) (G_y r) (G_z r)
        (Some d) (Some az) pol (surface r).

(** One row of [calculate_gradient()]. *)
Definition calculate_gradient_row (r : row) : row :=
  let sd := lift1 (fun d => sin (deg2rad d)) (dip r) in
  let cd := lift1 (fun d => cos (deg2rad d)) (dip r) in
  let sa := lift1 (fun a => sin (deg2rad a)) (azimuth r) in
  let ca := lift1 (fun a => cos (deg2rad a)) (azimuth r) in
  let plus_eps := lift1 (fun v => v + epsilon) in
  mkrow (X r) (Y r) (Z r)
        (plus_eps (lift2 Rmult (lift2 Rmult sd sa) (polarity r)))
        (plus_eps (lift2 Rmult (lift2 Rmult sd ca) (polarity r)))
        (plus_eps (lift2 Rmult cd (polarity r)))
        (dip r) (azimuth r) (polarity r) (surface r).

(** [calculate_orientations(idx=None)] and [calculate_gradient(idx=None)]:
    whole columns are rewritten. *)
Definition calculate_orientations (df : frame) : frame :=
  map (fun lr => (fst lr, calculate_orientations_row (snd lr))) df.

Definition calculate_gradient (df : frame) : frame :=
  map (fun lr => (fst lr, calculate_gradient_row (snd lr))) df.

(** [DataFrame.last_valid_index()]: the label of the last row that has a
    cell which is not missing. *)
Definition is_valid (r : row) : bool :=
  match X r, Y r, Z r, G_x r, G_y r, G_z r, dip r, azimuth r, polarity r, surface r with
  | None, None, None, None, None, None, None, None, None, None => false
  | _, _, _, _, _, _, _, _, _, _ => true
  end.

Definition last_valid_index (df : frame) : option label :=
  match filter (fun lr => is_valid (snd lr)) (rev df) with
  | [] => None
  | lr :: _ => Some (fst lr)
  end.

(** A cell value handed to an indexer. *)
Inductive cell :=
  | Num (v : R)
  | Str (s : string).

Definition set_cell (column : string) (v : cell) (r : row) : result row :=
  match v with
  | Num v =>
      if String.eqb column "X" then inr (mkrow (Some v) (Y r) (Z r) (G_x r) (G_y r) (G_z r) (dip r) (azimuth r) (polarity r) (surface r))
      else if String.eqb column "Y" then inr (mkrow (X r) (Some v) (Z r) (G_x r) (G_y r) (G_z r) (dip r) (azimuth r) (polarity r) (surface r))
      else if String.eqb column "Z" then inr (mkrow (X r) (Y r) (Some v) (G_x r) (G_y r) (G_z r) (dip r) (azimuth r) (polarity r) (surface r))
      else if String.eqb column "G_x" then inr (mkrow (X r) (Y r) (Z r) (Some v) (G_y r) (G_z r) (dip r) (azimuth r) (polarity r) (surface r))
      else if String.eqb column "G_y" then inr (mkrow (X r) (Y r) (Z r) (G_x r) (Some v) (G_z r) (dip r) (azimuth r) (polarity r) (surface r))
      else if String.eqb column "G_z" then inr (mkrow (X r) (Y r) (Z r) (G_x r) (G_y r) (Some v) (dip r) (azimuth r) (polarity r) (surface r))
      else if String.eqb column "dip" then inr (mkrow (X r) (Y r) (Z r) (G_x r) (G_y r) (G_z r) (Some v) (azimuth r) (polarity r) (surface r))
      else if String.eqb column "azimuth" then inr (mkrow (X r) (Y r) (Z r) (G_x r) (G_y r) (G_z r) (dip r) (Some v) (polarity r) (surface r))
      else if String.eqb column "polarity" then inr (mkrow (X r) (Y r) (Z r) (G_x r) (G_y r) (G_z r) (dip r) (azimuth r) (Some v) (surface r))
      else inl KeyError
  | Str s =>
      if String.eqb column "surface" then inr (mkrow (X r) (Y r) (Z r) (G_x r) (G_y r) (G_z r) (dip r) (azimuth r) (polarity r) (Some s))
      else inl ValueError
  end.

Fixpoint set_cells (columns : list string) (vs : list cell) (r : row) : result row :=
  match columns, vs with
  | [], [] => inr r
  | c :: columns, v :: vs => r <- set_cell c v r ;; set_cells columns vs r
  | _, _ => inl ValueError
  end.

Definition has_label (i : label) (df : frame) : bool :=
  existsb (fun lr => Z.eqb (fst lr) i) df.

(** The components of the key of [df.loc[...]]: a row label, a list of row
    labels, a column name, or a list of column names. *)
Inductive indexer :=
  | Lab (i : label)
  | Labs (idx : list label)
  | Col (name : string)
  | Cols (names : list string).

(** Rewrites the rows labelled [i]. *)
Fixpoint update_rows (i : label) (f : row -> result row) (df : frame)
  : result frame :=
  match df with
  | [] => inr []
  | lr :: rest =>
      lr' <- (if Z.eqb (fst lr) i
              then r <- f (snd lr) ;; inr (fst lr, r)
              else inr lr) ;;
      rest' <- update_rows i f rest ;;
      inr (lr' :: rest')
  end.

Fixpoint update_each (idx : list label) (columns : list string)
    (value : list (list cell)) (df : frame) : result frame :=
  match idx, value with
  | [], [] => inr df
  | i :: idx, v :: value =>
      df <- update_rows i (set_cells columns v) df ;;
      update_each idx columns value df
  | _, _ => inl ValueError
  end.

(** [df.loc[key] = value] for a key tuple; [value] holds one list of cells
    per addressed row.  A frame has two axes.  A key [(label, columns)]
    writes the named cells of the labelled row and appends the row when the
    label is new; a key [(labels, columns)] needs every label to be present;
    a key with more components than axes is refused ("Too many indexers";
    which exception reaches the caller depends on the release of pandas,
    the model names it [IndexingError]). *)
Definition loc_setitem (key : list indexer) (value : list (list cell))
    (df : frame) : result frame :=
  match key with
  | [Lab i; Cols columns] =>
      match value with
      | [v] =>
          if has_label i df then update_rows i (set_cells columns v) df
          else r <- set_cells columns v empty_row ;; inr (df ++ [(i, r)])
      | _ => inl ValueError
      end
  | [Lab i; Col column] =>
      match value with
      | [[v]] =>
          if has_label i df then update_rows i (set_cell column v) df
          else r <- set_cell column v empty_row ;; inr (df ++ [(i, r)])
      | _ => inl ValueError
      end
  | [Labs idx; Cols columns] =>
      if forallb (fun i => has_label i df) idx
      then update_each idx columns value df
      else inl KeyError
  | _ :: _ :: _ :: _ => inl IndexingError
  | _ => inl KeyError
  end.

Definition in_idx (i : label) (idx : list label) : bool :=
  existsb (Z.eqb i) idx.

(** [calculate_orientations(idx)].  Polarity, dip and azimuth of the rows in
    [idx] are written through [df.loc[idx, ...]].  The two corrections of the
    azimuth are applied to [df.loc[idx, "azimuth"][...]], a temporary copy of
    the cells, and do not reach the frame. *)
Definition calculate_orientations_idx_row (r : row) : row :=
  let pol := Some 1 in
  let d := rad2deg (arccos_nan_to_num (lift2 Rdiv (G_z r) pol)) in
  let az := rad2deg (arctan2_nan_to_num (lift2 Rdiv (G_x r) pol)
                                        (lift2 Rdiv (G_y r) pol)) in
  mkrow (X r) (Y r) (Z r) (G_x r) (G_y r) (G_z r)
        (Some d) (Some az) pol (surface r).

Definition calculate_orientations_at (idx : list label) (df : frame) : frame :=
  map (fun lr => if in_idx (fst lr) idx
                 then (fst lr, calculate_orientations_idx_row (snd lr)) else lr) df.

(** [calculate_gradient(idx)]. *)
Definition calculate_gradient_at (idx : list label) (df : frame) : frame :=
  map (fun lr => if in_idx (fst lr) idx
                 then (fst lr, calculate_gradient_row (snd lr)) else lr) df.

Definition pole_vector_warning : string :=
  "If pole_vector and orientation are passed pole_vector is used/".

(** [add_orientation(X, Y, Z, surface, pole_vector, orientation, idx)].  The
    answer holds the frame and the warnings issued.  Both writes index
    [df.loc] with eight components, as in the source. *)
Definition add_orientation (x y z : R) (surf : string)
    (pole_vector orientation : option (R * R * R)) (idx : option label)
    (df : frame) : result (frame * list string) :=
  match pole_vector, orientation with
  | None, None => inl AttributeError
  | _, _ =>
      i <- match idx with
           | Some i => inr i
           | None => match last_valid_index df with
                     | Some l => inr (l + 1)%Z
                     | None => inl TypeError
                     end
           end ;;
      match pole_vector with
      | Some (gx, gy, gz) =>
          df <- loc_setitem
                  [Lab i; Col "X"; Col "Y"; Col "Z"; Col "G_x"; Col "G_y";
                   Col "G_z"; Col "surface"]
                  [[Num x; Num y; Num z; Num gx; Num gy; Num gz; Str surf]] df ;;
          let df := calculate_orientations_at [i] df in
          inr (df, match orientation with
                   | Some _ => [pole_vector_warning]
                   | None => []
                   end)
      | None =>
          match orientation with
          | Some (az, d, pol) =>
              df <- loc_setitem
                      [Lab i; Col "X"; Col "Y"; Col "Z"; Col "azimuth"; Col "dip";
                       Col "polarioty"; Col "surface"]
                      [[Num x; Num y; Num z; Num az; Num d; Num pol; Str surf]] df ;;
              inr (calculate_gradient_at [i] df, [])
          | None => inl AttributeError
          end
      end
  end.

Definition orientation_properties : list string :=
  ["X"; "Y"; "Z"; "G_x"; "G_y"; "G_z"; "dip"; "azimuth"; "polarity"; "surface"].

(** [np.vstack(list(kwargs.values())).T]: one list of cells per row of
    [idx], the j-th holding the j-th value of every keyword. *)
Fixpoint column_at (j : nat) (values : list (list cell)) : result (list cell) :=
  match values with
  | [] => inr []
  | v :: values =>
      c <- match nth_error v j with Some c => inr c | None => inl ValueError end ;;
      rest <- column_at j values ;;
      inr (c :: rest)
  end.

Fixpoint vstack_T (js : list nat) (values : list (list cell))
  : result (list (list cell)) :=
  match js with
  | [] => inr []
  | j :: js =>
      r <- column_at j values ;;
      rest <- vstack_T js values ;;
      inr (r :: rest)
  end.

Definition indices_must_exist : string :=
  "Indices must exist in the dataframe to be modified.".

Definition properties_must_be : string :=
  "Properties must be one or more of the following".

(** [modify_orientation(idx, **kwargs)] for a list [idx] of labels; [kwargs]
    pairs each keyword with its values, one per label.  The first assertion
    is [self.df.index.isin(np.atleast_1d(idx)).all()]: it asks every label of
    the frame to be in [idx]. *)
Definition modify_orientation (idx : list label) (kwargs : list (string * list cell))
    (df : frame) : result frame :=
  if negb (forallb (fun lr => in_idx (fst lr) idx) df)
  then inl (AssertionError indices_must_exist)
  else if negb (forallb (fun kv => mem_string (fst kv) orientation_properties) kwargs)
  then inl (AssertionError properties_must_be)
  else
    values <- vstack_T (seq 0 (List.length idx)) (map snd kwargs) ;;
    df <- loc_setitem [Labs idx; Cols (map fst kwargs)] values df ;;
    if existsb (fun kv => mem_string (fst kv) ["G_x"; "G_y"; "G_z"]) kwargs
    then inr (calculate_orientations_at idx df)
    else if existsb (fun kv => mem_string (fst kv) ["azimuth"; "dip"; "polarity"]) kwargs
    then inr (calculate_gradient_at idx df)
    else inr df.

Section SetOrientations.

(** [gempy.core.checkers.check_for_nans] is not part of the sources at hand;
    it is a parameter of [set_orientations]. *)
Variable check_for_nans : option (list (R * R * R)) -> option (list (R * R * R)).

(** [df[['X', 'Y', 'Z']] = coord] on the empty frame, then
    [df['surface'] = surface]: one row per coordinate, labelled from 0. *)
Definition rows_of_coord (coord : list (R * R * R)) (surf : list string)
  : result frame :=
  if Nat.eqb (List.length coord) (List.length surf)
  then inr (map (fun ics =>
                   let '(i, ((x, y, z), s)) := ics in
                   (Z.of_nat i,
                    mkrow (Some x) (Some y) (Some z) None None None None None None (Some s)))
                (combine (seq 0 (List.length coord)) (combine coord surf)))
  else inl ValueError.

(** [df['G_x'] = pole_vector[:, 0]] and the two like it. *)
Definition set_gradient_columns (pv : list (R * R * R)) (df : frame) : result frame :=
  if Nat.eqb (List.length pv) (List.length df)
  then inr (map (fun lrg =>
                   let '((l, r), (gx, gy, gz)) := lrg in
                   (l, mkrow (X r) (Y r) (Z r) (Some gx) (Some gy) (Some gz)
                             (dip r) (azimuth r) (polarity r) (surface r)))
                (combine df pv))
  else inl ValueError.

(** [df['azimuth'] = orientation[:, 0]], [df['dip'] = orientation[:, 1]],
    [df['polarity'] = orientation[:, 2]]. *)
Definition set_orientation_columns (o : list (R * R * R)) (df : frame) : result frame :=
  if Nat.eqb (List.length o) (List.length df)
  then inr (map (fun lro =>
                   let '((l, r), (az, d, pol)) := lro in
                   (l, mkrow (X r) (Y r) (Z r) (G_x r) (G_y r) (G_z r)
                             (Some d) (Some az) (Some pol) (surface r)))
                (combine df o))
  else inl ValueError.

(** [set_orientations(coord, pole_vector, orientation, surface)]. *)
Definition set_orientations (coord : option (list (R * R * R)))
    (pole_vector orientation : option (list (R * R * R)))
    (surf : option (list string)) : result (frame * list string) :=
  let pole_vector := check_for_nans pole_vector in
  let orientation := check_for_nans orientation in
  match coord, surf with
  | Some coord, Some surf =>
      match pole_vector, orientation with
      | None, None => inr ([], [])
      | Some pv, _ =>
          df <- rows_of_coord coord surf ;;
          df <- set_gradient_columns pv df ;;
          inr (calculate_orientations df,
               match orientation with
               | Some _ => [pole_vector_warning]
               | None => []
               end)
      | None, Some o =>
          df <- rows_of_coord coord surf ;;
          df <- set_orientation_columns o df ;;
          inr (calculate_gradient df, [])
      end
  | _, _ => inr ([], [])
  end.

End SetOrientations.

(** Comparisons of floats as booleans. *)
Definition Rleb (a b : R) : bool := if Rle_dec a b then true else false.
Definition Rltb (a b : R) : bool := if Rlt_dec a b then true else false.
Definition Reqb (a b : R) : bool := if Req_dec_T a b then true else false.

(** [get_orientation(normal)]: dip, dip direction and polarity of a normal
    vector.  The dip is [np.arccos(normal[2])] in degrees, NaN (here [None])
    outside [-1, 1]; a comparison with NaN is false.  The arithmetic is
    exact here; the doubles of the program round it, so a dip next to 90 or
    a direction next to 360 can be rounded to 90.0 or 360.0 itself: what the
    polarity is depends on the dip as it was computed, and of the direction
    only the bound [<= 360] is the program's. *)
Definition get_orientation (normal : R * R * R) : result (option R * R * R) :=
  let '(n0, n1, n2) := normal in
  let dip := if Rleb (-1) n2 && Rleb n2 1
             then Some (acos n2 / PI * 180) else None in
  dip_direction <-
    (if Rleb 0 n0 && Rltb 0 n1 then inr (atan (n0 / n1) / PI * 180)
     else if Rltb 0 n0 && Reqb n1 0 then inr 90
     else if Rltb n0 0 && Reqb n1 0 then inr 270
     else if Rltb n1 0 then inr (180 + atan (n0 / n1) / PI * 180)
     else if Rltb n0 0 && Rleb 0 n1 then inr (360 + atan (n0 / n1) / PI * 180)
     else if Reqb n0 0 && Reqb n1 0 then inr 0
     else inl ValueError) ;;
  let polarity := match dip with
                  | Some d => if Rltb (-90) d && Rltb d 90 then 1 else -1
                  | None => -1
                  end in
  inr (dip, dip_direction, polarity).

(** The azimuth [calculate_orientations] computes before it zeroes it at a
    small dip: [arctan2(G_x, G_y)] in degrees, plus 360 where negative. *)
Definition azimuth_of (gx gy : R) : R :=
  let az := rad2deg (arctan2 gx gy) in
  if Rlt_dec az 0 then az + 360 else az.

(** A frame of two orientations given by dip, azimuth and polarity. *)
Definition sample_dips : frame :=
  [(0%Z, mkrow (Some 0) (Some 0) (Some 0) None None None
               (Some 30) (Some 90) (Some 1) (Some "a"));
   (1%Z, mkrow (Some 1) (Some 1) (Some 1) None None None
               (Some 45) (Some 180) (Some (-1)) (Some "b"))].

(** A frame of one orientation whose gradient is the unit vector along X. *)
Definition sample : frame :=
  [(0%Z, mkrow (Some 0) (Some 0) (Some 0) (Some 1) (Some 0) (Some 0)
               None None None (Some "a"))].

End Orientations.

(** ** Interfaces *)

Module Interfaces.
Local Open Scope string_scope.
Local Open Scope list_scope.

Definition label : Set := BinNums.Z.

(** A row of [Interfaces.df]: the coordinates and the surface of the point;
    the derived columns play no part in the methods below. *)
Record row := mkrow {
  X : option R; Y : option R; Z : option R;
  surface : option string
}.

Definition frame : Type := list (label * row).

Definition is_valid (r : row) : bool :=
  match X r, Y r, Z r, surface r with
  | None, None, None, None => false
  | _, _, _, _ => true
  end.

(** [DataFrame.last_valid_index()]: the label of the last row that holds a
    value, [None] when there is none. *)
Definition last_valid_index (df : frame) : option label :=
  match filter (fun lr => is_valid (snd lr)) (rev df) with
  | [] => None
  | lr :: _ => Some (fst lr)
  end.

Definition in_idx (i : label) (idx : list label) : bool :=
  existsb (Z.eqb i) idx.

Definition interface_properties : list string := ["X"; "Y"; "Z"; "surface"].

Section Loc.

(** [df.loc[labels, columns] = values], one list of cells per label: the
    write is left to pandas and is a parameter here. *)
Variable loc_setitem :
  list label -> list string -> list (list Orientations.cell) -> frame -> result frame.

(** [add_interface(X, Y, Z, surface, idx=None)].  With no [idx] the label is
    [self.df.last_valid_index() + 1], which is computed before the test
    [if idx is None: idx = 0]. *)
Definition add_interface (x y z : R) (surf : string) (idx : option label)
    (df : frame) : result frame :=
  i <- match idx with
       | Some i => inr i
       | None => match last_valid_index df with
                 | Some l => inr (l + 1)%Z
                 | None => inl TypeError
                 end
       end ;;
  loc_setitem [i] ["X"; "Y"; "Z"; "surface"]
              [[Orientations.Num x; Orientations.Num y; Orientations.Num z;
                Orientations.Str surf]] df.

(** [modify_interface(idx, **kwargs)] for a list [idx] of labels. *)
Definition modify_interface (idx : list label)
    (kwargs : list (string * list Orientations.cell)) (df : frame) : result frame :=
  if negb (forallb (fun lr => in_idx (fst lr) idx) df)
  then inl (AssertionError Orientations.indices_must_exist)
  else if negb (forallb (fun kv => mem_string (fst kv) interface_properties) kwargs)
  then inl (AssertionError Orientations.properties_must_be)
  else
    values <- Orientations.vstack_T (seq 0 (List.length idx)) (map snd kwargs) ;;
    loc_setitem idx (map fst kwargs) values df.

End Loc.

(** [del_interface(idx)]: [DataFrame.drop] wants every label present. *)
Definition del_interface (idx : list label) (df : frame) : result frame :=
  if forallb (fun i => existsb (fun lr => Z.eqb (fst lr) i) df) idx
  then inr (filter (fun lr => negb (in_idx (fst lr) idx)) df)
  else inl KeyError.

(** Two interface points. *)
Definition sample : frame :=
  [(0%Z, mkrow (Some 0%R) (Some 0%R) (Some 0%R) (Some "a"));
   (1%Z, mkrow (Some 1%R) (Some 1%R) (Some 1%R) (Some "b"))].

End Interfaces.

(** ** Structure *)

Module Structure.
Local Open Scope nat_scope.

(** The columns of [Interfaces.df] and [Orientations.df] the structure is
    counted from: the surface of the point and the derived [id] and
    [order_series], missing until they are mapped. *)
Record row := mkrow {
  surface : string;
  id : option Z;
  order_series : option Z
}.

(** [Series.value_counts(sort=False)]: the distinct values of the column,
    each with the number of rows holding it; missing cells are not counted.
    The values are listed in the order of their first occurrence. *)
Fixpoint incr (k : Z) (acc : list (Z * nat)) : list (Z * nat) :=
  match acc with
  | [] => [(k, 1)]
  | (k', n) :: rest =>
      if Z.eqb k k' then (k', S n) :: rest else (k', n) :: incr k rest
  end.

Definition value_counts (column : list (option Z)) : list (Z * nat) :=
  fold_left (fun acc v => match v with Some k => incr k acc | None => acc end)
            column [].

Fixpoint cumsum_from (acc : nat) (l : list nat) : list nat :=
  match l with
  | [] => []
  | x :: rest => (acc + x) :: cumsum_from (acc + x) rest
  end.

Definition cumsum (l : list nat) : list nat := cumsum_from 0 l.

(** [set_length_formations_i]. *)
Definition set_length_formations_i (interfaces : list row) : list nat :=
  map snd (value_counts (map id interfaces)).

(** [set_length_series_i]: an empty count array is replaced by [[0]]. *)
Definition set_length_series_i (interfaces : list row) : list nat :=
  let len_series_i := map snd (value_counts (map order_series interfaces)) in
  match len_series_i with
  | [] => [0]
  | _ => len_series_i
  end.

(** [set_length_series_o]. *)
Definition set_length_series_o (orientations : list row) : list nat :=
  map snd (value_counts (map order_series orientations)).

(** [set_ref_position]: [np.insert(len_formations_i[:-1], 0, 0).cumsum()]. *)
Definition set_ref_position (len_formations_i : list nat) : list nat :=
  cumsum (0 :: removelast len_formations_i).

(** [DataFrame.groupby('order_series')]: the group keys are the distinct
    values of the column in ascending order; rows whose key is missing belong
    to no group. *)
Fixpoint insert_key (k : Z) (keys : list Z) : list Z :=
  match keys with
  | [] => [k]
  | x :: rest =>
      if Z.ltb k x then k :: keys
      else if Z.eqb k x then keys
      else x :: insert_key k rest
  end.

Definition group_keys (column : list (option Z)) : list Z :=
  fold_left (fun acc v => match v with Some k => insert_key k acc | None => acc end)
            column [].

Definition in_group (k : Z) (r : row) : bool :=
  match order_series r with
  | Some k' => Z.eqb k' k
  | None => false
  end.

(** [Series.nunique()]. *)
Definition nunique (l : list string) : nat :=
  List.length (nodup string_dec l).

(** [set_number_of_formations_per_series]:
    [groupby('order_series').surface.nunique().values.cumsum()]. *)
Definition set_number_of_formations_per_series (interfaces : list row) : list nat :=
  cumsum (map (fun k => nunique (map surface (filter (in_group k) interfaces)))
              (group_keys (map order_series interfaces))).

Record t := mk {
  len_formations_i : list nat;
  len_series_i : list nat;
  len_series_o : list nat;
  ref_position : list nat;
  nfs : list nat
}.

(** [Structure.__init__]. *)
Definition init (interfaces orientations : list row) : t :=
  let lf := set_length_formations_i interfaces in
  mk lf (set_length_series_i interfaces) (set_length_series_o orientations)
     (set_ref_position lf) (set_number_of_formations_per_series interfaces).

(** The surfaces referenced by interface points, and the pairs of a series
    and a surface observed together. *)
Definition distinct_surfaces (interfaces : list row) : nat :=
  nunique (map surface interfaces).

Definition pair_dec (p q : Z * string) : {p = q} + {p <> q}.
Proof. decide equality; [apply string_dec | apply Z.eq_dec]. Defined.

Definition series_surface_pairs (interfaces : list row) : list (Z * string) :=
  flat_map (fun r => match order_series r with
                     | Some k => [(k, surface r)]
                     | None => []
                     end) interfaces.

Definition distinct_series_surface_pairs (interfaces : list row) : nat :=
  List.length (nodup pair_dec (series_surface_pairs interfaces)).

Definition key_is (k : Z) (p : Z * string) : bool := Z.eqb (fst p) k.

(** The number of cells of a column that are not missing. *)
Definition populated (column : list (option Z)) : nat :=
  List.length (filter (fun v => match v with Some _ => true | None => false end)
                      column).

(** Four points on three surfaces in two series; and two points of one
    surface whose [order_series] cells disagree, as after
    [modify_interface(idx, surface=...)] with no mapping of the series. *)
Definition sample : list row :=
  [mkrow "top" (Some 1%Z) (Some 1%Z); mkrow "top" (Some 1%Z) (Some 1%Z);
   mkrow "bottom" (Some 2%Z) (Some 1%Z); mkrow "fault" (Some 3%Z) (Some 2%Z)].

Definition stale : list row :=
  [mkrow "a" (Some 1%Z) (Some 1%Z); mkrow "a" (Some 2%Z) (Some 2%Z)].

(** [Interfaces.modify_interface(idx, surface=names)] with [idx] the whole
    index of the table, in its order: the [surface] cells are overwritten,
    one name per row, and nothing else is assigned, so the derived [id] and
    [order_series] cells stay as they were mapped. *)
Definition modify_surface (names : list string) (interfaces : list row)
  : result (list row) :=
  if Nat.eqb (List.length names) (List.length interfaces)
  then inr (map (fun rn => mkrow (snd rn) (id (fst rn)) (order_series (fst rn)))
                (combine interfaces names))
  else inl ValueError.

(** One point on each of two surfaces, each surface in a series of its
    own, with the derived columns as the mapping gives them. *)
Definition two_surfaces : list row :=
  [mkrow "a" (Some 1%Z) (Some 1%Z); mkrow "b" (Some 2%Z) (Some 2%Z)].

(** The count [value_counts] holds for a value, and the test that a cell
    holds a value. *)
Definition get (k : Z) (acc : list (Z * nat)) : nat :=
  match find (fun p => Z.eqb (fst p) k) acc with
  | Some p => snd p
  | None => 0
  end.

Definition holds (k : Z) (v : option Z) : bool :=
  match v with Some k' => Z.eqb k' k | None => false end.

End Structure.

(** ** AdditionalData: kriging defaults *)

Module AdditionalData.
Local Open Scope R_scope.

(** [default_range(extent)].  The [except TypeError] branch serves an extent
    that is not numeric; a list of numbers that is too short raises. *)
Definition default_range (extent : list R) : result R :=
  match extent with
  | e0 :: e1 :: e2 :: e3 :: e4 :: e5 :: _ =>
      inr (sqrt ((e0 - e1) ^ 2 + (e2 - e3) ^ 2 + (e4 - e5) ^ 2))
  | _ => inl IndexError
  end.

(** [default_c_o()]: [self.range_var ** 2 / 14 / 3]. *)
Definition default_c_o (range_var : R) : R := range_var ^ 2 / 14 / 3.

(** The degree chosen by [set_u_grade(None)]: an array of zeros like
    [len_series_i] with 1 written where [len_series_i > 1]. *)
Definition default_u_grade (len_series_i : list nat) : list Z :=
  map (fun n => if Nat.ltb 1 n then 1%Z else 0%Z) len_series_i.

(** The three masked writes [n[u == 0] = 0], [n[u == 1] = 3], [n[u == 2] = 9]
    into an array of zeros. *)
Definition equations_of_grade (u : Z) : nat :=
  if Z.eqb u 2 then 9%nat else if Z.eqb u 1 then 3%nat else 0%nat.

(** [set_u_grade(u_grade)].  A mask whose length differs from the array it
    indexes is refused by numpy. *)
Definition set_u_grade (u_grade : option (list Z)) (len_series_i : list nat)
  : result (list nat) :=
  let u := match u_grade with
           | None => default_u_grade len_series_i
           | Some u => u
           end in
  if Nat.eqb (List.length u) (List.length len_series_i)
  then inr (map equations_of_grade u)
  else inl IndexError.

Record kriging := mkkriging {
  range_var : R;
  c_o : R;
  n_universal_eq : list nat;
  nugget_effect_gradient : R;
  nugget_effect_scalar : R
}.

(** The kriging part of [AdditionalData.__init__] and of
    [update_default_kriging]. *)
Definition default_kriging (extent : list R) (len_series_i : list nat)
  : result kriging :=
  range_var <- default_range extent ;;
  let c_o := default_c_o range_var in
  n <- set_u_grade None len_series_i ;;
  inr (mkkriging range_var c_o n (1 / 100) (/ 10 ^ 6)).

End AdditionalData.

(** ** pandas.CategoricalIndex *)

Module CategoricalIndex.
Local Open Scope string_scope.
Local Open Scope list_scope.

(** The labels of an axis and the categories they are drawn from. *)
Record t := mk {
  values : list string;
  categories : list string
}.

Fixpoint uniqueb (l : list string) : bool :=
  match l with
  | [] => true
  | x :: rest => negb (mem_string x rest) && uniqueb rest
  end.

(** [add_categories(new)]: the new categories must not include old ones and
    the categories must stay unique. *)
Definition add_categories (new : list string) (idx : t) : result t :=
  if existsb (fun c => mem_string c (categories idx)) new then inl ValueError
  else if negb (uniqueb new) then inl ValueError
  else inr (mk (values idx) (categories idx ++ new)).

(** [remove_unused_categories()]. *)
Definition remove_unused_categories (idx : t) : t :=
  mk (values idx) (filter (fun c => mem_string c (values idx)) (categories idx)).

Fixpoint assoc (k : string) (d : list (string * string)) : option string :=
  match d with
  | [] => None
  | (k', v) :: rest => if String.eqb k k' then Some v else assoc k rest
  end.

(** The value at the position its old category has in the category list
    takes the category now at that position. *)
Fixpoint recode (old new : list string) (v : string) : string :=
  match old, new with
  | o :: old, n :: new => if String.eqb v o then n else recode old new v
  | _, _ => v
  end.

(** [rename_categories(new_categories)] with a list (the categories are
    replaced position by position) or with a dict (a category missing from
    the dict is kept).  The new categories must be as many as the old ones
    and unique. *)
Definition rename_categories (new_categories : list string + list (string * string))
    (idx : t) : result t :=
  let new := match new_categories with
             | inl l => l
             | inr d => map (fun c => match assoc c d with
                                      | Some c' => c'
                                      | None => c
                                      end) (categories idx)
             end in
  if negb (uniqueb new) then inl ValueError
  else if negb (Nat.eqb (List.length new) (List.length (categories idx)))
  then inl ValueError
  else inr (mk (map (recode (categories idx) new) (values idx)) new).

(** [reorder_categories(new_categories)]: the same categories in a new
    order. *)
Definition reorder_categories (new_categories : list string) (idx : t) : result t :=
  if negb (forallb (fun c => mem_string c (categories idx)) new_categories
           && forallb (fun c => mem_string c new_categories) (categories idx))
  then inl ValueError
  else if negb (uniqueb new_categories) then inl ValueError
  else inr (mk (values idx) new_categories).

(** The code of a label: the position of its category. *)
Fixpoint code (cats : list string) (v : string) : nat :=
  match cats with
  | [] => 0
  | c :: rest => if String.eqb v c then 0 else S (code rest v)
  end.

Fixpoint insert_sorted (cats : list string) (v : string) (l : list string)
  : list string :=
  match l with
  | [] => [v]
  | x :: rest =>
      if Nat.ltb (code cats v) (code cats x) then v :: l
      else x :: insert_sorted cats v rest
  end.

(** [sort_values()]: the labels in the order of their categories. *)
Definition sort_values (idx : t) : t :=
  mk (fold_left (fun acc v => insert_sorted (categories idx) v acc) (values idx) [])
     (categories idx).

(** [insert(len(index), item)]: only an existing category can be inserted. *)
Definition append (item : string) (idx : t) : result t :=
  if mem_string item (categories idx)
  then inr (mk (values idx ++ [item]) (categories idx))
  else inl TypeError.

End CategoricalIndex.

(** ** Series and the fault tables it keeps in step *)

Module Series.
Local Open Scope string_scope.
Local Open Scope list_scope.

Record series_row := mkrow {
  order_series : option Z;
  BottomRelation : option string
}.

Record faults_row := mkfrow {
  isFault : option bool;
  isFinite : option bool
}.

(** [self.df], [self.faults.df] and [self.faults.faults_relations_df]: each
    frame is an index with the rows under it, the relation matrix has a
    column index too. *)
Record t := mk {
  df_index : CategoricalIndex.t;
  df_rows : list series_row;
  faults_index : CategoricalIndex.t;
  faults_rows : list faults_row;
  rel_index : CategoricalIndex.t;
  rel_columns : CategoricalIndex.t;
  rel_values : list (list (option bool))
}.

Definition step : Type := method t.

Definition with_index (f : t -> result CategoricalIndex.t)
    (k : CategoricalIndex.t -> step) : step :=
  fun s => match f s with
           | inl e => (s, Some e)
           | inr idx => k idx s
           end.

Definition len (idx : CategoricalIndex.t) : nat :=
  List.length (CategoricalIndex.values idx).

(** Assigning an axis: the new labels must be as many as the old ones. *)
Definition set_df_index (idx : CategoricalIndex.t) : step :=
  fun s => if Nat.eqb (len idx) (List.length (df_rows s))
           then (mk idx (df_rows s) (faults_index s) (faults_rows s)
                    (rel_index s) (rel_columns s) (rel_values s), None)
           else (s, Some ValueError).

Definition set_faults_index (idx : CategoricalIndex.t) : step :=
  fun s => if Nat.eqb (len idx) (List.length (faults_rows s))
           then (mk (df_index s) (df_rows s) idx (faults_rows s)
                    (rel_index s) (rel_columns s) (rel_values s), None)
           else (s, Some ValueError).

Definition set_rel_index (idx : CategoricalIndex.t) : step :=
  fun s => if Nat.eqb (len idx) (List.length (rel_values s))
           then (mk (df_index s) (df_rows s) (faults_index s) (faults_rows s)
                    idx (rel_columns s) (rel_values s), None)
           else (s, Some ValueError).

Definition set_rel_columns (idx : CategoricalIndex.t) : step :=
  fun s => if Nat.eqb (len idx) (len (rel_columns s))
           then (mk (df_index s) (df_rows s) (faults_index s) (faults_rows s)
                    (rel_index s) idx (rel_values s), None)
           else (s, Some ValueError).

(** The four assignments every method ends with. *)
Definition set_all (idx : CategoricalIndex.t) : step :=
  set_df_index idx >> set_faults_index idx >> set_rel_index idx
  >> set_rel_columns idx.

(** Rewrites the entries whose label is [c]. *)
Fixpoint set_where {A : Type} (c : string) (f : A -> A) (labels : list string)
    (l : list A) : list A :=
  match labels, l with
  | v :: labels, x :: l =>
      (if String.eqb v c then f x else x) :: set_where c f labels l
  | _, _ => l
  end.

(** [self.df.loc[c] = np.nan]: the row labelled [c] becomes missing; a new
    label is appended, which needs [c] to be a category. *)
Definition loc_df (c : string) : step :=
  fun s =>
    let nan := mkrow None None in
    if mem_string c (CategoricalIndex.values (df_index s))
    then (mk (df_index s)
             (set_where c (fun _ => nan) (CategoricalIndex.values (df_index s)) (df_rows s))
             (faults_index s) (faults_rows s)
             (rel_index s) (rel_columns s) (rel_values s), None)
    else match CategoricalIndex.append c (df_index s) with
         | inl e => (s, Some e)
         | inr idx =>
             (mk idx (df_rows s ++ [nan]) (faults_index s) (faults_rows s)
                 (rel_index s) (rel_columns s) (rel_values s), None)
         end.

(** [self.faults.df.loc[c, 'isFault'] = np.nan]. *)
Definition loc_faults (c : string) : step :=
  fun s =>
    if mem_string c (CategoricalIndex.values (faults_index s))
    then (mk (df_index s) (df_rows s) (faults_index s)
             (set_where c (fun r => mkfrow None (isFinite r))
                        (CategoricalIndex.values (faults_index s)) (faults_rows s))
             (rel_index s) (rel_columns s) (rel_values s), None)
    else match CategoricalIndex.append c (faults_index s) with
         | inl e => (s, Some e)
         | inr idx =>
             (mk (df_index s) (df_rows s) idx (faults_rows s ++ [mkfrow None None])
                 (rel_index s) (rel_columns s) (rel_values s), None)
         end.

(** [self.faults.faults_relations_df.loc[c, c] = np.nan]: a missing row is
    appended first, then a missing column, both filled with missing cells,
    and the cell at [(c, c)] is written. *)
Definition loc_rel_row (c : string) : step :=
  fun s =>
    if mem_string c (CategoricalIndex.values (rel_index s)) then (s, None)
    else match CategoricalIndex.append c (rel_index s) with
         | inl e => (s, Some e)
         | inr idx =>
             (mk (df_index s) (df_rows s) (faults_index s) (faults_rows s)
                 idx (rel_columns s)
                 (rel_values s ++ [repeat None (len (rel_columns s))]), None)
         end.

Definition loc_rel_column (c : string) : step :=
  fun s =>
    if mem_string c (CategoricalIndex.values (rel_columns s)) then (s, None)
    else match CategoricalIndex.append c (rel_columns s) with
         | inl e => (s, Some e)
         | inr idx =>
             (mk (df_index s) (df_rows s) (faults_index s) (faults_rows s)
                 (rel_index s) idx
                 (map (fun r => r ++ [None]) (rel_values s)), None)
         end.

Definition loc_rel_cell (c : string) : step :=
  fun s =>
    (mk (df_index s) (df_rows s) (faults_index s) (faults_rows s)
        (rel_index s) (rel_columns s)
        (set_where c
           (fun r => set_where c (fun _ => None)
                       (CategoricalIndex.values (rel_columns s)) r)
           (CategoricalIndex.values (rel_index s)) (rel_values s)), None).

Definition loc_rel (c : string) : step :=
  loc_rel_row c >> loc_rel_column c >> loc_rel_cell c.

(** [update_order_series()]: the column takes [1 .. n]. *)
Definition update_order_series : step :=
  fun s =>
    (mk (df_index s)
        (map (fun ir => mkrow (Some (Z.of_nat (S (fst ir)))) (BottomRelation (snd ir)))
             (combine (seq 0 (List.length (df_rows s))) (df_rows s)))
        (faults_index s) (faults_rows s)
        (rel_index s) (rel_columns s) (rel_values s), None).

Fixpoint for_each (l : list string) (body : string -> step) : step :=
  match l with
  | [] => skip
  | c :: rest => body c >> for_each rest body
  end.

(** [add_series(series_list, update_order_series=True)]. *)
Definition add_series (series_list : list string) (update : bool) : step :=
  fun s =>
    let series_list :=
      filter (fun c => negb (mem_string c (CategoricalIndex.categories (df_index s))))
             series_list in
    (with_index (fun s => CategoricalIndex.add_categories series_list (df_index s))
       (fun idx =>
          set_all idx
          >> for_each series_list (fun c => loc_df c >> loc_faults c >> loc_rel c)
          >> (if update then update_order_series else skip))) s.

(** [DataFrame.drop(labels)]: every label must be present; the entries under
    the labels go. *)
Fixpoint drop_where {A : Type} (labels : list string) (axis : list string)
    (l : list A) : list A :=
  match axis, l with
  | v :: axis, x :: l =>
      if mem_string v labels then drop_where labels axis l
      else x :: drop_where labels axis l
  | _, _ => []
  end.

Definition drop_labels (labels : list string) (idx : CategoricalIndex.t)
  : result CategoricalIndex.t :=
  if forallb (fun c => mem_string c (CategoricalIndex.values idx)) labels
  then inr (CategoricalIndex.mk
              (filter (fun v => negb (mem_string v labels)) (CategoricalIndex.values idx))
              (CategoricalIndex.categories idx))
  else inl KeyError.

Definition drop_df (labels : list string) : step :=
  fun s => match drop_labels labels (df_index s) with
           | inl e => (s, Some e)
           | inr idx =>
               (mk idx (drop_where labels (CategoricalIndex.values (df_index s)) (df_rows s))
                   (faults_index s) (faults_rows s)
                   (rel_index s) (rel_columns s) (rel_values s), None)
           end.

Definition drop_faults (labels : list string) : step :=
  fun s => match drop_labels labels (faults_index s) with
           | inl e => (s, Some e)
           | inr idx =>
               (mk (df_index s) (df_rows s) idx
                   (drop_where labels (CategoricalIndex.values (faults_index s)) (faults_rows s))
                   (rel_index s) (rel_columns s) (rel_values s), None)
           end.

Definition drop_rel_rows (labels : list string) : step :=
  fun s => match drop_labels labels (rel_index s) with
           | inl e => (s, Some e)
           | inr idx =>
               (mk (df_index s) (df_rows s) (faults_index s) (faults_rows s)
                   idx (rel_columns s)
                   (drop_where labels (CategoricalIndex.values (rel_index s)) (rel_values s)),
                None)
           end.

Definition drop_rel_columns (labels : list string) : step :=
  fun s => match drop_labels labels (rel_columns s) with
           | inl e => (s, Some e)
           | inr idx =>
               (mk (df_index s) (df_rows s) (faults_index s) (faults_rows s)
                   (rel_index s) idx
                   (map (drop_where labels (CategoricalIndex.values (rel_columns s)))
                        (rel_values s)),
                None)
           end.

(** [delete_series(indices)]. *)
Definition delete_series (indices : list string) : step :=
  drop_df indices >> drop_faults indices >> drop_rel_rows indices
  >> drop_rel_columns indices
  >> with_index (fun s => inr (CategoricalIndex.remove_unused_categories (df_index s)))
                set_all.

(** [rename_series(new_categories)]. *)
Definition rename_series (new_categories : list string + list (string * string))
  : step :=
  with_index (fun s => CategoricalIndex.rename_categories new_categories (df_index s))
             set_all.

(** [reorder_series(new_categories)]. *)
Definition reorder_series (new_categories : list string) : step :=
  with_index
    (fun s => idx <- CategoricalIndex.reorder_categories new_categories (df_index s) ;;
              inr (CategoricalIndex.sort_values idx))
    set_all.

(** [Faults()] followed by [Series(faults)]: one series, not a fault, that
    offsets nothing. *)
Definition default_index : CategoricalIndex.t :=
  CategoricalIndex.mk ["Default series"] ["Default series"].

Definition init : t :=
  mk default_index [mkrow None None]
     default_index [mkfrow (Some false) None]
     default_index default_index [[Some false]].

(** The structural operations, and running a sequence of them one after the
    other, each on the state the one before left, whether it raised or not. *)
Inductive operation :=
  | Add (series_list : list string) (update : bool)
  | Rename (new_categories : list string + list (string * string))
  | Reorder (new_categories : list string)
  | Delete (indices : list string).

Definition run (o : operation) : step :=
  match o with
  | Add l u => add_series l u
  | Rename n => rename_series n
  | Reorder n => reorder_series n
  | Delete i => delete_series i
  end.

Definition run_all (ops : list operation) (s : t) : t :=
  fold_left (fun s o => fst (run o s)) ops s.

(** The relation matrix is square and carries the labels of the series, and
    every frame has as many rows as labels. *)
Definition aligned (s : t) : Prop :=
  faults_index s = df_index s /\
  rel_index s = df_index s /\
  rel_columns s = df_index s /\
  List.length (df_rows s) = len (df_index s) /\
  List.length (faults_rows s) = len (df_index s) /\
  List.length (rel_values s) = len (df_index s) /\
  Forall (fun r => List.length r = len (df_index s)) (rel_values s).

(** The sequence of the specification: add [C], rename [B] to [B2], delete
    [A]; and a state whose series are [A] and [B], reached from the default
    one. *)
Definition scenario : list operation :=
  [Add ["C"] true; Rename (inr [("B", "B2")]); Delete ["A"]].

Definition series_A_B : t :=
  run_all [Add ["A"; "B"] true; Delete ["Default series"]] init.

(** The order of the labels under a list of categories, and the rows a new
    series gets. *)
Definition by_code (cats : list string) (a b : string) : Prop :=
  (CategoricalIndex.code cats a <= CategoricalIndex.code cats b)%nat.

Definition nan_row : series_row := mkrow None None.
Definition nan_fault : faults_row := mkfrow None None.

End Series.

(** ** Formations *)

Module Formations.
Local Open Scope string_scope.
Local Open Scope list_scope.
Local Open Scope Z_scope.

(** A row of [Formations.df].  The name is always there; the series, the id
    and the basement flag are missing on a row that was just appended. *)
Record row := mkrow {
  formation : string;
  series : option string;
  id : option Z;
  isBasement : option bool
}.

(** The catalog: the frame as rows under their integer labels, the
    categories of the [formation] column, and the labels of the index of the
    [Series] object the catalog refers to. *)
Record t := mk {
  df : list (Z * row);
  categories : list string;
  series_index : list string
}.

Definition step : Type := method t.

Definition with_df (f : list (Z * row) -> list (Z * row)) : step :=
  fun s => (mk (f (df s)) (categories s) (series_index s), None).

(** [pn.Categorical(list_names)] infers its categories: the distinct names
    in ascending order. *)
Fixpoint insert_name (c : string) (l : list string) : list string :=
  match l with
  | [] => [c]
  | x :: rest =>
      if String.ltb c x then c :: l
      else if String.eqb c x then l
      else x :: insert_name c rest
  end.

Definition infer_categories (names : list string) : list string :=
  fold_left (fun acc c => insert_name c acc) names [].

(** [set_id()]: [df['id'] = df.index + 1]. *)
Definition with_id (lr : Z * row) : Z * row :=
  (fst lr, mkrow (formation (snd lr)) (series (snd lr)) (Some (fst lr + 1))
                 (isBasement (snd lr))).

Definition set_id : step := with_df (map with_id).

(** [map_series()] without a mapping object: the first series is mapped to
    every formation of the frame.  The mapping is indexed by the formation
    names, which pandas wants unique when it looks them up. *)
Definition map_series : step :=
  fun s =>
    match series_index s with
    | [] => (s, Some IndexError)
    | first :: _ =>
        let s' := mk (map (fun lr =>
                             (fst lr,
                              mkrow (formation (snd lr))
                                    (match series (snd lr) with
                                     | Some x => if mem_string x (series_index s)
                                                 then Some x else None
                                     | None => None
                                     end)
                                    (id (snd lr)) (isBasement (snd lr)))) (df s))
                     (categories s) (series_index s) in
        if CategoricalIndex.uniqueb (map (fun lr => formation (snd lr)) (df s))
        then with_df (map (fun lr => (fst lr,
                                      mkrow (formation (snd lr)) (Some first)
                                            (id (snd lr)) (isBasement (snd lr))))) s'
        else (s', Some InvalidIndexError)
    end.

(** [self.df['isBasement'].fillna(False, inplace=True)]. *)
Definition fill (r : row) : row :=
  mkrow (formation r) (series r) (id r)
        (match isBasement r with Some b => Some b | None => Some false end).

Definition filled (s : t) : t :=
  mk (map (fun lr => (fst lr, fill (snd lr))) (df s)) (categories s) (series_index s).

Definition fillna_isBasement : step := fun s => (filled s, None).

(** [self.df['isBasement'].values.astype(bool).sum()]: a missing flag, cast
    to [bool], counts as true. *)
Definition flag (r : row) : bool :=
  match isBasement r with
  | Some b => b
  | None => true
  end.

Definition count_basement (rows : list (Z * row)) : nat :=
  List.length (filter (fun lr => flag (snd lr)) rows).

Definition assert_that (b : bool) (msg : string) : step :=
  if b then skip else raise (AssertionError msg).

(** [self.df['isBasement'] = flags]. *)
Definition flagged (flags : list bool) (s : t) : t :=
  mk (map (fun lrb : Z * row * bool =>
             let '((l, r), b) := lrb in
             (l, mkrow (formation r) (series r) (id r) (Some b)))
          (combine (df s) flags))
     (categories s) (series_index s).

Definition set_isBasement (flags : list bool) : step :=
  fun s =>
    if Nat.eqb (List.length flags) (List.length (df s))
    then (flagged flags s, None)
    else (s, Some ValueError).

Definition count_true (flags : list bool) : nat :=
  List.length (filter (fun b => b) flags).

Section Basement.

(** [formation_column == names] for an array of names: the comparison of a
    pandas column with an array is left to the library and is a parameter
    here.  The comparison with one name, which [set_basement] makes when it
    is given a name, is the row-wise equality. *)
Variable eq_array : list string -> list string -> result (list bool).

(** The right-hand side of [self.df['isBasement'] = self.df['formation'] ==
    basement_formation]: with no name given, the names of the rows flagged as
    basement are compared, or [None] when no row is flagged, which no name
    equals. *)
Definition basement_flags (basement_formation : option string) (s : t)
  : result (list bool) :=
  let names := map (fun lr => formation (snd lr)) (df s) in
  match basement_formation with
  | Some name => inr (map (fun n => String.eqb n name) names)
  | None =>
      match filter (fun lr => flag (snd lr)) (df s) with
      | [] => inr (map (fun _ => false) names)
      | basement => eq_array names (map (fun lr => formation (snd lr)) basement)
      end
  end.

(** [set_basement(basement_formation=None)]. *)
Definition set_basement (basement_formation : option string) : step :=
  fillna_isBasement
  >> (fun s =>
        match basement_flags basement_formation s with
        | inl e => (s, Some e)
        | inr flags =>
            (set_isBasement flags
             >> (fun s => assert_that (Nat.leb (count_basement (df s)) 1)
                                      only_one_basement s)) s
        end).

(** [DataFrame.last_valid_index()]: every row of the catalog has a name, so
    this is the label of the last row. *)
Definition last_valid_index (rows : list (Z * row)) : option Z :=
  match rev rows with
  | [] => None
  | lr :: _ => Some (fst lr)
  end.

Definition has_label (i : Z) (rows : list (Z * row)) : bool :=
  existsb (fun lr => Z.eqb (fst lr) i) rows.

(** [self.df.loc[i, 'formation'] = c]: the row labelled [i] is renamed, or a
    row is appended under the new label with its other cells missing. *)
Definition loc_formation (i : Z) (c : string) : step :=
  with_df (fun rows =>
             if has_label i rows
             then map (fun lr => if Z.eqb (fst lr) i
                                 then (fst lr, mkrow c (series (snd lr)) (id (snd lr))
                                                     (isBasement (snd lr)))
                                 else lr) rows
             else rows ++ [(i, mkrow c None None None)]).

(** [self.df.loc[i, ['formation', 'isBasement']] = [name, True]]. *)
Definition overwrite (i : Z) (name : string) (lr : Z * row) : Z * row :=
  if Z.eqb (fst lr) i
  then (fst lr, mkrow name (series (snd lr)) (id (snd lr)) (Some true))
  else lr.

Definition loc_basement (i : Z) (name : string) : step :=
  with_df (fun rows =>
             if has_label i rows then map (overwrite i name) rows
             else rows ++ [(i, mkrow name None None (Some true))]).

(** [self.df['formation'].cat.add_categories(new, inplace=True)]. *)
Definition add_categories (new : list string) : step :=
  fun s =>
    if existsb (fun c => mem_string c (categories s)) new then (s, Some ValueError)
    else if negb (CategoricalIndex.uniqueb new) then (s, Some ValueError)
    else (mk (df s) (categories s ++ new) (series_index s), None).

Fixpoint for_each (l : list string) (body : string -> step) : step :=
  match l with
  | [] => skip
  | c :: rest => body c >> for_each rest body
  end.

Definition update_df_steps : step :=
  map_series >> set_id >> set_basement None.

(** [add_formation(formation_list, update_df=True)]. *)
Definition add_formation (formation_list : list string) (update_df : bool) : step :=
  fun s =>
    let formation_list :=
      filter (fun c => negb (mem_string c (categories s))) formation_list in
    (add_categories formation_list
     >> for_each formation_list
          (fun c s => let idx := match last_valid_index (df s) with
                                 | Some i => i
                                 | None => -1
                                 end in
                      loc_formation (idx + 1) c s)
     >> (if update_df then update_df_steps else skip)) s.

(** [delete_formation(indices, update_id=True)]. *)
Definition delete_formation (indices : list Z) (update_id : bool) : step :=
  (fun s =>
     if forallb (fun i => has_label i (df s)) indices
     then with_df (filter (fun lr => negb (existsb (Z.eqb (fst lr)) indices))) s
     else (s, Some KeyError))
  >> (if update_id then set_id else skip).

(** [set_formation_names_pro(list_names, update_df=True)]:
    [self.df['formation'] = pn.Categorical(list_names)] gives an empty frame
    one row per name, labelled from 0; a frame with rows needs as many names
    as rows. *)
Definition set_formation_names_pro (list_names : list string) (update_df : bool) : step :=
  (fun s =>
     match df s with
     | [] =>
         (mk (map (fun ic => (Z.of_nat (fst ic), mkrow (snd ic) None None None))
                  (combine (seq 0 (List.length list_names)) list_names))
             (infer_categories list_names) (series_index s), None)
     | rows =>
         if Nat.eqb (List.length list_names) (List.length rows)
         then (mk (map (fun lrc => let '((l, r), c) := lrc in
                                   (l, mkrow c (series r) (id r) (isBasement r)))
                       (combine rows list_names))
                  (infer_categories list_names) (series_index s), None)
         else (s, Some ValueError)
     end)
  >> (if update_df then update_df_steps else skip).

(** [add_basement(name=None)]. *)
Definition default_name (name : option string) : string :=
  match name with
  | Some n => n
  | None => "basement"
  end.

Definition add_basement (name : option string) : step :=
  fillna_isBasement
  >> (fun s => assert_that (Nat.ltb (count_basement (df s)) 1) only_one_basement s)
  >> add_categories [default_name name]
  >> (fun s => match last_valid_index (df s) with
               | Some i => loc_basement (i + 1) (default_name name) s
               | None => (s, Some TypeError)
               end)
  >> set_id.

End Basement.

(** [Formations(series)] with no names: the empty catalog. *)
Definition init (series_index : list string) : t := mk [] [] series_index.

Definition ids (s : t) : list (option Z) := map (fun lr => id (snd lr)) (df s).

Definition names (s : t) : list string := map (fun lr => formation (snd lr)) (df s).

Definition labels (s : t) : list Z := map fst (df s).

(** No two rows of the frame share a label. *)
Definition distinct_labels (s : t) : Prop := NoDup (labels s).

(** A catalog of two formations and a basement in which the flag of the
    formation added last, with [update_df=False], is still missing. *)
Definition missing_flag : t :=
  mk [(0, mkrow "a" (Some "Default series") (Some 1) (Some false));
      (1, mkrow "basement" None (Some 2) (Some true));
      (2, mkrow "x" None None None)]
     ["a"; "basement"; "x"] ["Default series"].

(** The comparison of the name column with an array of names, for the
    examples: one name is compared with every row, an array as long as the
    column is compared row by row, another array is refused. *)
Definition eq_array_sample (names array : list string) : result (list bool) :=
  match array with
  | [name] => inr (map (fun n => String.eqb n name) names)
  | _ => if Nat.eqb (List.length names) (List.length array)
         then inr (map (fun na => String.eqb (fst na) (snd na)) (combine names array))
         else inl ValueError
  end.

(** A catalog of three formations and no basement. *)
Definition three : t :=
  mk [(0, mkrow "a" (Some "Default series") (Some 1) (Some false));
      (1, mkrow "b" (Some "Default series") (Some 2) (Some false));
      (2, mkrow "c" (Some "Default series") (Some 3) (Some false))]
     ["a"; "b"; "c"] ["Default series"].

(** The ids the specification asks for: the row position plus one. *)
Definition consecutive_ids (n : nat) : list (option Z) :=
  map (fun i => Some (Z.of_nat (S i))) (seq 0 n).

(** The operations on the catalog, and running a sequence of them one after
    the other, each on the state the one before left, whether it raised or
    not. *)
Inductive operation :=
  | SetNames (list_names : list string) (update_df : bool)
  | AddFormation (formation_list : list string) (update_df : bool)
  | DeleteFormation (indices : list Z) (update_id : bool)
  | SetBasement (basement_formation : option string)
  | AddBasement (name : option string).

Definition run (eq_array : list string -> list string -> result (list bool))
    (o : operation) : step :=
  match o with
  | SetNames l u => set_formation_names_pro eq_array l u
  | AddFormation l u => add_formation eq_array l u
  | DeleteFormation i u => delete_formation i u
  | SetBasement bf => set_basement eq_array bf
  | AddBasement name => add_basement name
  end.

Definition run_all (eq_array : list string -> list string -> result (list bool))
    (ops : list operation) (s : t) : t :=
  fold_left (fun s o => fst (run eq_array o s)) ops s.

(** The labels increase down the frame; an id that is set is the label of
    its row plus one; the labels are 0, 1, 2, ... *)
Definition ascending (s : t) : Prop := StronglySorted Z.lt (labels s).

Definition follows (s : t) : Prop :=
  forall l r, In (l, r) (df s) -> id r = None \/ id r = Some (l + 1)%Z.

Definition dense (s : t) : Prop :=
  labels s = map Z.of_nat (seq 0 (List.length (df s))).

Definition no_delete (o : operation) : bool :=
  match o with
  | DeleteFormation _ _ => false
  | _ => true
  end.


(** A step that leaves the labels alone; the label [add_formation] and
    [add_basement] write at; a step that at most appends a row there. *)
Definition keeps_labels (a : step) : Prop := forall s, labels (fst (a s)) = labels s.

Definition next (rows : list (Z * row)) : Z :=
  match last_valid_index rows with
  | Some i => (i + 1)%Z
  | None => 0%Z
  end.

Definition grows (a : step) : Prop :=
  forall s, labels (fst (a s)) = labels s
            \/ exists r, df (fst (a s)) = df s ++ [(next (df s), r)].

End Formations.

(** ** Solution: surface extraction *)

Module Solution.
Local Open Scope Q_scope.

(** What [compute_surface_regular_grid] prints. *)
Inductive message :=
  | OutsideGridBoundaries (surface_id : Z).

(** The attributes the method reads: [scalar_field_at_interfaces], one row
    per series, and the extent and resolution of the grid. *)
Record t := mk {
  scalar_field_at_interfaces : list (list Q);
  extent : list Q;
  resolution : list nat
}.

Fixpoint add_rows (a b : list Q) : list Q :=
  match a, b with
  | x :: a, y :: b => (x + y) :: add_rows a b
  | _, _ => []
  end.

(** [array.sum(axis=0)] of a two-dimensional array. *)
Definition sum_axis0 (m : list (list Q)) : list Q :=
  match m with
  | [] => []
  | r :: rest => fold_left add_rows rest r
  end.

(** [array.max()] and [array.min()]; numpy refuses an empty array. *)
Definition array_max (l : list Q) : result Q :=
  match l with
  | [] => inl ValueError
  | x :: r => inr (fold_left Qmax r x)
  end.

Definition array_min (l : list Q) : result Q :=
  match l with
  | [] => inl ValueError
  | x :: r => inr (fold_left Qmin r x)
  end.

Definition getitem {A : Type} (l : list A) (i : nat) : result A :=
  match nth_error l i with
  | Some x => inr x
  | None => inl IndexError
  end.

(** The two checks on the isovalue: it is replaced by the maximum of the
    field unless the maximum is above it, then by the minimum unless the
    minimum is below it; each replacement prints. *)
Definition clamp (surface_id : Z) (M m p : Q) : Q * list message :=
  let '(p, out) := if Qlt_le_dec p M then (p, [])
                   else (M, [OutsideGridBoundaries surface_id]) in
  if Qlt_le_dec m p then (p, out)
  else (m, out ++ [OutsideGridBoundaries surface_id]).

Definition positive_id : string :=
  "Number of the formation has to be positive"%string.

Section MarchingCubes.

(** [skimage.measure.marching_cubes_lewiner(volume, level, spacing)]: the
    volume is the field reshaped to the resolution; the answer is the list
    [vertices, simplices, normals, values], or an exception. *)
Variable Mesh : Type.
Variable marching_cubes_lewiner :
  nat * nat * nat -> list Q -> Q -> Q * Q * Q -> result Mesh.

(** [scalar_field.reshape(nx, ny, nz)]. *)
Definition reshape (scalar_field : list Q) (shape : nat * nat * nat)
  : result (nat * nat * nat * list Q) :=
  let '(nx, ny, nz) := shape in
  if Nat.eqb (List.length scalar_field) (nx * ny * nz)
  then inr (shape, scalar_field)
  else inl ValueError.

(** [compute_surface_regular_grid(surface_id, scalar_field)]: what is
    printed, and the meshes or the exception. *)
Definition compute_surface_regular_grid (surface_id : Z) (scalar_field : list Q)
    (self : t) : list message * result Mesh :=
  if Z.ltb surface_id 0 then ([], inl (AssertionError positive_id)) else
  let pot_int := sum_axis0 (scalar_field_at_interfaces self) in
  match array_max scalar_field, getitem pot_int (Z.to_nat surface_id),
        array_min scalar_field with
  | inl e, _, _ => ([], inl e)
  | _, inl e, _ => ([], inl e)
  | _, _, inl e => ([], inl e)
  | inr M, inr p, inr m =>
      let '(level, out) := clamp surface_id M m p in
      (out,
       r0 <- getitem (resolution self) 0 ;;
       r1 <- getitem (resolution self) 1 ;;
       r2 <- getitem (resolution self) 2 ;;
       volume <- reshape scalar_field (r0, r1, r2) ;;
       e0 <- getitem (extent self) 0 ;;
       e1 <- getitem (extent self) 1 ;;
       e2 <- getitem (extent self) 2 ;;
       e3 <- getitem (extent self) 3 ;;
       e4 <- getitem (extent self) 4 ;;
       e5 <- getitem (extent self) 5 ;;
       marching_cubes_lewiner (fst volume) (snd volume) level
         ((e1 - e0) / inject_Z (Z.of_nat r0),
          (e3 - e2) / inject_Z (Z.of_nat r1),
          (e5 - e4) / inject_Z (Z.of_nat r2)))
  end.

End MarchingCubes.

(** An extraction routine for the examples: it checks, as the library
    does, that the level lies within the range of the volume, and answers
    the level it was given in place of the meshes. *)
Definition extract_level (shape : nat * nat * nat) (volume : list Q) (level : Q)
    (spacing : Q * Q * Q) : result Q :=
  match array_max volume, array_min volume with
  | inr M, inr m =>
      if Qle_bool m level && Qle_bool level M then inr level else inl ValueError
  | _, _ => inl ValueError
  end.

(** An extraction routine that raises [RuntimeError] when it finds no
    surface, the exception the caller of the method, [set_values], catches
    around it: it refuses a level outside the range of the volume, finds no
    surface when no sample lies above the level, and otherwise answers the
    level in place of the meshes. *)
Definition no_surface_at_maximum (shape : nat * nat * nat) (volume : list Q)
    (level : Q) (spacing : Q * Q * Q) : result Q :=
  match array_max volume, array_min volume with
  | inr M, inr m =>
      if Qle_bool m level && Qle_bool level M
      then if Qlt_le_dec level M then inr level else inl RuntimeError
      else inl ValueError
  | _, _ => inl ValueError
  end.

(** One series with two surfaces whose isovalues are 9 and 0, and a grid of
    2 x 2 x 2 cells. *)
Definition sample : t :=
  mk [[9; 0]] [0; 1; 0; 1; 0; 1] [2; 2; 2]%nat.

Definition sample_field : list Q := [1; 2; 3; 4; 5; 6; 7; 8].

End Solution.

(** * Properties *)

(** ** Lists of names *)

Lemma mem_string_In s l : mem_string s l = true <-> In s l.
Proof.
  unfold mem_string. rewrite existsb_exists. split.
  - intros [x [Hin Heq]]. apply String.eqb_eq in Heq. now subst.
  - intros Hin. exists s. split; [assumption | apply String.eqb_refl].
Qed.

Lemma mem_string_false s l : mem_string s l = false <-> ~ In s l.
Proof.
  rewrite <- mem_string_In. destruct (mem_string s l); split; congruence.
Qed.

(** ** Sequencing of methods *)

Lemma andThen_ok {S : Type} (a b : method S) s s' :
  a s = (s', None) -> (a >> b) s = b s'.
Proof. unfold andThen. now intros ->. Qed.

Lemma andThen_preserves {S : Type} (P : S -> Prop) (a b : method S) :
  preserves P a -> preserves P b -> preserves P (a >> b).
Proof.
  intros Ha Hb s Hs. unfold andThen. specialize (Ha s Hs).
  destruct (a s) as [s' [e|]]; simpl in *; auto.
Qed.

(** ** The regular grid *)

Module GridFacts.
Import GridClass.
Local Open Scope Q_scope.

Lemma set_last_length l v : List.length (set_last l v) = List.length l.
Proof.
  induction l as [|x [|y r] IH]; simpl in *; auto.
Qed.

Lemma linspace_length start stop num :
  List.length (linspace start stop num) = num.
Proof.
  unfold linspace, arange.
  destruct (1 <? num)%nat;
    rewrite ?set_last_length, !length_map, length_seq; reflexivity.
Qed.

Lemma meshgrid_ravel_length xs ys zs :
  List.length (meshgrid_ravel xs ys zs)
  = (List.length xs * List.length ys * List.length zs)%nat.
Proof.
  unfold meshgrid_ravel.
  induction xs as [|x xs IH]; simpl; [reflexivity|].
  rewrite length_app, IH.
  assert (H : forall l : list Q,
             List.length (flat_map (fun y : Q => map (fun z : Q => (x, y, z)) zs) l)
             = (List.length l * List.length zs)%nat).
  { induction l as [|y l IHl]; simpl; [reflexivity|].
    rewrite length_app, length_map, IHl. reflexivity. }
  rewrite H. lia.
Qed.

(** X1.  The grid has one point per cell, whatever the widths. *)
Lemma create_regular_grid_3d_length e0 e1 e2 e3 e4 e5 nx ny nz :
  (0 < nx)%nat ->
  exists pts,
    create_regular_grid_3d [e0; e1; e2; e3; e4; e5] [nx; ny; nz] = Some pts
    /\ List.length pts = (nx * ny * nz)%nat.
Proof.
  intros Hnx. unfold create_regular_grid_3d.
  destruct (Nat.eqb_spec nx 0) as [->|_]; [lia|].
  eexists. split; [reflexivity|].
  rewrite meshgrid_ravel_length, !linspace_length. reflexivity.
Qed.

Lemma set_last_app l x v : set_last (l ++ [x]) v = l ++ [v].
Proof.
  induction l as [|a l IH]; [reflexivity|].
  change ((a :: l) ++ [x]) with (a :: (l ++ [x])).
  change ((a :: l) ++ [v]) with (a :: (l ++ [v])).
  rewrite <- IH. destruct (l ++ [x]) eqn:E; [destruct l; discriminate|].
  reflexivity.
Qed.

Lemma Forall2_map_seq (f g : nat -> Q) n :
  (forall i, (i < n)%nat -> f i == g i) ->
  Forall2 Qeq (map f (seq 0 n)) (map g (seq 0 n)).
Proof.
  intros H. induction n as [|n IH]; [constructor|].
  rewrite seq_S, !map_app. simpl. apply Forall2_app.
  - apply IH. intros; apply H; lia.
  - constructor; [apply H; lia | constructor].
Qed.

Lemma linspace_cell_centres lo hi n :
  (0 < n)%nat ->
  let w := (hi - lo) / inject_Z (Z.of_nat n) in
  Forall2 Qeq (linspace (lo + w / 2) (hi - w / 2) n) (cell_centres lo hi n).
Proof.
  intros Hn w. unfold linspace, cell_centres, arange. fold w.
  destruct n as [|[|k]]; [lia| |].
  - simpl. constructor; [|constructor]. ring.
  - replace (1 <? S (S k))%nat with true by (symmetry; apply Nat.ltb_lt; lia).
    rewrite !map_map.
    set (N := inject_Z (Z.of_nat (S (S k)))) in *.
    assert (HN : N == inject_Z (Z.of_nat (S k)) + 1).
    { unfold N. rewrite (Nat2Z.inj_succ (S k)). unfold Z.succ.
      rewrite inject_Z_plus. reflexivity. }
    assert (HD : inject_Z (Z.of_nat (S (S k)) - 1) == inject_Z (Z.of_nat (S k))).
    { apply inject_Z_injective. lia. }
    assert (Hk : 0 < inject_Z (Z.of_nat (S k))).
    { change 0 with (inject_Z 0). rewrite <- Zlt_Qlt. lia. }
    rewrite (seq_S (S k)), !map_app. cbn [map]. rewrite set_last_app.
    apply Forall2_app.
    + apply Forall2_map_seq. intros i Hi. cbv beta. rewrite HD. unfold w. fold N. rewrite HN.
      clear HN HD. generalize dependent (inject_Z (Z.of_nat (S k))). intros K HK.
      generalize (inject_Z (Z.of_nat i)). intros I.
      field. split; Lqa.lra.
    + constructor; [|constructor]. rewrite Nat.add_0_l. unfold w. fold N. rewrite HN.
      clear HN HD. generalize dependent (inject_Z (Z.of_nat (S k))). intros K HK.
      field. Lqa.lra.
Qed.

Lemma meshgrid_ravel_eq xs xs' ys ys' zs zs' :
  Forall2 Qeq xs xs' -> Forall2 Qeq ys ys' -> Forall2 Qeq zs zs' ->
  Forall2 point_eq (meshgrid_ravel xs ys zs) (meshgrid_ravel xs' ys' zs').
Proof.
  intros Hx Hy Hz. unfold meshgrid_ravel.
  induction Hx as [|x x' xs xs' Hxx _ IHx]; simpl; [constructor|].
  apply Forall2_app; [|exact IHx].
  clear IHx. induction Hy as [|y y' ys ys' Hyy _ IHy]; simpl; [constructor|].
  apply Forall2_app; [|exact IHy].
  clear IHy. induction Hz as [|z z' zs zs' Hzz _ IHz]; simpl; constructor; [|exact IHz].
  repeat split; assumption.
Qed.

(** X2.  With the same resolution on the three axes the grid is the cell-centred
    lattice of the specification. *)
Lemma create_regular_grid_3d_cubic e0 e1 e2 e3 e4 e5 n :
  (0 < n)%nat ->
  exists pts lattice,
    create_regular_grid_3d [e0; e1; e2; e3; e4; e5] [n; n; n] = Some pts
    /\ cell_centred_lattice [e0; e1; e2; e3; e4; e5] [n; n; n] = Some lattice
    /\ Forall2 point_eq pts lattice.
Proof.
  intros Hn. unfold create_regular_grid_3d, cell_centred_lattice.
  destruct (Nat.eqb_spec n 0) as [->|_]; [lia|].
  eexists _, _. split; [reflexivity|]. split; [reflexivity|].
  apply meshgrid_ravel_eq; apply linspace_cell_centres; assumption.
Qed.

(** C1, at the extent [0, 4] on every axis with resolution [1, 2, 2]: the
    code divides the Y and Z lengths by the X resolution, so the cell width
    on Y and Z is 4 and the four points of the grid coincide at (2, 2, 2),
    where the lattice with cells of width 2 on Y and Z has the centres
    (2, 1, 1), (2, 1, 3), (2, 3, 1), (2, 3, 3).  The number of points is
    still [1 * 2 * 2]. *)
Theorem create_regular_grid_3d_divides_by_first_resolution :
  option_map (map red_point)
    (create_regular_grid_3d [0; 4; 0; 4; 0; 4] [1; 2; 2]%nat)
  = Some [(2, 2, 2); (2, 2, 2); (2, 2, 2); (2, 2, 2)]
  /\ option_map (map red_point)
       (cell_centred_lattice [0; 4; 0; 4; 0; 4] [1; 2; 2]%nat)
     = Some [(2, 1, 1); (2, 1, 3); (2, 3, 1); (2, 3, 3)]
  /\ (forall pts lattice,
        create_regular_grid_3d [0; 4; 0; 4; 0; 4] [1; 2; 2]%nat = Some pts ->
        cell_centred_lattice [0; 4; 0; 4; 0; 4] [1; 2; 2]%nat = Some lattice ->
        List.length pts = 4%nat /\ ~ Forall2 point_eq pts lattice).
Proof.
  split; [vm_compute; reflexivity|].
  split; [vm_compute; reflexivity|].
  intros pts lattice Hp Hl.
  vm_compute in Hp. vm_compute in Hl.
  injection Hp as <-. injection Hl as <-.
  split; [reflexivity|].
  intros H. inversion H as [|? ? ? ? Hpt _]; subst.
  destruct Hpt as (_ & Hy & _). vm_compute in Hy. discriminate.
Qed.

Lemma create_regular_grid_3d_length_witness :
  exists pts,
    create_regular_grid_3d [0; 1; 0; 1; 0; 1] [2; 3; 4]%nat = Some pts
    /\ List.length pts = (2 * 3 * 4)%nat.
Proof. apply (create_regular_grid_3d_length 0 1 0 1 0 1 2 3 4). lia. Defined.

Lemma create_regular_grid_3d_cubic_witness :
  exists pts lattice,
    create_regular_grid_3d [0; 1; 0; 2; 0; 3] [2; 2; 2]%nat = Some pts
    /\ cell_centred_lattice [0; 1; 0; 2; 0; 3] [2; 2; 2]%nat = Some lattice
    /\ Forall2 point_eq pts lattice.
Proof. apply (create_regular_grid_3d_cubic 0 1 0 2 0 3 2). lia. Defined.

Lemma meshgrid_ravel_x xs xs' ys zs ys' zs' :
  Forall2 Qeq xs xs' ->
  List.length ys = List.length ys' -> List.length zs = List.length zs' ->
  Forall2 (fun p q => fst (fst p) == fst (fst q))
          (meshgrid_ravel xs ys zs) (meshgrid_ravel xs' ys' zs').
Proof.
  intros Hx Hy Hz. unfold meshgrid_ravel.
  induction Hx as [|x x' xs xs' Hxx _ IHx]; simpl; [constructor|].
  apply Forall2_app; [|exact IHx]. clear IHx.
  revert ys' Hy. induction ys as [|y ys IHy]; intros [|y' ys'] Hy; simpl in *;
    try discriminate; [constructor|].
  apply Forall2_app; [|apply IHy; lia].
  clear IHy. revert zs' Hz.
  induction zs as [|z zs IHz]; intros [|z' zs'] Hz; simpl in *;
    try discriminate; constructor; [assumption | apply IHz; lia].
Qed.

Lemma cell_centres_length lo hi n : List.length (cell_centres lo hi n) = n.
Proof. unfold cell_centres. now rewrite length_map, length_seq. Qed.

(** X3.  Whatever the three resolutions are, the X coordinate of every point of
    the grid is the one of the cell-centred lattice: the wrong divisor only
    reaches the Y and Z axes. *)
Theorem create_regular_grid_3d_x_axis e0 e1 e2 e3 e4 e5 nx ny nz :
  (0 < nx)%nat ->
  exists pts lattice,
    create_regular_grid_3d [e0; e1; e2; e3; e4; e5] [nx; ny; nz] = Some pts
    /\ cell_centred_lattice [e0; e1; e2; e3; e4; e5] [nx; ny; nz] = Some lattice
    /\ Forall2 (fun p q => fst (fst p) == fst (fst q)) pts lattice.
Proof.
  intros Hn. unfold create_regular_grid_3d, cell_centred_lattice.
  destruct (Nat.eqb_spec nx 0) as [->|_]; [lia|].
  eexists _, _. split; [reflexivity|]. split; [reflexivity|].
  apply meshgrid_ravel_x.
  - now apply linspace_cell_centres.
  - now rewrite linspace_length, cell_centres_length.
  - now rewrite linspace_length, cell_centres_length.
Qed.

Lemma create_regular_grid_3d_x_axis_witness :
  exists pts lattice,
    create_regular_grid_3d [0; 4; 0; 4; 0; 4] [1; 2; 2]%nat = Some pts
    /\ cell_centred_lattice [0; 4; 0; 4; 0; 4] [1; 2; 2]%nat = Some lattice
    /\ Forall2 (fun p q => fst (fst p) == fst (fst q)) pts lattice.
Proof. apply (create_regular_grid_3d_x_axis 0 4 0 4 0 4 1 2 2). lia. Defined.

End GridFacts.

(** ** The rescaler *)

Module RescaleFacts.
Import RescaledData.
Local Open Scope Q_scope.

Lemma Qmax_cases x y : Qmax x y = x \/ Qmax x y = y.
Proof.
  unfold Qmax, GenericMinMax.gmax. destruct (x ?= y); auto.
Qed.

Lemma Qmin_cases x y : Qmin x y = x \/ Qmin x y = y.
Proof.
  unfold Qmin, GenericMinMax.gmin. destruct (x ?= y); auto.
Qed.

Lemma fold_max_spec r : forall x,
  (fold_left Qmax r x = x \/ In (fold_left Qmax r x) r)
  /\ x <= fold_left Qmax r x
  /\ Forall (fun y => y <= fold_left Qmax r x) r.
Proof.
  induction r as [|y r IH]; intros x; simpl.
  - repeat split; auto. apply Qle_refl.
  - destruct (IH (Qmax x y)) as (Hin & Hle & Hall).
    repeat split.
    + destruct Hin as [Heq|Hin]; [|auto].
      rewrite Heq. destruct (Qmax_cases x y) as [->| ->]; auto.
    + eapply Qle_trans; [apply Q.le_max_l | exact Hle].
    + constructor; [|exact Hall].
      eapply Qle_trans; [apply Q.le_max_r | exact Hle].
Qed.

Lemma fold_min_spec r : forall x,
  (fold_left Qmin r x = x \/ In (fold_left Qmin r x) r)
  /\ fold_left Qmin r x <= x
  /\ Forall (fun y => fold_left Qmin r x <= y) r.
Proof.
  induction r as [|y r IH]; intros x; simpl.
  - repeat split; auto. apply Qle_refl.
  - destruct (IH (Qmin x y)) as (Hin & Hle & Hall).
    repeat split.
    + destruct Hin as [Heq|Hin]; [|auto].
      rewrite Heq. destruct (Qmin_cases x y) as [->| ->]; auto.
    + eapply Qle_trans; [exact Hle | apply Q.le_min_l].
    + constructor; [|exact Hall].
      eapply Qle_trans; [exact Hle | apply Q.le_min_r].
Qed.

Lemma col_max_spec l M : col_max l = Some M -> is_max l M.
Proof.
  destruct l as [|x r]; simpl; [discriminate|].
  intros [= <-]. destruct (fold_max_spec r x) as (Hin & Hle & Hall).
  split; [destruct Hin as [->|Hin]; simpl; auto | constructor; assumption].
Qed.

Lemma col_min_spec l m : col_min l = Some m -> is_min l m.
Proof.
  destruct l as [|x r]; simpl; [discriminate|].
  intros [= <-]. destruct (fold_min_spec r x) as (Hin & Hle & Hall).
  split; [destruct Hin as [->|Hin]; simpl; auto | constructor; assumption].
Qed.

Lemma is_max_unique l M M' : is_max l M -> is_max l M' -> M == M'.
Proof.
  intros [Hin Hall] [Hin' Hall'].
  rewrite Forall_forall in Hall, Hall'.
  apply Qle_antisym; auto.
Qed.

Lemma is_min_unique l m m' : is_min l m -> is_min l m' -> m == m'.
Proof.
  intros [Hin Hall] [Hin' Hall'].
  rewrite Forall_forall in Hall, Hall'.
  apply Qle_antisym; auto.
Qed.

Lemma rescale_coord_finite rf c x :
  ~ rf == 0 -> rescale_coord rf c x = Some (Finite (rescaled rf c x)).
Proof.
  intros H. unfold rescale_coord, rescaled, bias.
  destruct (Qeq_bool rf 0) eqn:E; [|reflexivity].
  apply Qeq_bool_iff in E. contradiction.
Qed.

Lemma rescale_coord_nan rf c x : rf == 0 -> x == c -> rescale_coord rf c x = None.
Proof.
  intros H Hx. unfold rescale_coord.
  apply Qeq_bool_iff in H. rewrite H.
  assert (E : x - c == 0) by (rewrite Hx; ring).
  apply Qeq_alt in E. now rewrite E.
Qed.

Lemma write_rescaled_spec rf cx cy cz rows :
  ~ rf == 0 ->
  Forall2 (rescaled_row rf (cx, cy, cz)) rows
          (write_rescaled rows (rescale_rows rows rf (cx, cy, cz))).
Proof.
  intros H. unfold write_rescaled, rescale_rows.
  induction rows as [|r rows IH]; simpl; constructor; [|exact IH].
  unfold rescaled_row. simpl. rewrite !rescale_coord_finite by assumption.
  repeat split.
Qed.

Lemma write_rescaled_nan rf cx cy cz rows :
  rf == 0 ->
  (forall r, In r rows -> X r == cx /\ Y r == cy /\ Z r == cz) ->
  Forall2 not_rescaled_row rows
          (write_rescaled rows (rescale_rows rows rf (cx, cy, cz))).
Proof.
  intros H Hc. unfold write_rescaled, rescale_rows.
  induction rows as [|r rows IH]; simpl; constructor.
  - destruct (Hc r (or_introl eq_refl)) as (Hx & Hy & Hz).
    unfold not_rescaled_row. simpl.
    rewrite !rescale_coord_nan by assumption. repeat split.
  - apply IH. intros r' Hr'. apply Hc. now right.
Qed.

Lemma col_max_nonempty {A} (f : A -> Q) l : l <> [] -> exists M, col_max (map f l) = Some M.
Proof. destruct l; [congruence|]. simpl. eauto. Qed.

Lemma col_min_nonempty {A} (f : A -> Q) l : l <> [] -> exists M, col_min (map f l) = Some M.
Proof. destruct l; [congruence|]. simpl. eauto. Qed.

Lemma is_max_bound {A} (f : A -> Q) l M r : is_max (map f l) M -> In r l -> f r <= M.
Proof.
  intros [_ H] Hin. rewrite Forall_forall in H. apply H. now apply in_map.
Qed.

Lemma is_min_bound {A} (f : A -> Q) l m r : is_min (map f l) m -> In r l -> m <= f r.
Proof.
  intros [_ H] Hin. rewrite Forall_forall in H. apply H. now apply in_map.
Qed.

Lemma is_min_le_max l m M : is_min l m -> is_max l M -> m <= M.
Proof.
  intros [Hin _] [_ Hall]. rewrite Forall_forall in Hall. now apply Hall.
Qed.

(** A column whose greatest and least entries are equal is constant, and a
    constant column has equal greatest and least entries. *)
Lemma range_zero {A} (f : A -> Q) l m M :
  is_min (map f l) m -> is_max (map f l) M ->
  (M == m <-> forall r r', In r l -> In r' l -> f r == f r').
Proof.
  intros Hm HM. split.
  - intros E r r' Hr Hr'.
    pose proof (is_min_bound f l m r Hm Hr). pose proof (is_max_bound f l M r HM Hr).
    pose proof (is_min_bound f l m r' Hm Hr'). pose proof (is_max_bound f l M r' HM Hr').
    Lqa.lra.
  - intros Hc. destruct Hm as [Hm _]. destruct HM as [HM _].
    apply in_map_iff in Hm. destruct Hm as (r & <- & Hr).
    apply in_map_iff in HM. destruct HM as (r' & <- & Hr'). auto.
Qed.

Lemma midpoint_of_point x M m : m <= x -> x <= M -> M - m == 0 -> x == (M + m) / 2.
Proof.
  intros H1 H2 H3.
  assert (E1 : x == M) by Lqa.lra. assert (E2 : m == M) by Lqa.lra.
  rewrite E1, E2. field.
Qed.

Lemma max3_zero a b c :
  0 <= a -> 0 <= b -> 0 <= c ->
  0 <= 2 * Qmax (Qmax a b) c
  /\ (2 * Qmax (Qmax a b) c == 0 <-> a == 0 /\ b == 0 /\ c == 0).
Proof.
  intros Ha Hb Hc.
  pose proof (Q.le_max_l a b). pose proof (Q.le_max_r a b).
  pose proof (Q.le_max_l (Qmax a b) c). pose proof (Q.le_max_r (Qmax a b) c).
  split; [Lqa.lra|]. split.
  - intros E. repeat split; Lqa.lra.
  - intros (Ea & Eb & Ec).
    assert (E1 : Qmax a b == 0).
    { destruct (Qmax_cases a b) as [-> | ->]; assumption. }
    destruct (Qmax_cases (Qmax a b) c) as [-> | ->]; Lqa.lra.
Qed.




Lemma write_rescaled_coords rf c rows :
  map X (write_rescaled rows (rescale_rows rows rf c)) = map X rows
  /\ map Y (write_rescaled rows (rescale_rows rows rf c)) = map Y rows
  /\ map Z (write_rescaled rows (rescale_rows rows rf c)) = map Z rows.
Proof.
  destruct c as [[cx cy] cz]. unfold write_rescaled, rescale_rows.
  induction rows as [|r rows (IH1 & IH2 & IH3)]; simpl; [auto|].
  rewrite IH1, IH2, IH3. auto.
Qed.

Lemma write_rescaled_again rf c rows :
  write_rescaled (write_rescaled rows (rescale_rows rows rf c))
                 (rescale_rows (write_rescaled rows (rescale_rows rows rf c)) rf c)
  = write_rescaled rows (rescale_rows rows rf c).
Proof.
  destruct c as [[cx cy] cz]. unfold write_rescaled, rescale_rows.
  induction rows as [|r rows IH]; simpl; [reflexivity|]. now rewrite IH.
Qed.

Lemma max_min_coord_rescaled rf c i o :
  max_min_coord (write_rescaled i (rescale_rows i rf c))
                (write_rescaled o (rescale_rows o rf c))
  = max_min_coord i o.
Proof.
  unfold max_min_coord. rewrite !map_app.
  destruct (write_rescaled_coords rf c i) as (-> & -> & ->).
  destruct (write_rescaled_coords rf c o) as (-> & -> & ->).
  reflexivity.
Qed.

(** What [rescale_data] returns, written out. *)
Lemma rescale_data_inv factor cs st st' :
  rescale_data factor cs st = Some st' ->
  exists rf c e v,
    match factor with
    | Some f => rf = f
    | None => exists m, max_min_coord (interfaces st) (orientations st) = Some m
                        /\ rf = compute_rescaling_factor (fst m) (snd m)
    end
    /\ match cs with
       | Some c0 => c = c0
       | None => exists m, max_min_coord (interfaces st) (orientations st) = Some m
                           /\ c = compute_data_center (fst m) (snd m)
       end
    /\ rescale_grid (the_grid st) rf c = Some (e, v)
    /\ st' = mk (write_rescaled (interfaces st) (rescale_rows (interfaces st) rf c))
                (write_rescaled (orientations st) (rescale_rows (orientations st) rf c))
                (mkgrid (extent (the_grid st)) (values (the_grid st)) (Some e) (Some v))
                (Some rf) (Some c).
Proof.
  unfold rescale_data. intros H.
  destruct (match factor with None => _ | Some f => Some f end) as [rf|] eqn:Ef; [|discriminate].
  destruct (match cs with None => _ | Some c => Some c end) as [c|] eqn:Ec;
    [|destruct factor; discriminate].
  unfold set_rescaled_grid in H. cbn [the_grid set_rescaled_orientations set_rescaled_interfaces] in H.
  destruct (rescale_grid (the_grid st) rf c) as [[e v]|] eqn:Eg; [|discriminate].
  injection H as <-. exists rf, c, e, v.
  split.
  { destruct factor; [now injection Ef as -> |].
    destruct (max_min_coord _ _) as [m|]; [|discriminate]. injection Ef as <-. eauto. }
  split.
  { destruct cs; [now injection Ec as -> |].
    destruct (max_min_coord _ _) as [m|]; [|discriminate]. injection Ec as <-. eauto. }
  split; [exact Eg|]. reflexivity.
Qed.

(** X4.  Rescaling is idempotent: the derived columns are computed from the
    observed X, Y, Z only, which rescaling leaves alone, so a second call
    with the same arguments returns the state of the first. *)
Theorem rescale_data_idempotent factor cs st st' :
  rescale_data factor cs st = Some st' ->
  rescale_data factor cs st' = Some st'.
Proof.
  intros H. destruct (rescale_data_inv _ _ _ _ H) as (rf & c & e & v & Hf & Hc & Hg & ->).
  unfold rescale_data. cbn [interfaces orientations the_grid].
  rewrite max_min_coord_rescaled.
  assert (Ef : match factor with
               | None => option_map (fun m => compute_rescaling_factor (fst m) (snd m))
                                    (max_min_coord (interfaces st) (orientations st))
               | Some f => Some f end = Some rf).
  { destruct factor; [now subst|]. destruct Hf as (m & -> & ->). reflexivity. }
  assert (Ec : match cs with
               | None => option_map (fun m => compute_data_center (fst m) (snd m))
                                    (max_min_coord (interfaces st) (orientations st))
               | Some c => Some c end = Some c).
  { destruct cs; [now subst|]. destruct Hc as (m & -> & ->). reflexivity. }
  rewrite Ef, Ec.
  unfold set_rescaled_grid, set_rescaled_orientations, set_rescaled_interfaces.
  cbn [interfaces orientations the_grid rescaling_factor centers].
  unfold rescale_interfaces, rescale_orientations. rewrite !write_rescaled_again.
  unfold rescale_grid in *. cbn [extent values].
  destruct c as [[cx cy] cz].
  destruct (extent (the_grid st)) as [|e0 [|e1 [|e2 [|e3 [|e4 [|e5 [|]]]]]]]; try discriminate.
  injection Hg as <- <-. reflexivity.
Qed.

Lemma rescale_data_idempotent_witness :
  exists st',
    rescale_data None None sample = Some st'
    /\ rescale_data None None st' = Some st'.
Proof.
  eexists. split; [vm_compute; reflexivity|].
  apply (rescale_data_idempotent None None sample). vm_compute. reflexivity.
Defined.

Lemma rescale_coord_bounds m M R rf x :
  m <= x -> x <= M -> M - m <= R -> rf == 2 * R -> 0 < rf ->
  2501 # 10000 <= rescaled rf ((M + m) / 2) x
  /\ rescaled rf ((M + m) / 2) x <= 7501 # 10000.
Proof.
  intros H1 H2 H3 H4 H5. unfold rescaled.
  assert (Hc : 2 * ((M + m) / 2) == M + m) by field.
  set (c := (M + m) / 2) in *.
  assert (Hlo : - (1 # 4) <= (x - c) / rf).
  { apply Qle_shift_div_l; [assumption|]. Lqa.lra. }
  assert (Hhi : (x - c) / rf <= 1 # 4).
  { apply Qle_shift_div_r; [assumption|]. Lqa.lra. }
  split; Lqa.lra.
Qed.

Lemma write_rescaled_In rf cx cy cz rows r' :
  In r' (write_rescaled rows (rescale_rows rows rf (cx, cy, cz))) ->
  exists r, In r rows
            /\ X_r r' = rescale_coord rf cx (X r)
            /\ Y_r r' = rescale_coord rf cy (Y r)
            /\ Z_r r' = rescale_coord rf cz (Z r).
Proof.
  unfold write_rescaled, rescale_rows.
  induction rows as [|r rows IH]; simpl; [contradiction|].
  intros [<-|H].
  - exists r. simpl. auto.
  - destruct (IH H) as (r0 & Hin & Hr). exists r0. auto.
Qed.

(** X5.  With the default factor and centers, every rescaled coordinate of an
    interface point or an orientation lies in [0.2501, 0.7501]: the data sit
    in the middle half of the unit cube, around 0.5001. *)
Theorem rescaled_observations_bounds st st' rf :
  rescale_data None None st = Some st' ->
  rescaling_factor st' = Some rf ->
  0 < rf ->
  forall r, In r (interfaces st') \/ In r (orientations st') ->
    exists x y z,
      X_r r = Some (Finite x) /\ Y_r r = Some (Finite y) /\ Z_r r = Some (Finite z)
      /\ (2501 # 10000 <= x /\ x <= 7501 # 10000)
      /\ (2501 # 10000 <= y /\ y <= 7501 # 10000)
      /\ (2501 # 10000 <= z /\ z <= 7501 # 10000).
Proof.
  intros H Hrf Hpos r' Hin.
  destruct (rescale_data_inv _ _ _ _ H) as (rf0 & c & e & v & Hf & Hc & Hg & ->).
  cbn [rescaling_factor interfaces orientations] in *. injection Hrf as ->.
  destruct Hf as (mm & Hmm & ->). destruct Hc as (mm' & Hmm' & ->).
  rewrite Hmm in Hmm'. injection Hmm' as <-.
  unfold max_min_coord in Hmm.
  set (pts := orientations st ++ interfaces st) in *.
  destruct (col_max (map X pts)) as [Mx|] eqn:E1; [|discriminate].
  destruct (col_max (map Y pts)) as [My|] eqn:E2; [|discriminate].
  destruct (col_max (map Z pts)) as [Mz|] eqn:E3; [|discriminate].
  destruct (col_min (map X pts)) as [mx|] eqn:E4; [|discriminate].
  destruct (col_min (map Y pts)) as [my|] eqn:E5; [|discriminate].
  destruct (col_min (map Z pts)) as [mz|] eqn:E6; [|discriminate].
  injection Hmm as <-. cbn [fst snd compute_data_center compute_rescaling_factor] in *.
  apply col_max_spec in E1, E2, E3. apply col_min_spec in E4, E5, E6.
  assert (Hr : exists r, In r pts
            /\ X_r r' = rescale_coord (2 * fold_left Qmax [My - my; Mz - mz] (Mx - mx)) ((Mx + mx) / 2) (X r)
            /\ Y_r r' = rescale_coord (2 * fold_left Qmax [My - my; Mz - mz] (Mx - mx)) ((My + my) / 2) (Y r)
            /\ Z_r r' = rescale_coord (2 * fold_left Qmax [My - my; Mz - mz] (Mx - mx)) ((Mz + mz) / 2) (Z r)).
  { destruct Hin as [Hin|Hin]; apply write_rescaled_In in Hin;
      destruct Hin as (r & Hr & Hx); exists r; (split; [|exact Hx]);
      unfold pts; apply in_or_app; auto. }
  destruct Hr as (r & Hr & -> & -> & ->).
  simpl fold_left in *.
  assert (Hnz : ~ 2 * Qmax (Qmax (Mx - mx) (My - my)) (Mz - mz) == 0) by Lqa.lra.
  rewrite !rescale_coord_finite by exact Hnz.
  do 3 eexists. split; [reflexivity|]. split; [reflexivity|]. split; [reflexivity|].
  split; [|split].
  - eapply rescale_coord_bounds; try reflexivity; try assumption.
    + eapply is_min_bound; eassumption.
    + eapply is_max_bound; eassumption.
    + eapply Qle_trans; [apply Q.le_max_l | apply Q.le_max_l].
  - eapply rescale_coord_bounds; try reflexivity; try assumption.
    + eapply is_min_bound; eassumption.
    + eapply is_max_bound; eassumption.
    + eapply Qle_trans; [apply Q.le_max_r | apply Q.le_max_l].
  - eapply rescale_coord_bounds; try reflexivity; try assumption.
    + eapply is_min_bound; eassumption.
    + eapply is_max_bound; eassumption.
    + apply Q.le_max_r.
Qed.

Lemma rescaled_observations_bounds_witness :
  exists st',
    rescale_data None None sample = Some st'
    /\ forall r, In r (interfaces st') \/ In r (orientations st') ->
         exists x y z,
           X_r r = Some (Finite x) /\ Y_r r = Some (Finite y) /\ Z_r r = Some (Finite z)
           /\ (2501 # 10000 <= x /\ x <= 7501 # 10000)
           /\ (2501 # 10000 <= y /\ y <= 7501 # 10000)
           /\ (2501 # 10000 <= z /\ z <= 7501 # 10000).
Proof.
  eexists. split; [vm_compute; reflexivity|].
  eapply (rescaled_observations_bounds sample).
  - vm_compute. reflexivity.
  - reflexivity.
  - vm_compute. reflexivity.
Defined.

End RescaleFacts.

(** ** Gradient and orientation *)

Module OrientationFacts.
Import Orientations.
Local Open Scope R_scope.

Lemma deg2rad_rad2deg x : deg2rad (rad2deg x) = x.
Proof. unfold deg2rad, rad2deg. field. apply PI_neq0. Qed.

Lemma deg2rad_shift x : deg2rad (rad2deg x + 360) = x + 2 * PI.
Proof. unfold deg2rad, rad2deg. field. apply PI_neq0. Qed.

Lemma sqrt_one_plus_pos t : 0 < sqrt (1 + t²).
Proof. apply sqrt_lt_R0. unfold Rsqr. nra. Qed.

Lemma norm_pos x1 x2 : 0 < x2 -> sqrt (x1 * x1 + x2 * x2) = x2 * sqrt (1 + (x1 / x2)²).
Proof.
  intros H.
  replace (x1 * x1 + x2 * x2) with (x2 * x2 * (1 + (x1 / x2)²)).
  - rewrite sqrt_mult; [| nra | unfold Rsqr; nra].
    rewrite sqrt_square by lra. reflexivity.
  - unfold Rsqr. field. lra.
Qed.

Lemma norm_neg x1 x2 : x2 < 0 -> sqrt (x1 * x1 + x2 * x2) = - x2 * sqrt (1 + (x1 / x2)²).
Proof.
  intros H.
  replace (x1 * x1 + x2 * x2) with ((- x2) * (- x2) * (1 + (x1 / x2)²)).
  - rewrite sqrt_mult; [| nra | unfold Rsqr; nra].
    rewrite sqrt_square by lra. reflexivity.
  - unfold Rsqr. field. lra.
Qed.

Lemma arctan2_sin x1 x2 : sqrt (x1 * x1 + x2 * x2) * sin (arctan2 x1 x2) = x1.
Proof.
  unfold arctan2.
  destruct (Rlt_dec 0 x2) as [Hp|Hnp].
  - rewrite norm_pos by assumption. rewrite sin_atan.
    pose proof (sqrt_one_plus_pos (x1 / x2)). field. lra.
  - destruct (Rlt_dec x2 0) as [Hn|Hnn].
    + rewrite norm_neg by assumption.
      pose proof (sqrt_one_plus_pos (x1 / x2)).
      destruct (Rle_dec 0 x1).
      * rewrite neg_sin, sin_atan. field. lra.
      * unfold Rminus. rewrite sin_plus, sin_neg, cos_neg, sin_PI, cos_PI, sin_atan. field. lra.
    + assert (x2 = 0) by lra. subst x2.
      replace (x1 * x1 + 0 * 0) with (x1 * x1) by ring.
      destruct (Rlt_dec 0 x1).
      * rewrite sqrt_square by lra. rewrite sin_PI2. ring.
      * destruct (Rlt_dec x1 0).
        -- replace (x1 * x1) with ((- x1) * (- x1)) by ring.
           rewrite sqrt_square by lra. rewrite sin_neg, sin_PI2. ring.
        -- assert (x1 = 0) by lra. subst. rewrite sin_0. ring.
Qed.

Lemma arctan2_cos x1 x2 : sqrt (x1 * x1 + x2 * x2) * cos (arctan2 x1 x2) = x2.
Proof.
  unfold arctan2.
  destruct (Rlt_dec 0 x2) as [Hp|Hnp].
  - rewrite norm_pos by assumption. rewrite cos_atan.
    pose proof (sqrt_one_plus_pos (x1 / x2)). field. lra.
  - destruct (Rlt_dec x2 0) as [Hn|Hnn].
    + rewrite norm_neg by assumption.
      pose proof (sqrt_one_plus_pos (x1 / x2)).
      destruct (Rle_dec 0 x1).
      * rewrite neg_cos, cos_atan. field. lra.
      * unfold Rminus. rewrite cos_plus, sin_neg, cos_neg, sin_PI, cos_PI, cos_atan. field. lra.
    + assert (x2 = 0) by lra. subst x2.
      replace (x1 * x1 + 0 * 0) with (x1 * x1) by ring.
      destruct (Rlt_dec 0 x1).
      * rewrite cos_PI2. ring.
      * destruct (Rlt_dec x1 0).
        -- rewrite cos_neg, cos_PI2. ring.
        -- assert (x1 = 0) by lra. subst. rewrite cos_0, Rmult_0_l, sqrt_0. ring.
Qed.

Lemma arctan2_bound x1 x2 : - PI < arctan2 x1 x2 <= PI.
Proof.
  unfold arctan2. pose proof PI_RGT_0 as HPI.
  destruct (Rlt_dec 0 x2).
  - pose proof (atan_bound (x1 / x2)). lra.
  - destruct (Rlt_dec x2 0).
    + pose proof (atan_bound (x1 / x2)).
      destruct (Rle_dec 0 x1) as [H1|H1].
      * assert (x1 / x2 <= 0).
        { unfold Rdiv. assert (/ x2 < 0) by (apply Rinv_lt_0_compat; lra). nra. }
        assert (atan (x1 / x2) <= 0).
        { destruct (Req_dec (x1 / x2) 0) as [->|Hne]; [rewrite atan_0; lra|].
          rewrite <- atan_0. left. apply atan_increasing. lra. }
        lra.
      * assert (0 < x1 / x2).
        { unfold Rdiv. assert (/ x2 < 0) by (apply Rinv_lt_0_compat; lra). nra. }
        assert (0 < atan (x1 / x2)).
        { rewrite <- atan_0. apply atan_increasing. lra. }
        lra.
    + destruct (Rlt_dec 0 x1); [lra|]. destruct (Rlt_dec x1 0); lra.
Qed.

Lemma unit_bounds gx gy gz : gx * gx + gy * gy + gz * gz = 1 -> -1 <= gz <= 1.
Proof. intros H. split; nra. Qed.

Lemma sin_acos_unit gx gy gz :
  gx * gx + gy * gy + gz * gz = 1 -> sin (acos gz) = sqrt (gx * gx + gy * gy).
Proof.
  intros H. rewrite sin_acos by (apply (unit_bounds gx gy); assumption).
  f_equal. unfold Rsqr. lra.
Qed.

Lemma roundtrip_row r gx gy gz :
  G_x r = Some gx -> G_y r = Some gy -> G_z r = Some gz ->
  gx * gx + gy * gy + gz * gz = 1 ->
  let o := calculate_orientations_row r in
  let g := calculate_gradient_row o in
  polarity o = Some 1
  /\ dip o = Some (rad2deg (acos gz))
  /\ G_z g = Some (gz + epsilon)
  /\ (rad2deg (acos gz) < 1 / 1000 -> azimuth o = Some 0)
  /\ (1 / 1000 <= rad2deg (acos gz) ->
      (exists az, azimuth o = Some az /\ 0 <= az < 360
                  /\ (az = rad2deg (arctan2 gx gy)
                      \/ az = rad2deg (arctan2 gx gy) + 360))
      /\ G_x g = Some (gx + epsilon)
      /\ G_y g = Some (gy + epsilon)).
Proof.
  intros Hx Hy Hz Hunit.
  pose proof (unit_bounds _ _ _ Hunit) as [Hlo Hhi].
  unfold calculate_gradient_row, calculate_orientations_row.
  rewrite Hx, Hy, Hz. cbn [lift1 lift2 option_map dip azimuth polarity G_x G_y G_z
    arccos_nan_to_num arctan2_nan_to_num].
  rewrite !Rdiv_1_r.
  destruct (Rle_dec (-1) gz) as [_|C]; [|lra].
  destruct (Rle_dec gz 1) as [_|C]; [|lra].
  rewrite deg2rad_rad2deg.
  split; [reflexivity|]. split; [reflexivity|].
  split; [rewrite cos_acos by lra; f_equal; ring|].
  split.
  - intros Hs. destruct (Rlt_dec (rad2deg (acos gz)) (1 / 1000)); [reflexivity|lra].
  - intros Hns.
    destruct (Rlt_dec (rad2deg (acos gz)) (1 / 1000)) as [C|_]; [lra|].
    pose proof (arctan2_bound gx gy) as [Hb1 Hb2].
    pose proof PI_RGT_0 as HPI.
    assert (Hdeg : forall a, rad2deg a = a * 180 / PI).
    { intros a. unfold rad2deg. field. lra. }
    assert (Hm : -180 < rad2deg (arctan2 gx gy) <= 180).
    { rewrite Hdeg. split.
      - apply Rmult_lt_reg_r with PI; [lra|]. unfold Rdiv. rewrite Rmult_assoc, Rinv_l by lra. lra.
      - apply Rmult_le_reg_r with PI; [lra|]. unfold Rdiv. rewrite Rmult_assoc, Rinv_l by lra. lra. }
    rewrite (sin_acos_unit gx gy gz Hunit).
    destruct (Rlt_dec (rad2deg (arctan2 gx gy)) 0) as [Hneg|Hnneg].
    + split; [eexists; split; [reflexivity|]; split; [lra|right; reflexivity]|].
      rewrite deg2rad_shift.
      rewrite sin_plus, cos_plus, sin_2PI, cos_2PI.
      pose proof (arctan2_sin gx gy) as Hs. pose proof (arctan2_cos gx gy) as Hc.
      split; f_equal; nra.
    + split; [eexists; split; [reflexivity|]; split; [lra|left; reflexivity]|].
      rewrite deg2rad_rad2deg.
      pose proof (arctan2_sin gx gy) as Hs. pose proof (arctan2_cos gx gy) as Hc.
      split; f_equal; nra.
Qed.

(** C3.  For a row whose gradient is a unit vector, [calculate_orientations]
    sets polarity 1 and dip [arccos G_z] in degrees; below a dip of 0.001 the
    azimuth is 0; otherwise the azimuth is [arctan2(G_x, G_y)] in degrees
    brought into [0, 360), and [calculate_gradient] applied to the result
    gives back each component of the gradient plus the constant 1e-12.  The
    Z component comes back in both cases. *)
Theorem gradient_orientation_roundtrip (df : frame) i l r gx gy gz :
  nth_error df i = Some (l, r) ->
  G_x r = Some gx -> G_y r = Some gy -> G_z r = Some gz ->
  gx * gx + gy * gy + gz * gz = 1 ->
  exists o g,
    nth_error (calculate_orientations df) i = Some (l, o)
    /\ nth_error (calculate_gradient (calculate_orientations df)) i = Some (l, g)
    /\ polarity o = Some 1
    /\ dip o = Some (rad2deg (acos gz))
    /\ G_z g = Some (gz + epsilon)
    /\ (rad2deg (acos gz) < 1 / 1000 -> azimuth o = Some 0)
    /\ (1 / 1000 <= rad2deg (acos gz) ->
        (exists az, azimuth o = Some az /\ 0 <= az < 360
                    /\ (az = rad2deg (arctan2 gx gy)
                        \/ az = rad2deg (arctan2 gx gy) + 360))
        /\ G_x g = Some (gx + epsilon)
        /\ G_y g = Some (gy + epsilon)).
Proof.
  intros Hnth Hx Hy Hz Hunit.
  exists (calculate_orientations_row r),
         (calculate_gradient_row (calculate_orientations_row r)).
  split.
  { unfold calculate_orientations.
    now rewrite (map_nth_error _ _ _ Hnth). }
  split.
  { unfold calculate_gradient, calculate_orientations.
    rewrite map_map. now rewrite (map_nth_error _ _ _ Hnth). }
  exact (roundtrip_row r gx gy gz Hx Hy Hz Hunit).
Qed.

Lemma gradient_orientation_roundtrip_witness :
  exists o g,
    nth_error (calculate_orientations sample) 0 = Some (0%Z, o)
    /\ nth_error (calculate_gradient (calculate_orientations sample)) 0 = Some (0%Z, g)
    /\ polarity o = Some 1
    /\ dip o = Some (rad2deg (acos 0))
    /\ G_z g = Some (0 + epsilon)
    /\ (rad2deg (acos 0) < 1 / 1000 -> azimuth o = Some 0)
    /\ (1 / 1000 <= rad2deg (acos 0) ->
        (exists az, azimuth o = Some az /\ 0 <= az < 360
                    /\ (az = rad2deg (arctan2 1 0)
                        \/ az = rad2deg (arctan2 1 0) + 360))
        /\ G_x g = Some (1 + epsilon)
        /\ G_y g = Some (0 + epsilon)).
Proof.
  eapply (gradient_orientation_roundtrip sample 0 0%Z);
    [reflexivity | reflexivity | reflexivity | reflexivity | simpl; ring].
Defined.

(** [df.loc] with the eight-component key of [add_orientation] never writes. *)
Lemma loc_setitem_eight_components i c1 c2 c3 c4 c5 c6 c7 value df :
  loc_setitem [Lab i; Col c1; Col c2; Col c3; Col c4; Col c5; Col c6; Col c7]
              value df = inl IndexingError.
Proof. reflexivity. Qed.

(** C10, [add_orientation].  On the frame of one orientation, adding a point
    with both the pole vector (0, 0, 1) and the orientation (0, 0, 1) raises
    at the write [df.loc[idx, 'X', 'Y', 'Z', 'G_x', 'G_y', 'G_z', 'surface']]:
    no row is added, nothing is recomputed from the gradient, no warning is
    issued.  The same holds for every call: [add_orientation] raises on all
    inputs. *)
Theorem add_orientation_raises :
  (exists e,
      add_orientation 1 2 3 "a" (Some (0, 0, 1)) (Some (0, 0, 1)) None sample
      = inl e)
  /\ forall x y z surf pole_vector orientation idx df,
       exists e, add_orientation x y z surf pole_vector orientation idx df = inl e.
Proof.
  split.
  - exists IndexingError. unfold add_orientation, sample. simpl. reflexivity.
  - intros x y z surf pole_vector orientation idx df.
    unfold add_orientation.
    destruct pole_vector as [[[gx gy] gz]|], orientation as [[[az d] pol]|];
      try (eexists; reflexivity);
      (destruct idx as [i|]; [|destruct (last_valid_index df)]);
      simpl; eexists; reflexivity.
Qed.

Section SetOrientationsFacts.

Variable check_for_nans : option (list (R * R * R)) -> option (list (R * R * R)).

(** C10, [set_orientations].  When the pole vector survives the check for
    NaNs, the gradient columns are taken from it and dip, azimuth and
    polarity are computed from them; the orientation argument only decides
    whether the warning is issued. *)
Lemma set_orientations_pole_vector_first coord pole_vector orientation surf pv :
  check_for_nans pole_vector = Some pv ->
  set_orientations check_for_nans (Some coord) pole_vector orientation (Some surf)
  = (df <- rows_of_coord coord surf ;;
     df <- set_gradient_columns pv df ;;
     inr (calculate_orientations df,
          match check_for_nans orientation with
          | Some _ => [pole_vector_warning]
          | None => []
          end)).
Proof.
  intros H. unfold set_orientations. rewrite H.
  destruct (check_for_nans orientation); reflexivity.
Qed.

Lemma set_orientations_ignores_orientation coord pole_vector o1 o2 surf pv :
  check_for_nans pole_vector = Some pv ->
  match set_orientations check_for_nans (Some coord) pole_vector o1 (Some surf),
        set_orientations check_for_nans (Some coord) pole_vector o2 (Some surf) with
  | inr (df1, _), inr (df2, _) => df1 = df2
  | inl e1, inl e2 => e1 = e2
  | _, _ => False
  end.
Proof.
  intros H. rewrite !(set_orientations_pole_vector_first _ _ _ _ _ H).
  destruct (rows_of_coord coord surf) as [e|df]; simpl; [reflexivity|].
  destruct (set_gradient_columns pv df) as [e|df']; simpl; reflexivity.
Qed.

End SetOrientationsFacts.

(** C10, [modify_orientation].  When one of G_x, G_y, G_z is among the
    keywords and the call returns, the rows of [idx] have polarity 1 and a
    dip and an azimuth computed from their gradient, whatever dip, azimuth or
    polarity the same call wrote. *)
Lemma modify_orientation_gradient_first idx kwargs df df' :
  modify_orientation idx kwargs df = inr df' ->
  existsb (fun kv => mem_string (fst kv) ["G_x"; "G_y"; "G_z"]%string) kwargs = true ->
  forall l r, In (l, r) df' -> in_idx l idx = true ->
    polarity r = Some 1
    /\ dip r = Some (rad2deg (arccos_nan_to_num (lift2 Rdiv (G_z r) (Some 1))))
    /\ azimuth r = Some (rad2deg (arctan2_nan_to_num (lift2 Rdiv (G_x r) (Some 1))
                                                      (lift2 Rdiv (G_y r) (Some 1)))).
Proof.
  unfold modify_orientation, bind. intros H HG l r Hin Hl.
  destruct (negb (forallb _ df)); [discriminate|].
  destruct (negb (forallb _ kwargs)); [discriminate|].
  destruct (vstack_T _ _) as [e|values]; [discriminate|].
  destruct (loc_setitem _ values df) as [e|df1]; [discriminate|].
  rewrite HG in H. injection H as <-.
  unfold calculate_orientations_at in Hin. apply in_map_iff in Hin.
  destruct Hin as [[l0 r0] [Heq Hin0]]. simpl in Heq.
  destruct (in_idx l0 idx) eqn:E.
  - injection Heq as <- <-. simpl. repeat split.
  - injection Heq as <- <-. congruence.
Qed.

(** The call of [modify_orientation] that writes a gradient component and a
    dip on the frame of one orientation returns. *)
Example modify_orientation_sample :
  exists df', modify_orientation [0%Z] [("G_x"%string, [Num 0]); ("dip"%string, [Num 30])]
                                 sample = inr df'.
Proof. eexists. unfold modify_orientation, sample. simpl. reflexivity. Qed.

Lemma rad2deg_alt a : rad2deg a = a * 180 / PI.
Proof. unfold rad2deg. field. apply PI_neq0. Qed.

Lemma rad2deg_le a b : a <= b -> rad2deg a <= rad2deg b.
Proof.
  intros H. unfold rad2deg. apply Rmult_le_compat_r; [|assumption].
  pose proof PI_RGT_0. apply Rlt_le. apply Rdiv_lt_0_compat; lra.
Qed.

Lemma rad2deg_lt a b : a < b -> rad2deg a < rad2deg b.
Proof.
  intros H. unfold rad2deg. apply Rmult_lt_compat_r; [|assumption].
  pose proof PI_RGT_0. apply Rdiv_lt_0_compat; lra.
Qed.

Lemma rad2deg_PI : rad2deg PI = 180.
Proof. unfold rad2deg. field. apply PI_neq0. Qed.

Lemma rad2deg_0 : rad2deg 0 = 0.
Proof. unfold rad2deg. ring. Qed.

Lemma arccos_nan_to_num_bound z : 0 <= arccos_nan_to_num z <= PI.
Proof.
  pose proof PI_RGT_0. unfold arccos_nan_to_num.
  destruct z as [z|]; [|lra].
  destruct (Rle_dec (-1) z); [|lra]. destruct (Rle_dec z 1); [|lra].
  apply acos_bound.
Qed.

Lemma arctan2_nan_to_num_bound a b : - PI < arctan2_nan_to_num a b <= PI.
Proof.
  pose proof PI_RGT_0. unfold arctan2_nan_to_num.
  destruct a; [|lra]. destruct b; [|lra]. apply arctan2_bound.
Qed.

(** X6.  The cells [calculate_orientations] writes are in range whatever the
    gradient cells hold: the polarity is 1, the dip lies in [0, 180] and the
    azimuth in [0, 360], both ends included. *)
Theorem calculate_orientations_ranges (df : frame) l r :
  In (l, r) (calculate_orientations df) ->
  polarity r = Some 1
  /\ exists d az, dip r = Some d /\ azimuth r = Some az
                  /\ 0 <= d <= 180 /\ 0 <= az <= 360.
Proof.
  unfold calculate_orientations. intros H. apply in_map_iff in H.
  destruct H as [[l0 r0] [[= <- <-] _]].
  unfold calculate_orientations_row. cbn [polarity dip azimuth].
  split; [reflexivity|]. do 2 eexists. split; [reflexivity|]. split; [reflexivity|].
  pose proof (arccos_nan_to_num_bound (lift2 Rdiv (G_z r0) (Some 1))) as [Hd1 Hd2].
  pose proof (arctan2_nan_to_num_bound (lift2 Rdiv (G_x r0) (Some 1))
                                       (lift2 Rdiv (G_y r0) (Some 1))) as [Ha1 Ha2].
  apply rad2deg_le in Hd1, Hd2, Ha2. apply rad2deg_lt in Ha1.
  rewrite ?rad2deg_PI, ?rad2deg_0 in *.
  assert (Hneg : rad2deg (- PI) = -180) by (unfold rad2deg; field; apply PI_neq0).
  rewrite Hneg in Ha1.
  split; [lra|].
  destruct (Rlt_dec (rad2deg (arccos_nan_to_num _)) (1 / 1000)); [lra|].
  destruct (Rlt_dec (rad2deg (arctan2_nan_to_num _ _)) 0); lra.
Qed.

(** X7.  The vector [calculate_gradient] writes is, once the constant 1e-12 is
    taken off each component, of length the absolute polarity. *)
Theorem calculate_gradient_norm (df : frame) l r d az p :
  In (l, r) df ->
  dip r = Some d -> azimuth r = Some az -> polarity r = Some p ->
  exists r' gx gy gz,
    In (l, r') (calculate_gradient df)
    /\ G_x r' = Some gx /\ G_y r' = Some gy /\ G_z r' = Some gz
    /\ (gx - epsilon) ^ 2 + (gy - epsilon) ^ 2 + (gz - epsilon) ^ 2 = p ^ 2
    /\ dip r' = Some d /\ azimuth r' = Some az /\ polarity r' = Some p.
Proof.
  intros Hin Hd Ha Hp.
  exists (calculate_gradient_row r). do 3 eexists.
  split.
  { unfold calculate_gradient. apply in_map_iff. exists (l, r). auto. }
  unfold calculate_gradient_row. rewrite Hd, Ha, Hp. cbn.
  split; [reflexivity|]. split; [reflexivity|]. split; [reflexivity|].
  split; [|auto].
  pose proof (sin2_cos2 (deg2rad d)) as H1. pose proof (sin2_cos2 (deg2rad az)) as H2.
  unfold Rsqr in *.
  set (sd := sin (deg2rad d)) in *. set (cd := cos (deg2rad d)) in *.
  set (sa := sin (deg2rad az)) in *. set (ca := cos (deg2rad az)) in *.
  transitivity (p ^ 2 * (sd * sd * (sa * sa + ca * ca) + cd * cd)); [ring|].
  rewrite H2. replace (sd * sd * 1 + cd * cd) with (sd * sd + cd * cd) by ring.
  rewrite H1. ring.
Qed.

Lemma calculate_orientations_ranges_witness :
  exists l r,
    In (l, r) (calculate_orientations sample)
    /\ polarity r = Some 1
    /\ exists d az, dip r = Some d /\ azimuth r = Some az
                    /\ 0 <= d <= 180 /\ 0 <= az <= 360.
Proof.
  do 2 eexists. split; [left; reflexivity|].
  eapply (calculate_orientations_ranges sample). left. reflexivity.
Defined.

Lemma calculate_gradient_norm_witness :
  exists r' gx gy gz,
    In (0%Z, r') (calculate_gradient sample_dips)
    /\ G_x r' = Some gx /\ G_y r' = Some gy /\ G_z r' = Some gz
    /\ (gx - epsilon) ^ 2 + (gy - epsilon) ^ 2 + (gz - epsilon) ^ 2 = 1 ^ 2
    /\ dip r' = Some 30 /\ azimuth r' = Some 90 /\ polarity r' = Some 1.
Proof.
  eapply (calculate_gradient_norm sample_dips 0%Z _ 30 90 1);
    [left; reflexivity | reflexivity ..].
Defined.

Lemma atan_nonneg t : 0 <= t -> 0 <= atan t.
Proof.
  intros [H|<-]; [|rewrite atan_0; lra].
  rewrite <- atan_0. left. now apply atan_increasing.
Qed.

Lemma atan_neg t : t < 0 -> atan t < 0.
Proof. intros H. rewrite <- atan_0. now apply atan_increasing. Qed.

Lemma div_sign_pos a b : 0 <= a -> 0 < b -> 0 <= a / b.
Proof. intros. unfold Rdiv. assert (0 < / b) by now apply Rinv_0_lt_compat. nra. Qed.

Lemma div_sign_neg a b : a < 0 -> 0 < b -> a / b < 0.
Proof. intros. unfold Rdiv. assert (0 < / b) by now apply Rinv_0_lt_compat. nra. Qed.

Lemma div_sign_neg_neg a b : a < 0 -> b < 0 -> 0 < a / b.
Proof. intros. unfold Rdiv. assert (/ b < 0) by now apply Rinv_lt_0_compat. nra. Qed.

Lemma div_sign_pos_neg a b : 0 <= a -> b < 0 -> a / b <= 0.
Proof. intros. unfold Rdiv. assert (/ b < 0) by now apply Rinv_lt_0_compat. nra. Qed.

Lemma rad2deg_plus a b : rad2deg (a + b) = rad2deg a + rad2deg b.
Proof. unfold rad2deg. ring. Qed.

Lemma rad2deg_sign_neg a : a < 0 -> rad2deg a < 0.
Proof. intros H. rewrite <- rad2deg_0. now apply rad2deg_lt. Qed.

Lemma rad2deg_sign_nonneg a : 0 <= a -> 0 <= rad2deg a.
Proof. intros H. rewrite <- rad2deg_0. now apply rad2deg_le. Qed.

Lemma rad2deg_half : rad2deg (PI / 2) = 90.
Proof. unfold rad2deg. field. apply PI_neq0. Qed.

Lemma azimuth_of_bounds gx gy : 0 <= azimuth_of gx gy < 360.
Proof.
  unfold azimuth_of. pose proof (arctan2_bound gx gy) as [H1 H2].
  apply rad2deg_lt in H1. apply rad2deg_le in H2.
  rewrite rad2deg_PI in H2.
  assert (Hneg : rad2deg (- PI) = -180) by (unfold rad2deg; field; apply PI_neq0).
  rewrite Hneg in H1.
  destruct (Rlt_dec (rad2deg (arctan2 gx gy)) 0); lra.
Qed.

Lemma acos_lt_half z : -1 <= z <= 1 -> (acos z < PI / 2 <-> 0 < z).
Proof.
  intros Hz. pose proof (acos_bound z) as [Hb1 Hb2]. pose proof PI_RGT_0.
  rewrite <- (cos_acos z Hz) at 2. split.
  - intros H1. apply cos_gt_0; lra.
  - intros H1. destruct (Rlt_dec (acos z) (PI / 2)); [assumption|].
    assert (cos (acos z) <= 0) by (apply cos_le_0; lra). lra.
Qed.

(** X8.  [get_orientation] never raises on real components, although its
    chain of tests ends in [raise ValueError]: the tests cover every pair of
    signs of the first two components.  Its dip direction is the azimuth
    [calculate_orientations] computes from (G_x, G_y) and lies in [0, 360],
    both ends included.  The polarity is 1 or -1.  On a third component
    within [-1, 1] the dip is its arccosine in degrees, it lies in
    [0, 180], and the polarity is 1 exactly when the dip is below 90: the
    test [-90 < dip] never decides; a polarity of 1 is only given to a
    positive third component.  Outside [-1, 1] the dip is NaN and the
    polarity -1. *)
Theorem get_orientation_total n0 n1 n2 :
  exists dip dir pol,
    get_orientation (n0, n1, n2) = inr (dip, dir, pol)
    /\ dir = azimuth_of n0 n1
    /\ 0 <= dir <= 360
    /\ (pol = 1 \/ pol = -1)
    /\ (pol = 1 -> 0 < n2 <= 1)
    /\ (-1 <= n2 <= 1 ->
        exists d, dip = Some d /\ d = rad2deg (acos n2)
                  /\ 0 <= d <= 180 /\ (pol = 1 <-> d < 90))
    /\ (~ -1 <= n2 <= 1 -> dip = None /\ pol = -1).
Proof.
  pose proof PI_RGT_0 as HPI.
  unfold get_orientation.
  match goal with
  | |- context [bind ?m _] =>
      assert (Hdir : exists dir, m = inr dir /\ dir = azimuth_of n0 n1)
  end.
  { assert (Hd : forall a, a / PI * 180 = rad2deg a)
      by (intros a; unfold rad2deg; field; lra).
    pose proof (atan_bound (n0 / n1)) as [Hb1 Hb2].
    unfold azimuth_of, arctan2, Rleb, Rltb, Reqb.
    destruct (Rlt_dec 0 n1) as [Hp|Hnp].
    - destruct (Rle_dec 0 n0) as [H0|H0]; cbn [andb].
      + eexists. split; [reflexivity|]. rewrite Hd.
        pose proof (rad2deg_sign_nonneg _ (atan_nonneg _ (div_sign_pos _ _ H0 Hp))).
        destruct (Rlt_dec (rad2deg (atan (n0 / n1))) 0); lra.
      + destruct (Rlt_dec 0 n0); [lra|]. cbn [andb].
        destruct (Rlt_dec n0 0); [|lra].
        destruct (Req_dec_T n1 0); [lra|]. cbn [andb].
        destruct (Rlt_dec n1 0); [lra|].
        destruct (Rle_dec 0 n1); [|lra]. cbn [andb].
        eexists. split; [reflexivity|]. rewrite Hd.
        assert (n0 < 0) by lra.
        pose proof (rad2deg_sign_neg _ (atan_neg _ (div_sign_neg _ _ H Hp))).
        destruct (Rlt_dec (rad2deg (atan (n0 / n1))) 0); lra.
    - destruct (Rle_dec 0 n0) as [H0|H0]; cbn [andb].
      + destruct (Rlt_dec 0 n0) as [H0p|H0p]; cbn [andb].
        * destruct (Req_dec_T n1 0) as [E|E]; cbn [andb].
          -- eexists. split; [reflexivity|].
             destruct (Rlt_dec n1 0); [lra|]. rewrite rad2deg_half.
             destruct (Rlt_dec 90 0); lra.
          -- destruct (Rlt_dec n0 0); [lra|]. cbn [andb].
             destruct (Rlt_dec n1 0) as [Hn|Hn]; [|lra].
             eexists. split; [reflexivity|]. rewrite Hd.
             rewrite rad2deg_plus, rad2deg_PI.
             pose proof (atan_bound (n0 / n1)).
             assert (- PI / 2 < atan (n0 / n1)) by lra.
             assert (rad2deg (- PI / 2) < rad2deg (atan (n0 / n1))) by now apply rad2deg_lt.
             assert (rad2deg (- PI / 2) = -90) by (unfold rad2deg; field; lra).
             destruct (Rlt_dec (rad2deg (atan (n0 / n1)) + 180) 0); lra.
        * assert (n0 = 0) by lra. subst n0.
          destruct (Rlt_dec 0 0); [lra|]. cbn [andb].
          destruct (Rlt_dec n1 0) as [Hn|Hn].
          -- eexists. split; [reflexivity|]. rewrite Hd.
             unfold Rdiv. rewrite Rmult_0_l, atan_0, Rplus_0_l, rad2deg_PI, rad2deg_0.
             destruct (Rlt_dec 180 0); lra.
          -- destruct (Rle_dec 0 n1); cbn [andb].
             ++ destruct (Req_dec_T 0 0); [|lra]. destruct (Req_dec_T n1 0); [|lra]. cbn [andb].
                eexists. split; [reflexivity|]. rewrite rad2deg_0.
                destruct (Rlt_dec 0 0); lra.
             ++ lra.
      + assert (Hn0 : n0 < 0) by lra.
        destruct (Rlt_dec 0 n0); [lra|]. cbn [andb].
        destruct (Rlt_dec n0 0); [|lra].
        destruct (Req_dec_T n1 0) as [E|E]; cbn [andb].
        * eexists. split; [reflexivity|].
          destruct (Rlt_dec n1 0); [lra|].
          replace (rad2deg (- (PI / 2))) with (-90) by (unfold rad2deg; field; lra).
          destruct (Rlt_dec (-90) 0); lra.
        * destruct (Rlt_dec n1 0) as [Hn|Hn]; [|lra].
          eexists. split; [reflexivity|]. rewrite Hd.
          destruct (Rle_dec 0 n0); [lra|].
          unfold Rminus. rewrite rad2deg_plus.
          replace (rad2deg (- PI)) with (-180) by (unfold rad2deg; field; lra).
          pose proof (atan_bound (n0 / n1)).
          assert (atan (n0 / n1) < PI / 2) by lra.
          assert (rad2deg (atan (n0 / n1)) < rad2deg (PI / 2)) by now apply rad2deg_lt.
          rewrite rad2deg_half in *.
          destruct (Rlt_dec (rad2deg (atan (n0 / n1)) + -180) 0); lra. }
  destruct Hdir as (dir & Hrun & Hdir).
  rewrite Hrun. cbn [bind].
  do 3 eexists. split; [reflexivity|]. split; [exact Hdir|].
  split; [rewrite Hdir; pose proof (azimuth_of_bounds n0 n1); lra|].
  assert (Hd : forall a, a / PI * 180 = rad2deg a)
    by (intros a; unfold rad2deg; field; lra).
  unfold Rleb, Rltb.
  destruct (Rle_dec (-1) n2) as [H1|H1]; cbn [andb];
    [destruct (Rle_dec n2 1) as [H2|H2]|]; cbn [andb].
  - rewrite Hd. pose proof (acos_bound n2) as [Hb1 Hb2].
    pose proof (rad2deg_le _ _ Hb1) as Hr. rewrite rad2deg_0 in Hr.
    pose proof (rad2deg_le _ _ Hb2) as Hr'. rewrite rad2deg_PI in Hr'.
    destruct (Rlt_dec (-90) (rad2deg (acos n2))); [|lra]. cbn [andb].
    pose proof (acos_lt_half n2 (conj H1 H2)) as Hhalf.
    destruct (Rlt_dec (rad2deg (acos n2)) 90) as [Hlt|Hlt].
    + assert (Hpos : 0 < n2).
      { apply Hhalf. destruct (Rlt_dec (acos n2) (PI / 2)); [assumption|].
        assert (rad2deg (PI / 2) <= rad2deg (acos n2)) by (apply rad2deg_le; lra).
        rewrite rad2deg_half in *. lra. }
      split; [now left|]. split; [intros _; lra|]. split; [|intros; lra].
      intros _. eexists. split; [reflexivity|]. split; [reflexivity|].
      split; [lra|]. split; [intros _; assumption | reflexivity].
    + split; [now right|]. split; [intros; lra|]. split; [|intros; lra].
      intros _. eexists. split; [reflexivity|]. split; [reflexivity|].
      split; [lra|]. split; [intros; lra | intros; lra].
  - split; [now right|]. split; [intros; lra|]. split; [intros; lra|].
    intros _. split; reflexivity.
  - split; [now right|]. split; [intros; lra|]. split; [intros; lra|].
    intros _. split; reflexivity.
Qed.

Lemma orientation_in_idx_In i idx : in_idx i idx = true <-> In i idx.
Proof.
  unfold in_idx. rewrite existsb_exists. split.
  - intros (x & Hx & E). apply Z.eqb_eq in E. now subst.
  - intros H. exists i. split; [assumption | apply Z.eqb_refl].
Qed.

(** X9.  [modify_orientation] raises the assertion error on the indices as soon
    as one label of the table is not among [idx]: the test asks the whole
    index of the table to be in [idx], so one orientation of a table of
    several cannot be modified. *)
Theorem modify_orientation_needs_every_label idx kwargs (df : frame) l r :
  In (l, r) df -> ~ In l idx ->
  modify_orientation idx kwargs df = inl (AssertionError indices_must_exist).
Proof.
  intros Hin Hl. unfold modify_orientation.
  destruct (forallb (fun lr => in_idx (fst lr) idx) df) eqn:E; [|reflexivity].
  rewrite forallb_forall in E. specialize (E _ Hin). simpl in E.
  apply orientation_in_idx_In in E. contradiction.
Qed.

Lemma modify_orientation_needs_every_label_witness :
  modify_orientation [0%Z] [("dip"%string, [Num 10])] sample_dips
  = inl (AssertionError indices_must_exist).
Proof.
  apply (modify_orientation_needs_every_label [0%Z] _ sample_dips 1%Z
           (snd (nth 1 sample_dips (0%Z, empty_row)))).
  - right. left. reflexivity.
  - intros [H|[]]. discriminate.
Defined.

End OrientationFacts.

(** ** Interfaces *)

Module InterfacesFacts.
Import Interfaces.
Local Open Scope R_scope.

Lemma in_idx_In i idx : in_idx i idx = true <-> In i idx.
Proof.
  unfold in_idx. rewrite existsb_exists. split.
  - intros (x & Hx & E). apply Z.eqb_eq in E. now subst.
  - intros H. exists i. split; [assumption | apply Z.eqb_refl].
Qed.

Lemma not_every_label (df : frame) idx l r :
  In (l, r) df -> ~ In l idx ->
  forallb (fun lr => in_idx (fst lr) idx) df = false.
Proof.
  intros Hin Hl. destruct (forallb _ df) eqn:E; [|reflexivity].
  rewrite forallb_forall in E. specialize (E _ Hin). simpl in E.
  apply in_idx_In in E. contradiction.
Qed.

Section LocFacts.
Variable loc_setitem :
  list label -> list string -> list (list Orientations.cell) -> frame -> result frame.

(** X10.  On a table with no point, [add_interface] without [idx] raises
    [TypeError] whatever the point is: the label [0] the code falls back to
    is never reached, and nothing is written. *)
Theorem add_interface_empty_table x y z surf df :
  last_valid_index df = None ->
  add_interface loc_setitem x y z surf None df = inl TypeError.
Proof. intros H. unfold add_interface. now rewrite H. Qed.

(** X11.  [modify_interface] raises the assertion error on the indices as soon as
    one label of the table is not among [idx]: the test asks the whole index
    of the table to be in [idx], not [idx] to be in the index, so one point
    of a table of several cannot be modified. *)
Theorem modify_interface_needs_every_label idx kwargs df l r :
  In (l, r) df -> ~ In l idx ->
  modify_interface loc_setitem idx kwargs df
  = inl (AssertionError Orientations.indices_must_exist).
Proof.
  intros Hin Hl. unfold modify_interface.
  now rewrite (not_every_label df idx l r Hin Hl).
Qed.

End LocFacts.

Lemma add_interface_empty_table_witness :
  add_interface (fun _ _ _ df => inr df) 1 2 3 "a"%string None [] = inl TypeError.
Proof. apply (add_interface_empty_table (fun _ _ _ df => inr df) 1 2 3 "a"%string []). reflexivity. Defined.

Lemma modify_interface_needs_every_label_witness :
  modify_interface (fun _ _ _ df => inr df) [0%Z] [("X"%string, [Orientations.Num 5])] sample
  = inl (AssertionError Orientations.indices_must_exist).
Proof.
  apply (modify_interface_needs_every_label (fun _ _ _ df => inr df) [0%Z] _ sample 1%Z
           (snd (nth 1 sample (0%Z, mkrow None None None None)))).
  - right. left. reflexivity.
  - intros [H|[]]. discriminate.
Defined.

End InterfacesFacts.

(** ** Kriging defaults *)

Module KrigingFacts.
Import AdditionalData.
Local Open Scope R_scope.

Lemma n_universal_eq_default len_series_i :
  set_u_grade None len_series_i
  = inr (map (fun n => if Nat.ltb 1 n then 3%nat else 0%nat) len_series_i).
Proof.
  unfold set_u_grade, default_u_grade.
  rewrite length_map, Nat.eqb_refl, map_map. f_equal.
  apply map_ext. intros n. destruct (Nat.ltb 1 n); reflexivity.
Qed.

(** C5.  For the extent [xmin, xmax, ymin, ymax, zmin, zmax] the default
    range is the length of the diagonal of the extent, the default
    covariance at the origin is the range squared divided by 14 and by 3
    (the squared diagonal over 42), the default drift degree of a series is
    1 when the series has more than one interface point and 0 otherwise,
    which gives 3 and 0 drift equations, and the degrees 0, 1, 2 stand for
    0, 3, 9 equations. *)
Theorem default_kriging_parameters xmin xmax ymin ymax zmin zmax len_series_i :
  exists k,
    default_kriging [xmin; xmax; ymin; ymax; zmin; zmax] len_series_i = inr k
    /\ range_var k
       = sqrt ((xmax - xmin) ^ 2 + (ymax - ymin) ^ 2 + (zmax - zmin) ^ 2)
    /\ 0 <= range_var k
    /\ c_o k = range_var k ^ 2 / 14 / 3
    /\ c_o k = ((xmax - xmin) ^ 2 + (ymax - ymin) ^ 2 + (zmax - zmin) ^ 2) / 42
    /\ default_u_grade len_series_i
       = map (fun n => if Nat.ltb 1 n then 1%Z else 0%Z) len_series_i
    /\ n_universal_eq k = map equations_of_grade (default_u_grade len_series_i)
    /\ n_universal_eq k
       = map (fun n => if Nat.ltb 1 n then 3%nat else 0%nat) len_series_i
    /\ equations_of_grade 0 = 0%nat
    /\ equations_of_grade 1 = 3%nat
    /\ equations_of_grade 2 = 9%nat.
Proof.
  unfold default_kriging, default_range.
  rewrite n_universal_eq_default. cbn [bind].
  eexists. split; [reflexivity|]. cbn [range_var c_o n_universal_eq].
  assert (Hsq : (xmin - xmax) ^ 2 + (ymin - ymax) ^ 2 + (zmin - zmax) ^ 2
                = (xmax - xmin) ^ 2 + (ymax - ymin) ^ 2 + (zmax - zmin) ^ 2) by ring.
  assert (Hpos : 0 <= (xmax - xmin) ^ 2 + (ymax - ymin) ^ 2 + (zmax - zmin) ^ 2).
  { pose proof (pow2_ge_0 (xmax - xmin)). pose proof (pow2_ge_0 (ymax - ymin)).
    pose proof (pow2_ge_0 (zmax - zmin)). lra. }
  rewrite Hsq.
  split; [reflexivity|].
  split; [apply sqrt_pos|].
  split; [reflexivity|].
  split.
  { unfold default_c_o. rewrite <- Rsqr_pow2, Rsqr_sqrt by exact Hpos. field. }
  split; [reflexivity|].
  split.
  { unfold default_u_grade. rewrite map_map. apply map_ext.
    intros n. destruct (Nat.ltb 1 n); reflexivity. }
  repeat split.
Qed.

End KrigingFacts.

(** ** The structure counts *)

Module StructureFacts.
Import Structure.
Local Open Scope nat_scope.

Lemma incr_sum k acc : sum_nat (map snd (incr k acc)) = S (sum_nat (map snd acc)).
Proof.
  induction acc as [|[k' n] acc IH]; simpl; [reflexivity|].
  destruct (Z.eqb k k'); simpl; [reflexivity|]. rewrite IH. lia.
Qed.

Lemma value_counts_sum_from column : forall acc,
  sum_nat (map snd (fold_left (fun acc v => match v with Some k => incr k acc | None => acc end)
                              column acc))
  = sum_nat (map snd acc) + populated column.
Proof.
  unfold populated.
  induction column as [|[k|] column IH]; intros acc; simpl.
  - lia.
  - rewrite IH, incr_sum. lia.
  - rewrite IH. lia.
Qed.

Lemma value_counts_sum column :
  sum_nat (map snd (value_counts column)) = populated column.
Proof. unfold value_counts. now rewrite value_counts_sum_from. Qed.

Lemma populated_all {A} (f : A -> option Z) l :
  (forall r, In r l -> f r <> None) -> populated (map f l) = List.length l.
Proof.
  unfold populated. induction l as [|r l IH]; intros H; simpl; [reflexivity|].
  destruct (f r) eqn:E.
  - simpl. rewrite IH; [reflexivity|]. intros; apply H; now right.
  - exfalso. apply (H r); [now left | assumption].
Qed.

Lemma cumsum_from_ge l : forall acc, Forall (fun x => acc <= x) (cumsum_from acc l).
Proof.
  induction l as [|x l IH]; intros acc; simpl; constructor; [lia|].
  eapply Forall_impl; [|apply IH]. simpl. intros; lia.
Qed.

Lemma cumsum_from_sorted l : forall acc, Sorted le (cumsum_from acc l).
Proof.
  induction l as [|x l IH]; intros acc; simpl; constructor; [apply IH|].
  pose proof (cumsum_from_ge l (acc + x)) as H.
  destruct (cumsum_from (acc + x) l); constructor. now inversion H.
Qed.

Lemma cumsum_from_last l : forall acc, last (cumsum_from acc l) acc = acc + sum_nat l.
Proof.
  induction l as [|x l IH]; intros acc; simpl; [lia|].
  destruct (cumsum_from (acc + x) l) eqn:E.
  - destruct l; simpl in *; [lia|discriminate].
  - rewrite <- E. 
    assert (H : forall d, last (cumsum_from (acc + x) l) d = last (cumsum_from (acc + x) l) (acc + x)).
    { intros d. rewrite E. clear. revert n. induction l0; intros; simpl; [reflexivity|]. apply IHl0. }
    rewrite H, IH. lia.
Qed.

(* group keys *)
Lemma insert_key_In k keys x : In x (insert_key k keys) <-> x = k \/ In x keys.
Proof.
  induction keys as [|y keys IH]; simpl.
  - intuition.
  - destruct (Z.ltb_spec k y); simpl; [intuition|].
    destruct (Z.eqb_spec k y); simpl.
    + subst. intuition.
    + rewrite IH. intuition.
Qed.

Lemma insert_key_sorted k keys :
  StronglySorted Z.lt keys -> StronglySorted Z.lt (insert_key k keys).
Proof.
  induction keys as [|y keys IH]; intros H; simpl.
  - repeat constructor.
  - inversion H as [|? ? Hs Hall]; subst.
    destruct (Z.ltb_spec k y).
    + constructor; [assumption|]. constructor; [assumption|].
      eapply Forall_impl; [|exact Hall]. simpl; intros; lia.
    + destruct (Z.eqb_spec k y); [assumption|].
      constructor; [apply IH; assumption|].
      rewrite Forall_forall. intros x Hx. apply insert_key_In in Hx.
      destruct Hx as [->|Hx]; [lia|]. rewrite Forall_forall in Hall. auto.
Qed.

Lemma group_keys_spec column :
  StronglySorted Z.lt (group_keys column)
  /\ forall k, In k (group_keys column) <-> In (Some k) column.
Proof.
  unfold group_keys.
  assert (H : forall acc, StronglySorted Z.lt acc ->
    StronglySorted Z.lt (fold_left (fun acc v => match v with Some k => insert_key k acc | None => acc end) column acc)
    /\ forall k, In k (fold_left (fun acc v => match v with Some k => insert_key k acc | None => acc end) column acc)
                 <-> In k acc \/ In (Some k) column).
  { induction column as [|[x|] column IH]; intros acc Hacc; simpl.
    - split; [assumption|]. intuition.
    - destruct (IH (insert_key x acc) (insert_key_sorted _ _ Hacc)) as [H1 H2].
      split; [assumption|]. intros k. rewrite H2, insert_key_In.
      split; [intros [[->|?]|?]; auto | intros [?|[[= ->]|?]]; auto].
    - destruct (IH acc Hacc) as [H1 H2]. split; [assumption|].
      intros k. rewrite H2. split; [intros [?|?]; auto | intros [?|[?|?]]; auto; discriminate]. }
  destruct (H [] (SSorted_nil _)) as [H1 H2]. split; [assumption|].
  intros k. rewrite H2. simpl. intuition.
Qed.

Lemma sorted_lt_NoDup l : StronglySorted Z.lt l -> NoDup l.
Proof.
  induction 1 as [|x l Hs IH Hall]; constructor; [|assumption].
  intros Hin. rewrite Forall_forall in Hall. specialize (Hall _ Hin). lia.
Qed.

Section Counting.
Context {A : Type} (dec : forall x y : A, {x = y} + {x <> y}).

Lemma nodup_partition (p : A -> bool) l :
  List.length (nodup dec l)
  = List.length (nodup dec (filter p l))
    + List.length (nodup dec (filter (fun x => negb (p x)) l)).
Proof.
  induction l as [|x l IH]; simpl; [reflexivity|].
  destruct (p x) eqn:E; simpl.
  - destruct (in_dec dec x l) as [Hin|Hnin];
      destruct (in_dec dec x (filter p l)) as [Hin'|Hnin']; simpl; try lia.
    + exfalso. apply Hnin'. apply filter_In. auto.
    + exfalso. apply Hnin. apply filter_In in Hin'. tauto.
  - destruct (in_dec dec x l) as [Hin|Hnin];
      destruct (in_dec dec x (filter (fun x => negb (p x)) l)) as [Hin'|Hnin']; simpl; try lia.
    + exfalso. apply Hnin'. apply filter_In. rewrite E. auto.
    + exfalso. apply Hnin. apply filter_In in Hin'. tauto.
Qed.

Context {B : Type} (decB : forall x y : B, {x = y} + {x <> y}).

Lemma nodup_map_injective (f : A -> B) l :
  (forall x y, In x l -> In y l -> f x = f y -> x = y) ->
  List.length (nodup decB (map f l)) = List.length (nodup dec l).
Proof.
  induction l as [|x l IH]; intros Hinj; simpl; [reflexivity|].
  assert (IH' : List.length (nodup decB (map f l)) = List.length (nodup dec l)).
  { apply IH. intros; apply Hinj; simpl; auto. }
  destruct (in_dec decB (f x) (map f l)) as [Hin|Hnin];
    destruct (in_dec dec x l) as [Hin'|Hnin']; simpl; try lia.
  - exfalso. apply in_map_iff in Hin. destruct Hin as [y [Hy Hyl]].
    apply Hnin'. rewrite (Hinj x y); simpl; auto.
  - exfalso. apply Hnin. now apply in_map.
Qed.

End Counting.

Lemma pairs_of_group k rows :
  map snd (filter (key_is k) (series_surface_pairs rows))
  = map surface (filter (in_group k) rows).
Proof.
  unfold series_surface_pairs, in_group, key_is.
  induction rows as [|r rows IH]; simpl; [reflexivity|].
  destruct (order_series r) as [k'|]; simpl; [|exact IH].
  destruct (Z.eqb k' k); simpl; now rewrite IH.
Qed.

Lemma nunique_group k rows :
  nunique (map surface (filter (in_group k) rows))
  = List.length (nodup pair_dec (filter (key_is k) (series_surface_pairs rows))).
Proof.
  rewrite <- pairs_of_group. unfold nunique.
  apply nodup_map_injective.
  intros [k1 s1] [k2 s2] H1 H2 Heq. simpl in Heq. subst s2.
  apply filter_In in H1, H2. unfold key_is in *. simpl in *.
  destruct H1 as [_ H1], H2 as [_ H2].
  apply Z.eqb_eq in H1, H2. congruence.
Qed.

Lemma filter_filter_key k k' (P : list (Z * string)) :
  k' <> k ->
  filter (key_is k') (filter (fun p => negb (key_is k p)) P) = filter (key_is k') P.
Proof.
  intros Hne. induction P as [|[a s] P IH]; simpl; [reflexivity|].
  unfold key_is in *. simpl.
  destruct (Z.eqb_spec a k); simpl.
  - subst. destruct (Z.eqb_spec k k'); [congruence|]. exact IH.
  - rewrite IH. reflexivity.
Qed.

Lemma count_by_key keys : forall P : list (Z * string),
  NoDup keys ->
  (forall p, In p P -> In (fst p) keys) ->
  List.length (nodup pair_dec P)
  = sum_nat (map (fun k => List.length (nodup pair_dec (filter (key_is k) P))) keys).
Proof.
  induction keys as [|k keys IH]; intros P Hnd Hcov; simpl.
  - destruct P as [|p P]; [reflexivity|]. exfalso. apply (Hcov p). now left.
  - inversion Hnd as [|? ? Hnin Hnd']; subst.
    rewrite (nodup_partition pair_dec (key_is k) P). f_equal.
    rewrite (IH (filter (fun p => negb (key_is k p)) P) Hnd').
    + f_equal. apply map_ext_in. intros k' Hk'.
      rewrite filter_filter_key; [reflexivity|]. intros ->. contradiction.
    + intros p Hp. apply filter_In in Hp. destruct Hp as [Hp Hk].
      destruct (Hcov p Hp) as [Heq|Hin]; [|assumption].
      unfold key_is in Hk. rewrite <- Heq, Z.eqb_refl in Hk. discriminate.
Qed.

Lemma pairs_keys rows p :
  In p (series_surface_pairs rows) -> In (Some (fst p)) (map order_series rows).
Proof.
  unfold series_surface_pairs. intros H. apply in_flat_map in H.
  destruct H as [r [Hr Hp]]. apply in_map_iff. exists r. split; [|assumption].
  destruct (order_series r); simpl in Hp; [|contradiction].
  destruct Hp as [<-|[]]. reflexivity.
Qed.

Lemma nfs_last rows :
  last (set_number_of_formations_per_series rows) 0 = distinct_series_surface_pairs rows.
Proof.
  unfold set_number_of_formations_per_series, cumsum, distinct_series_surface_pairs.
  rewrite cumsum_from_last. simpl.
  destruct (group_keys_spec (map order_series rows)) as [Hs Hin].
  rewrite (count_by_key (group_keys (map order_series rows))).
  - f_equal. apply map_ext. intros k. apply nunique_group.
  - apply sorted_lt_NoDup, Hs.
  - intros p Hp. apply Hin. now apply pairs_keys.
Qed.

Lemma pairs_surfaces rows :
  (forall r, In r rows -> order_series r <> None) ->
  map snd (series_surface_pairs rows) = map surface rows.
Proof.
  unfold series_surface_pairs.
  induction rows as [|r rows IH]; intros H; simpl; [reflexivity|].
  destruct (order_series r) eqn:E; [|exfalso; apply (H r); simpl; auto].
  simpl. rewrite IH; [reflexivity|]. intros; apply H; now right.
Qed.

Lemma pairs_In rows k s :
  In (k, s) (series_surface_pairs rows) ->
  exists r, In r rows /\ order_series r = Some k /\ surface r = s.
Proof.
  unfold series_surface_pairs. intros H. apply in_flat_map in H.
  destruct H as [r [Hr Hp]]. exists r. split; [assumption|].
  destruct (order_series r); simpl in Hp; [|contradiction].
  destruct Hp as [[= <- <-]|[]]. auto.
Qed.

Lemma nfs_last_single_series rows :
  (forall r, In r rows -> order_series r <> None) ->
  (forall r1 r2, In r1 rows -> In r2 rows -> surface r1 = surface r2 ->
                 order_series r1 = order_series r2) ->
  last (set_number_of_formations_per_series rows) 0 = distinct_surfaces rows.
Proof.
  intros Hpop Hfun. rewrite nfs_last.
  unfold distinct_series_surface_pairs, distinct_surfaces, nunique.
  rewrite <- (pairs_surfaces rows Hpop). symmetry.
  apply nodup_map_injective.
  intros [k1 s1] [k2 s2] H1 H2 Heq. simpl in Heq. subst s2.
  apply pairs_In in H1, H2.
  destruct H1 as (r1 & Hr1 & Ho1 & Hs1), H2 as (r2 & Hr2 & Ho2 & Hs2).
  assert (order_series r1 = order_series r2) by (apply Hfun; congruence).
  congruence.
Qed.

Lemma len_series_i_sum rows :
  sum_nat (set_length_series_i rows) = populated (map order_series rows).
Proof.
  unfold set_length_series_i. rewrite <- value_counts_sum.
  destruct (map snd (value_counts (map order_series rows))); reflexivity.
Qed.

Lemma nodup_map_le {A B : Type} (decA : forall x y : A, {x = y} + {x <> y})
    (decB : forall x y : B, {x = y} + {x <> y}) (f : A -> B) l :
  List.length (nodup decB (map f l)) <= List.length (nodup decA l).
Proof.
  induction l as [|x l IH]; simpl; [lia|].
  destruct (in_dec decA x l) as [Hin|Hin].
  - destruct (in_dec decB (f x) (map f l)) as [_|Hn]; [exact IH|].
    exfalso. apply Hn. now apply in_map.
  - destruct (in_dec decB (f x) (map f l)); simpl; lia.
Qed.

Lemma surfaces_le_pairs rows :
  (forall r, In r rows -> order_series r <> None) ->
  distinct_surfaces rows <= distinct_series_surface_pairs rows.
Proof.
  intros H. unfold distinct_surfaces, distinct_series_surface_pairs, nunique.
  rewrite <- (pairs_surfaces rows H). apply nodup_map_le.
Qed.




Lemma cumsum_from_length l : forall acc, List.length (cumsum_from acc l) = List.length l.
Proof. induction l as [|x l IH]; intros acc; simpl; [reflexivity|]. now rewrite IH. Qed.

Lemma cumsum_from_nth l : forall acc k,
  k < List.length l ->
  nth k (cumsum_from acc l) 0 = acc + sum_nat (firstn (S k) l).
Proof.
  induction l as [|x l IH]; intros acc k Hk; simpl in *; [lia|].
  destruct k as [|k]; simpl.
  - destruct l; simpl; lia.
  - rewrite IH by lia. simpl. lia.
Qed.

Lemma firstn_removelast {A} (l : list A) k :
  k < List.length l -> firstn k (removelast l) = firstn k l.
Proof.
  revert k. induction l as [|x l IH]; intros k Hk; simpl in *; [lia|].
  destruct l as [|y l]; [simpl in Hk; replace k with 0 by lia; reflexivity|].
  destruct k as [|k]; [reflexivity|]. simpl in *. f_equal. apply IH. lia.
Qed.

Lemma removelast_length {A} (l : list A) :
  List.length (removelast l) = List.length l - 1.
Proof.
  induction l as [|x l IH]; [reflexivity|].
  destruct l as [|y l]; [reflexivity|]. simpl in *. rewrite IH. lia.
Qed.

Lemma sum_firstn_le l k : sum_nat (firstn k l) <= sum_nat l.
Proof.
  revert k. induction l as [|x l IH]; intros [|k]; simpl; try lia.
  specialize (IH k). lia.
Qed.

Lemma sum_firstn_S l k :
  k < List.length l -> sum_nat (firstn (S k) l) = sum_nat (firstn k l) + nth k l 0.
Proof.
  revert k. induction l as [|x l IH]; intros k Hk; simpl in *; [lia|].
  destruct k as [|k]; simpl; [lia|]. rewrite <- Nat.add_assoc, <- IH by lia. reflexivity.
Qed.

(** X12.  [ref_position] has one entry per formation (and the single entry 0 when
    there is none); the entry of a formation is the number of points of the
    formations before it, and its block of points ends within the table. *)
Theorem ref_position_blocks interfaces k :
  let lf := set_length_formations_i interfaces in
  let rp := set_ref_position lf in
  k < List.length lf ->
  List.length rp = List.length lf
  /\ nth k rp 0 = sum_nat (firstn k lf)
  /\ nth k rp 0 + nth k lf 0 <= List.length interfaces.
Proof.
  intros lf rp Hk. unfold rp, set_ref_position, cumsum.
  cbn [cumsum_from]. rewrite Nat.add_0_l.
  split; [|split].
  - simpl. rewrite cumsum_from_length, removelast_length. lia.
  - destruct k as [|k]; [reflexivity|].
    cbn [nth]. rewrite cumsum_from_nth by (rewrite removelast_length; lia).
    rewrite firstn_removelast by lia. reflexivity.
  - assert (E : nth k (0 :: cumsum_from 0 (removelast lf)) 0 = sum_nat (firstn k lf)).
    { destruct k as [|k]; [reflexivity|].
      cbn [nth]. rewrite cumsum_from_nth by (rewrite removelast_length; lia).
      rewrite firstn_removelast by lia. reflexivity. }
    rewrite E, <- sum_firstn_S by assumption.
    eapply Nat.le_trans; [apply sum_firstn_le|].
    unfold lf, set_length_formations_i. rewrite value_counts_sum.
    unfold populated. rewrite <- (length_map id interfaces). apply filter_length_le.
Qed.

Lemma ref_position_blocks_witness :
  let lf := set_length_formations_i sample in
  let rp := set_ref_position lf in
  List.length rp = List.length lf
  /\ nth 1 rp 0 = sum_nat (firstn 1 lf)
  /\ nth 1 rp 0 + nth 1 lf 0 <= List.length sample.
Proof. apply (ref_position_blocks sample 1). vm_compute. lia. Defined.

Lemma incr_get k k' acc :
  get k' (incr k acc) = (if Z.eqb k k' then S (get k' acc) else get k' acc).
Proof.
  unfold get. induction acc as [|[a n] acc IH]; simpl.
  - destruct (Z.eqb_spec k k'); reflexivity.
  - destruct (Z.eqb_spec k a) as [->|Hne]; simpl.
    + destruct (Z.eqb_spec a k'); reflexivity.
    + destruct (Z.eqb_spec a k') as [->|Hne'].
      * destruct (Z.eqb_spec k k'); [contradiction|reflexivity].
      * exact IH.
Qed.

Lemma incr_keys k acc x : In x (map fst (incr k acc)) <-> x = k \/ In x (map fst acc).
Proof.
  induction acc as [|[a n] acc IH]; simpl; [intuition|].
  destruct (Z.eqb_spec k a) as [->|Hne]; simpl; [intuition|].
  rewrite IH. intuition.
Qed.

Lemma incr_NoDup k acc : NoDup (map fst acc) -> NoDup (map fst (incr k acc)).
Proof.
  induction acc as [|[a n] acc IH]; simpl; intros H.
  - repeat constructor. intros [].
  - inversion H as [|? ? Hn Hnd]; subst.
    destruct (Z.eqb_spec k a) as [->|Hne]; simpl; [constructor; assumption|].
    constructor; [|auto]. rewrite incr_keys. intros [E|E]; [congruence|contradiction].
Qed.

Lemma incr_pos k acc :
  Forall (fun p => 1 <= snd p) acc -> Forall (fun p => 1 <= snd p) (incr k acc).
Proof.
  induction acc as [|[a n] acc IH]; simpl; intros H.
  - repeat constructor.
  - inversion H; subst. destruct (Z.eqb k a); constructor; simpl in *; auto; lia.
Qed.

Lemma value_counts_from column : forall acc,
  let res := fold_left (fun acc v => match v with Some k => incr k acc | None => acc end)
                       column acc in
  (NoDup (map fst acc) -> NoDup (map fst res))
  /\ (Forall (fun p => 1 <= snd p) acc -> Forall (fun p => 1 <= snd p) res)
  /\ (forall k, get k res = get k acc + List.length (filter (holds k) column))
  /\ (forall k, In k (map fst res) <-> In k (map fst acc) \/ In (Some k) column).
Proof.
  induction column as [|[a|] column IH]; intros acc; simpl.
  - split; [auto|]. split; [auto|]. split; [intros; lia | intros; tauto].
  - destruct (IH (incr a acc)) as (H1 & H2 & H3 & H4).
    split; [|split; [|split]].
    + intros H. apply H1. now apply incr_NoDup.
    + intros H. apply H2. now apply incr_pos.
    + intros k. rewrite H3, incr_get. destruct (Z.eqb a k); simpl; lia.
    + intros k. rewrite H4, incr_keys. split.
      * intros [[->|H]|H]; auto.
      * intros [H|[H|H]]; auto. injection H as ->. auto.
  - destruct (IH acc) as (H1 & H2 & H3 & H4).
    split; [|split; [|split]]; auto.
    intros k. rewrite H4. split; [tauto|]. intros [H|[H|H]]; auto. discriminate.
Qed.

Lemma get_In k n acc : NoDup (map fst acc) -> In (k, n) acc -> get k acc = n.
Proof.
  unfold get. induction acc as [|[a m] acc IH]; simpl; intros Hnd Hin; [contradiction|].
  inversion Hnd as [|? ? Hn Hnd']; subst.
  destruct Hin as [[= -> ->]|Hin].
  - now rewrite Z.eqb_refl.
  - destruct (Z.eqb_spec a k) as [->|Hne]; [|auto].
    exfalso. apply Hn. apply in_map_iff. exists (k, n). auto.
Qed.

(** X13.  [len_formations_i] holds one entry per id met in the table, none of them
    zero: the entry of an id is the number of interface points that carry
    it. *)
Theorem len_formations_i_counts interfaces :
  let vc := value_counts (map id interfaces) in
  set_length_formations_i interfaces = map snd vc
  /\ NoDup (map fst vc)
  /\ (forall k, In k (map fst vc) <-> exists r, In r interfaces /\ id r = Some k)
  /\ (forall k n, In (k, n) vc ->
        1 <= n /\ n = List.length (filter (fun r => holds k (id r)) interfaces)).
Proof.
  intros vc. unfold vc, value_counts.
  destruct (value_counts_from (map id interfaces) []) as (H1 & H2 & H3 & H4).
  split; [reflexivity|]. split; [apply H1; constructor|]. split.
  - intros k. rewrite H4. simpl. rewrite in_map_iff. split.
    + intros [[]|(r & E & Hr)]. eauto.
    + intros (r & Hr & E). right. eauto.
  - intros k n Hin. split.
    + specialize (H2 (Forall_nil _)). rewrite Forall_forall in H2. apply (H2 _ Hin).
    + rewrite <- (get_In k n _ (H1 (NoDup_nil _)) Hin), H3. simpl.
      clear. induction interfaces as [|r l IH]; simpl; [reflexivity|].
      destruct (holds k (id r)); simpl; now rewrite IH.
Qed.

End StructureFacts.

(** ** Series and fault relations *)

Module SeriesFacts.
Import Series.
Local Open Scope nat_scope.
Local Open Scope list_scope.

Lemma aligned_uniform idx (rows : list series_row) (frows : list faults_row) rel :
  List.length rows = len idx -> List.length frows = len idx ->
  List.length rel = len idx -> Forall (fun r => List.length r = len idx) rel ->
  aligned (mk idx rows idx frows idx idx rel).
Proof. intros. unfold aligned. simpl. repeat split; assumption. Qed.

Lemma aligned_inv s :
  aligned s ->
  exists idx rows frows rel,
    s = mk idx rows idx frows idx idx rel
    /\ List.length rows = len idx /\ List.length frows = len idx
    /\ List.length rel = len idx /\ Forall (fun r => List.length r = len idx) rel.
Proof.
  destruct s as [i1 rows i2 frows i3 i4 rel]. unfold aligned. simpl.
  intros (-> & -> & -> & H1 & H2 & H3 & H4).
  exists i1, rows, frows, rel. repeat split; assumption.
Qed.

Lemma set_all_uniform idx' idx rows frows rel :
  List.length rows = len idx -> List.length frows = len idx ->
  List.length rel = len idx ->
  len idx' = len idx ->
  set_all idx' (mk idx rows idx frows idx idx rel)
  = (mk idx' rows idx' frows idx' idx' rel, None).
Proof.
  intros H1 H2 H3 H4.
  unfold set_all, andThen, set_df_index, set_faults_index, set_rel_index, set_rel_columns.
  unfold len in *.
  simpl. rewrite H4, H1, Nat.eqb_refl. simpl.
  rewrite H2, Nat.eqb_refl. simpl.
  rewrite H3, Nat.eqb_refl. simpl.
  rewrite ?H4, Nat.eqb_refl. reflexivity.
Qed.

Lemma set_where_length {A} c (f : A -> A) labels l :
  List.length (set_where c f labels l) = List.length l.
Proof.
  revert l. induction labels as [|v labels IH]; intros [|x l]; simpl; auto.
Qed.

Lemma set_where_Forall {A} (P : A -> Prop) c (f : A -> A) labels l :
  (forall x, P x -> P (f x)) -> Forall P l -> Forall P (set_where c f labels l).
Proof.
  intros Hf. revert l. induction labels as [|v labels IH]; intros [|x l] H; simpl; auto.
  inversion H; subst. constructor; [destruct (String.eqb v c); auto | auto].
Qed.

Lemma loc_all_aligned c s :
  aligned s -> In c (CategoricalIndex.categories (df_index s)) ->
  exists s', (loc_df c >> loc_faults c >> loc_rel c) s = (s', None)
             /\ aligned s'
             /\ CategoricalIndex.categories (df_index s')
                = CategoricalIndex.categories (df_index s).
Proof.
  intros Ha Hc. destruct (aligned_inv s Ha) as (idx & rows & frows & rel & -> & H1 & H2 & H3 & H4).
  simpl in Hc. unfold len in *.
  unfold andThen, loc_df, loc_faults, loc_rel, andThen, loc_rel_row, loc_rel_column, loc_rel_cell.
  simpl.
  destruct (mem_string c (CategoricalIndex.values idx)) eqn:E; simpl.
  - rewrite E. simpl. rewrite E. simpl. rewrite E. simpl.
    eexists. split; [reflexivity|]. split; [|reflexivity].
    apply aligned_uniform; rewrite ?set_where_length; auto.
    apply set_where_Forall; [|assumption].
    intros r Hr. now rewrite set_where_length.
  - unfold CategoricalIndex.append.
    assert (Hm : mem_string c (CategoricalIndex.categories idx) = true)
      by (apply mem_string_In; assumption).
    rewrite Hm. simpl. rewrite E, Hm. simpl. rewrite E, Hm. simpl. rewrite E, Hm. simpl.
    eexists. split; [reflexivity|]. split; [|reflexivity].
    apply aligned_uniform; unfold len; simpl;
      rewrite ?set_where_length, ?length_map, !length_app; simpl; try lia.
    apply set_where_Forall.
    + intros r Hr. now rewrite set_where_length.
    + rewrite Forall_map. apply Forall_app. split.
      * eapply Forall_impl; [|exact H4]. simpl. intros r Hr.
        rewrite length_app. simpl. lia.
      * constructor; [|constructor]. rewrite length_app, repeat_length. simpl. lia.
Qed.

Lemma add_categories_inr new idx idx' :
  CategoricalIndex.add_categories new idx = inr idx' ->
  idx' = CategoricalIndex.mk (CategoricalIndex.values idx)
                             (CategoricalIndex.categories idx ++ new).
Proof.
  unfold CategoricalIndex.add_categories.
  destruct (existsb _ new); [discriminate|].
  destruct (negb _); [discriminate|]. now intros [= <-].
Qed.

Lemma for_each_loc_aligned l : forall s,
  aligned s ->
  Forall (fun c => In c (CategoricalIndex.categories (df_index s))) l ->
  exists s', for_each l (fun c => loc_df c >> loc_faults c >> loc_rel c) s = (s', None)
             /\ aligned s'.
Proof.
  induction l as [|c l IH]; intros s Ha Hl; simpl.
  - exists s. split; [reflexivity | assumption].
  - inversion Hl as [|? ? Hc Hl']; subst.
    destruct (loc_all_aligned c s Ha Hc) as (s1 & Hrun & Ha1 & Hcat).
    rewrite (andThen_ok _ _ _ _ Hrun).
    apply IH; [assumption|]. now rewrite Hcat.
Qed.

Lemma update_order_series_aligned s :
  aligned s -> aligned (fst (update_order_series s)).
Proof.
  intros Ha. destruct (aligned_inv s Ha) as (idx & rows & frows & rel & -> & H1 & H2 & H3 & H4).
  unfold update_order_series. simpl.
  apply aligned_uniform; auto.
  rewrite length_map, length_combine, length_seq, Nat.min_id. assumption.
Qed.

Lemma add_series_aligned l u s : aligned s -> aligned (fst (add_series l u s)).
Proof.
  intros Ha. destruct (aligned_inv s Ha) as (idx & rows & frows & rel & -> & H1 & H2 & H3 & H4).
  unfold add_series, with_index. cbn [df_index].
  set (l' := filter _ l).
  destruct (CategoricalIndex.add_categories l' idx) as [e|idx1] eqn:E; [exact Ha|].
  apply add_categories_inr in E. subst idx1.
  erewrite andThen_ok by (apply set_all_uniform; auto; reflexivity).
  set (s1 := mk _ rows _ frows _ _ rel).
  assert (Ha1 : aligned s1).
  { apply aligned_uniform; auto. }
  assert (Hl : Forall (fun c => In c (CategoricalIndex.categories (df_index s1))) l').
  { rewrite Forall_forall. intros c Hc. simpl. apply in_or_app. now right. }
  destruct (for_each_loc_aligned l' s1 Ha1 Hl) as (s2 & Hrun & Ha2).
  rewrite (andThen_ok _ _ _ _ Hrun).
  destruct u; [now apply update_order_series_aligned | exact Ha2].
Qed.

Lemma rename_series_aligned n s : aligned s -> aligned (fst (rename_series n s)).
Proof.
  intros Ha. destruct (aligned_inv s Ha) as (idx & rows & frows & rel & -> & H1 & H2 & H3 & H4).
  unfold rename_series, with_index. cbn [df_index].
  destruct (CategoricalIndex.rename_categories n idx) as [e|idx1] eqn:E; [exact Ha|].
  assert (Hlen : len idx1 = len idx).
  { unfold CategoricalIndex.rename_categories in E.
    destruct (negb _); [discriminate|]. destruct (negb _); [discriminate|].
    injection E as <-. unfold len. simpl. apply length_map. }
  rewrite set_all_uniform by auto. simpl.
  apply aligned_uniform; rewrite ?Hlen; auto.
Qed.

Lemma insert_sorted_length cats v l :
  List.length (CategoricalIndex.insert_sorted cats v l) = S (List.length l).
Proof.
  induction l as [|x l IH]; simpl; [reflexivity|].
  destruct (Nat.ltb _ _); simpl; [reflexivity|]. now rewrite IH.
Qed.

Lemma sort_values_length idx :
  len (CategoricalIndex.sort_values idx) = len idx.
Proof.
  unfold len, CategoricalIndex.sort_values. simpl.
  assert (H : forall vs acc,
             List.length (fold_left (fun acc v => CategoricalIndex.insert_sorted
                                                    (CategoricalIndex.categories idx) v acc) vs acc)
             = List.length vs + List.length acc).
  { induction vs as [|v vs IH]; intros acc; simpl; [reflexivity|].
    rewrite IH, insert_sorted_length. lia. }
  rewrite H. simpl. lia.
Qed.

Lemma reorder_series_aligned n s : aligned s -> aligned (fst (reorder_series n s)).
Proof.
  intros Ha. destruct (aligned_inv s Ha) as (idx & rows & frows & rel & -> & H1 & H2 & H3 & H4).
  unfold reorder_series, with_index. cbn [df_index].
  destruct (CategoricalIndex.reorder_categories n idx) as [e|idx1] eqn:E; [exact Ha|].
  cbn [bind].
  assert (Hlen : len (CategoricalIndex.sort_values idx1) = len idx).
  { rewrite sort_values_length.
    unfold CategoricalIndex.reorder_categories in E.
    destruct (negb _); [discriminate|]. destruct (negb _); [discriminate|].
    now injection E as <-. }
  rewrite set_all_uniform by auto. simpl.
  apply aligned_uniform; rewrite ?Hlen; auto.
Qed.

Lemma drop_where_length {A} labels axis (l : list A) :
  List.length l = List.length axis ->
  List.length (drop_where labels axis l)
  = List.length (filter (fun v => negb (mem_string v labels)) axis).
Proof.
  revert l. induction axis as [|v axis IH]; intros [|x l] H; simpl in *; try discriminate; auto.
  destruct (mem_string v labels); simpl; auto.
Qed.

Lemma drop_where_Forall {A} (P : A -> Prop) labels axis (l : list A) :
  Forall P l -> Forall P (drop_where labels axis l).
Proof.
  revert l. induction axis as [|v axis IH]; intros [|x l] H; simpl; auto.
  inversion H; subst. destruct (mem_string v labels); auto.
Qed.

Lemma delete_series_aligned i s : aligned s -> aligned (fst (delete_series i s)).
Proof.
  intros Ha. destruct (aligned_inv s Ha) as (idx & rows & frows & rel & -> & H1 & H2 & H3 & H4).
  unfold delete_series, andThen, drop_df, drop_faults, drop_rel_rows, drop_rel_columns,
    with_index, drop_labels.
  cbn [df_index faults_index rel_index rel_columns df_rows faults_rows rel_values].
  destruct (forallb _ i) eqn:E; [|exact Ha].
  cbn [df_index faults_index rel_index rel_columns df_rows faults_rows rel_values].
  rewrite E.
  cbn [df_index faults_index rel_index rel_columns df_rows faults_rows rel_values].
  rewrite E.
  cbn [df_index faults_index rel_index rel_columns df_rows faults_rows rel_values].
  rewrite E.
  cbn [df_index faults_index rel_index rel_columns df_rows faults_rows rel_values].
  unfold len in *.
  rewrite set_all_uniform.
  - simpl. apply aligned_uniform; unfold len; simpl;
      rewrite ?length_map; try (apply drop_where_length; assumption).
    rewrite Forall_map.
    assert (Hall : Forall (fun r : list (option bool) =>
                             List.length r = List.length (CategoricalIndex.values idx))
                          (drop_where i (CategoricalIndex.values idx) rel))
      by (apply drop_where_Forall; assumption).
    eapply Forall_impl; [|exact Hall]. simpl. intros r Hr.
    now apply drop_where_length.
  - unfold len. simpl. now apply drop_where_length.
  - unfold len. simpl. now apply drop_where_length.
  - unfold len. simpl. rewrite length_map. now apply drop_where_length.
  - reflexivity.
Qed.

Lemma aligned_run o s : aligned s -> aligned (fst (run o s)).
Proof.
  destruct o; simpl.
  - apply add_series_aligned.
  - apply rename_series_aligned.
  - apply reorder_series_aligned.
  - apply delete_series_aligned.
Qed.

Lemma aligned_run_all ops : forall s, aligned s -> aligned (run_all ops s).
Proof.
  unfold run_all. induction ops as [|o ops IH]; intros s Ha; simpl; [assumption|].
  apply IH. now apply aligned_run.
Qed.

Lemma aligned_init : aligned init.
Proof. unfold aligned, init, len. simpl. repeat split; repeat constructor. Qed.

Lemma scenario_from_A_B s :
  aligned s ->
  CategoricalIndex.values (df_index s) = ["A"; "B"]%string ->
  (CategoricalIndex.categories (df_index s) = ["A"; "B"]%string
   \/ CategoricalIndex.categories (df_index s) = ["B"; "A"]%string) ->
  let s' := run_all scenario s in
  df_index s' = CategoricalIndex.mk ["B2"; "C"]%string ["B2"; "C"]%string
  /\ rel_index s' = df_index s'
  /\ rel_columns s' = df_index s'
  /\ List.length (rel_values s') = 2
  /\ Forall (fun r => List.length r = 2) (rel_values s').
Proof.
  intros Ha Hv Hc.
  destruct (aligned_inv s Ha) as (idx & rows & frows & rel & -> & H1 & H2 & H3 & H4).
  destruct idx as [vs cs]. unfold len in *. simpl in *. subst vs. simpl in *.
  destruct rows as [|r1 [|r2 [|]]]; try discriminate.
  destruct frows as [|f1 [|f2 [|]]]; try discriminate.
  destruct rel as [|x1 [|x2 [|]]]; try discriminate.
  inversion H4 as [|? ? Hx1 H4']; subst. inversion H4' as [|? ? Hx2 _]; subst.
  destruct x1 as [|a [|b [|]]]; try discriminate.
  destruct x2 as [|c [|d [|]]]; try discriminate.
  destruct Hc as [-> | ->]; vm_compute; repeat split; repeat constructor.
Qed.

(** C6.  From a state in which the fault tables carry the labels of the
    series, any sequence of [add_series], [rename_series], [reorder_series]
    and [delete_series], each run on the state the previous one left
    (whether it returned or raised), leaves the relation matrix square with
    its rows and its columns labelled exactly as the series are.  Starting
    from the series [A, B], adding [C], renaming [B] to [B2] and deleting
    [A] leaves a 2 x 2 matrix labelled [B2, C]. *)
Theorem fault_relations_stay_aligned s ops :
  aligned s ->
  let s' := run_all ops s in
  rel_index s' = df_index s'
  /\ rel_columns s' = df_index s'
  /\ faults_index s' = df_index s'
  /\ List.length (rel_values s') = len (df_index s')
  /\ Forall (fun r => List.length r = len (df_index s')) (rel_values s')
  /\ (CategoricalIndex.values (df_index s) = ["A"; "B"]%string ->
      (CategoricalIndex.categories (df_index s) = ["A"; "B"]%string
       \/ CategoricalIndex.categories (df_index s) = ["B"; "A"]%string) ->
      let s2 := run_all scenario s in
      df_index s2 = CategoricalIndex.mk ["B2"; "C"]%string ["B2"; "C"]%string
      /\ rel_index s2 = df_index s2
      /\ rel_columns s2 = df_index s2
      /\ List.length (rel_values s2) = 2
      /\ Forall (fun r => List.length r = 2) (rel_values s2)).
Proof.
  intros Ha.
  destruct (aligned_run_all ops s Ha) as (H1 & H2 & H3 & _ & _ & H6 & H7).
  repeat (split; [assumption|]).
  intros Hv Hc. now apply scenario_from_A_B.
Qed.

Lemma fault_relations_stay_aligned_witness :
  let s' := run_all scenario series_A_B in
  rel_index s' = df_index s'
  /\ rel_columns s' = df_index s'
  /\ faults_index s' = df_index s'
  /\ List.length (rel_values s') = len (df_index s')
  /\ Forall (fun r => List.length r = len (df_index s')) (rel_values s')
  /\ (CategoricalIndex.values (df_index series_A_B) = ["A"; "B"]%string ->
      (CategoricalIndex.categories (df_index series_A_B) = ["A"; "B"]%string
       \/ CategoricalIndex.categories (df_index series_A_B) = ["B"; "A"]%string) ->
      let s2 := run_all scenario series_A_B in
      df_index s2 = CategoricalIndex.mk ["B2"; "C"]%string ["B2"; "C"]%string
      /\ rel_index s2 = df_index s2
      /\ rel_columns s2 = df_index s2
      /\ List.length (rel_values s2) = 2
      /\ Forall (fun r => List.length r = 2) (rel_values s2)).
Proof.
  apply (fault_relations_stay_aligned series_A_B scenario).
  unfold aligned, len. vm_compute. repeat split; repeat constructor.
Defined.

Lemma set_all_rows idx s :
  df_rows (fst (set_all idx s)) = df_rows s
  /\ faults_rows (fst (set_all idx s)) = faults_rows s
  /\ rel_values (fst (set_all idx s)) = rel_values s.
Proof.
  unfold set_all, andThen, set_df_index, set_faults_index, set_rel_index, set_rel_columns.
  destruct (Nat.eqb (len idx) (List.length (df_rows s))); cbn; [|auto].
  destruct (Nat.eqb (len idx) (List.length (faults_rows s))); cbn; [|auto].
  destruct (Nat.eqb (len idx) (List.length (rel_values s))); cbn; [|auto].
  destruct (Nat.eqb (len idx) (len (rel_columns s))); cbn; auto.
Qed.

Lemma set_all_index idx s s' :
  set_all idx s = (s', None) ->
  df_index s' = idx /\ faults_index s' = idx /\ rel_index s' = idx /\ rel_columns s' = idx.
Proof.
  unfold set_all, andThen, set_df_index, set_faults_index, set_rel_index, set_rel_columns.
  destruct (Nat.eqb (len idx) (List.length (df_rows s))); cbn; [|discriminate].
  destruct (Nat.eqb (len idx) (List.length (faults_rows s))); cbn; [|discriminate].
  destruct (Nat.eqb (len idx) (List.length (rel_values s))); cbn; [|discriminate].
  destruct (Nat.eqb (len idx) (len (rel_columns s))); cbn; [|discriminate].
  intros [= <-]. cbn. auto.
Qed.

Lemma insert_sorted_perm cats v l :
  Permutation (CategoricalIndex.insert_sorted cats v l) (v :: l).
Proof.
  induction l as [|x l IH]; simpl; [reflexivity|].
  destruct (Nat.ltb _ _); [reflexivity|].
  rewrite IH. apply perm_swap.
Qed.

Lemma insert_sorted_sorted cats v l :
  StronglySorted (by_code cats) l ->
  StronglySorted (by_code cats) (CategoricalIndex.insert_sorted cats v l).
Proof.
  induction 1 as [|x l Hs IH Hall]; simpl.
  - repeat constructor.
  - destruct (Nat.ltb_spec (CategoricalIndex.code cats v) (CategoricalIndex.code cats x)).
    + constructor; [constructor; assumption|].
      constructor; [unfold by_code; lia|].
      eapply Forall_impl; [|exact Hall]. unfold by_code. intros; lia.
    + constructor; [assumption|].
      eapply Permutation_Forall; [symmetry; apply insert_sorted_perm|].
      constructor; [unfold by_code; lia | assumption].
Qed.

Lemma sort_values_spec idx :
  Permutation (CategoricalIndex.values (CategoricalIndex.sort_values idx))
              (CategoricalIndex.values idx)
  /\ StronglySorted (by_code (CategoricalIndex.categories idx))
                    (CategoricalIndex.values (CategoricalIndex.sort_values idx))
  /\ CategoricalIndex.categories (CategoricalIndex.sort_values idx)
     = CategoricalIndex.categories idx.
Proof.
  unfold CategoricalIndex.sort_values. cbn.
  set (cats := CategoricalIndex.categories idx).
  assert (H : forall vs acc,
    StronglySorted (by_code cats) acc ->
    Permutation (fold_left (fun acc v => CategoricalIndex.insert_sorted cats v acc) vs acc)
                (vs ++ acc)
    /\ StronglySorted (by_code cats)
         (fold_left (fun acc v => CategoricalIndex.insert_sorted cats v acc) vs acc)).
  { induction vs as [|v vs IH]; intros acc Hacc; simpl; [split; [reflexivity|assumption]|].
    destruct (IH _ (insert_sorted_sorted cats v acc Hacc)) as [Hp Hs].
    split; [|assumption]. rewrite Hp, insert_sorted_perm. symmetry. apply Permutation_middle. }
  destruct (H (CategoricalIndex.values idx) [] (SSorted_nil _)) as [Hp Hs].
  rewrite app_nil_r in Hp. auto.
Qed.

(** X14.  [reorder_series] relabels, it does not move rows: when it returns, the
    categories are the new ones and the labels are the old labels sorted by
    them, while the rows of the series table, of the fault table and of the
    relation matrix are where they were. *)
Theorem reorder_series_keeps_rows new s s' :
  reorder_series new s = (s', None) ->
  df_rows s' = df_rows s /\ faults_rows s' = faults_rows s
  /\ rel_values s' = rel_values s
  /\ CategoricalIndex.categories (df_index s') = new
  /\ Permutation (CategoricalIndex.values (df_index s'))
                 (CategoricalIndex.values (df_index s))
  /\ StronglySorted (by_code new) (CategoricalIndex.values (df_index s')).
Proof.
  unfold reorder_series, with_index. intros H.
  destruct (CategoricalIndex.reorder_categories new (df_index s)) as [e|idx1] eqn:E;
    cbn [bind] in H; [discriminate|].
  pose proof (set_all_rows (CategoricalIndex.sort_values idx1) s) as (R1 & R2 & R3).
  pose proof (set_all_index _ _ _ H) as (I1 & _).
  rewrite H in R1, R2, R3. cbn [fst] in *.
  split; [assumption|]. split; [assumption|]. split; [assumption|].
  destruct (sort_values_spec idx1) as (Hp & Hs & Hc).
  unfold CategoricalIndex.reorder_categories in E.
  destruct (negb (_ && _)); [discriminate|]. destruct (negb _); [discriminate|].
  injection E as <-. cbn in *. rewrite I1. auto.
Qed.

Lemma reorder_series_keeps_rows_witness :
  exists s',
    reorder_series ["B"; "A"]%string series_A_B = (s', None)
    /\ df_rows s' = df_rows series_A_B /\ faults_rows s' = faults_rows series_A_B
    /\ rel_values s' = rel_values series_A_B
    /\ CategoricalIndex.categories (df_index s') = ["B"; "A"]%string
    /\ Permutation (CategoricalIndex.values (df_index s'))
                   (CategoricalIndex.values (df_index series_A_B))
    /\ StronglySorted (by_code ["B"; "A"]%string) (CategoricalIndex.values (df_index s')).
Proof.
  eexists. split; [vm_compute; reflexivity|].
  apply (reorder_series_keeps_rows ["B"; "A"]%string series_A_B). vm_compute. reflexivity.
Defined.

(** X15.  [delete_series] with a label that is not a series raises [KeyError] and
    leaves the three tables as they were. *)
Theorem delete_series_missing_label indices s c :
  In c indices -> ~ In c (CategoricalIndex.values (df_index s)) ->
  delete_series indices s = (s, Some KeyError).
Proof.
  intros Hin Hc. unfold delete_series, andThen, drop_df, drop_labels.
  destruct (forallb _ indices) eqn:E; [|reflexivity].
  rewrite forallb_forall in E. specialize (E _ Hin).
  apply mem_string_In in E. contradiction.
Qed.

Lemma delete_series_missing_label_witness :
  delete_series ["A"; "C"]%string series_A_B = (series_A_B, Some KeyError).
Proof.
  apply (delete_series_missing_label ["A"; "C"]%string series_A_B "C"%string).
  - right. left. reflexivity.
  - vm_compute. intros [H|[H|[]]]; discriminate.
Defined.

Lemma set_where_last {A} c (f : A -> A) labels : forall (l : list A) x,
  List.length l = List.length labels -> ~ In c labels ->
  set_where c f (labels ++ [c]) (l ++ [x]) = l ++ [f x].
Proof.
  induction labels as [|v labels IH]; intros [|y l] x Hlen Hc; simpl in *; try discriminate.
  - now rewrite String.eqb_refl.
  - destruct (String.eqb_spec v c) as [->|_]; [exfalso; auto|].
    rewrite IH; auto.
Qed.

Lemma repeat_snoc {A} (x : A) n : repeat x n ++ [x] = repeat x (S n).
Proof. induction n as [|n IH]; simpl; [reflexivity|]. now rewrite IH. Qed.

(** One turn of the loop of [add_series] on a label that is a category and
    not yet a label. *)
Lemma loc_all_fresh c idx rows frows rel :
  List.length rows = len idx -> List.length frows = len idx ->
  List.length rel = len idx -> Forall (fun r => List.length r = len idx) rel ->
  In c (CategoricalIndex.categories idx) -> ~ In c (CategoricalIndex.values idx) ->
  let idx' := CategoricalIndex.mk (CategoricalIndex.values idx ++ [c])
                                  (CategoricalIndex.categories idx) in
  (loc_df c >> loc_faults c >> loc_rel c) (mk idx rows idx frows idx idx rel)
  = (mk idx' (rows ++ [nan_row]) idx' (frows ++ [nan_fault]) idx' idx'
        (map (fun r => r ++ [None]) rel ++ [repeat None (S (len idx))]), None).
Proof.
  intros H1 H2 H3 H4 Hc Hv idx'.
  apply mem_string_In in Hc. apply mem_string_false in Hv.
  unfold andThen, loc_df, loc_faults, loc_rel, andThen, loc_rel_row, loc_rel_column,
    loc_rel_cell, CategoricalIndex.append.
  cbn [df_index faults_index rel_index rel_columns df_rows faults_rows rel_values].
  rewrite Hv, Hc.
  cbn [df_index faults_index rel_index rel_columns df_rows faults_rows rel_values
       CategoricalIndex.values CategoricalIndex.categories].
  rewrite Hv, Hc.
  cbn [df_index faults_index rel_index rel_columns df_rows faults_rows rel_values
       CategoricalIndex.values CategoricalIndex.categories].
  rewrite Hv, Hc.
  cbn [df_index faults_index rel_index rel_columns df_rows faults_rows rel_values
       CategoricalIndex.values CategoricalIndex.categories].
  rewrite Hv, Hc.
  cbn [df_index faults_index rel_index rel_columns df_rows faults_rows rel_values
       CategoricalIndex.values CategoricalIndex.categories].
  f_equal. unfold idx'. f_equal.
  rewrite map_app. cbn [map].
  apply mem_string_false in Hv.
  rewrite set_where_last; [|now rewrite length_map|assumption].
  f_equal. f_equal.
  rewrite set_where_last; [|now rewrite repeat_length|assumption].
  apply repeat_snoc.
Qed.

Lemma for_each_fresh l : forall idx rows frows rel,
  List.length rows = len idx -> List.length frows = len idx ->
  List.length rel = len idx -> Forall (fun r => List.length r = len idx) rel ->
  Forall (fun c => In c (CategoricalIndex.categories idx)) l ->
  Forall (fun c => ~ In c (CategoricalIndex.values idx)) l ->
  NoDup l ->
  let idx' := CategoricalIndex.mk (CategoricalIndex.values idx ++ l)
                                  (CategoricalIndex.categories idx) in
  for_each l (fun c => loc_df c >> loc_faults c >> loc_rel c)
           (mk idx rows idx frows idx idx rel)
  = (mk idx' (rows ++ repeat nan_row (List.length l))
        idx' (frows ++ repeat nan_fault (List.length l)) idx' idx'
        (map (fun r => r ++ repeat None (List.length l)) rel
         ++ repeat (repeat None (len idx + List.length l)) (List.length l)), None).
Proof.
  induction l as [|c l IH]; intros idx rows frows rel H1 H2 H3 H4 Hc Hv Hnd idx'.
  - cbn [for_each skip List.length repeat]. unfold skip, idx'. rewrite !app_nil_r.
    destruct idx. cbn. f_equal. f_equal.
    rewrite <- (map_id rel) at 1. apply map_ext. intros r. now rewrite app_nil_r.
  - cbn [for_each]. inversion Hc as [|? ? Hc1 Hc2]; inversion Hv as [|? ? Hv1 Hv2];
      inversion Hnd as [|? ? Hn1 Hn2]; subst.
    erewrite andThen_ok by (apply loc_all_fresh; assumption).
    set (idx1 := CategoricalIndex.mk (CategoricalIndex.values idx ++ [c])
                                     (CategoricalIndex.categories idx)).
    assert (L : len idx1 = S (len idx)).
    { unfold len, idx1. cbn. rewrite length_app. simpl. lia. }
    rewrite IH; try assumption.
    + unfold idx', idx1. cbn [CategoricalIndex.values CategoricalIndex.categories List.length].
      rewrite <- !app_assoc. cbn [app repeat].
      f_equal. f_equal.
      rewrite map_app, map_map. cbn [map]. rewrite <- app_assoc. f_equal.
      * apply map_ext. intros r. now rewrite <- app_assoc.
      * cbn [app]. fold idx1. rewrite L.
        replace (len idx + S (List.length l)) with (S (len idx) + List.length l) by lia.
        rewrite <- repeat_app. reflexivity.
    + rewrite length_app, L. simpl. lia.
    + rewrite length_app, L. simpl. lia.
    + rewrite length_app, length_map, L. simpl. lia.
    + rewrite L. apply Forall_app. split.
      * rewrite Forall_map. eapply Forall_impl; [|exact H4].
        intros r Hr. cbn beta. rewrite length_app, Hr. simpl. lia.
      * repeat constructor. now rewrite repeat_length.
    + unfold idx1. cbn. rewrite Forall_forall in *. intros x Hx Hin.
      apply in_app_or in Hin. destruct Hin as [Hin|[<-|[]]]; [apply (Hv2 x Hx Hin)|auto].
Qed.

Lemma uniqueb_NoDup l : NoDup l -> CategoricalIndex.uniqueb l = true.
Proof.
  induction 1 as [|x l Hx Hnd IH]; simpl; [reflexivity|].
  apply mem_string_false in Hx. now rewrite Hx, IH.
Qed.

Lemma existsb_filter_fresh cats l :
  existsb (fun c => mem_string c cats)
          (filter (fun c => negb (mem_string c cats)) l) = false.
Proof.
  induction l as [|c l IH]; simpl; [reflexivity|].
  destruct (mem_string c cats) eqn:E; simpl; [assumption|]. now rewrite E.
Qed.

Lemma map_combine_seq {A B} (f : nat * A -> B) (g : nat -> B) (l : list A) start :
  (forall i x, f (i, x) = g i) ->
  map f (combine (seq start (List.length l)) l) = map g (seq start (List.length l)).
Proof.
  intros H. revert start. induction l as [|x l IH]; intros start; simpl; [reflexivity|].
  now rewrite H, IH.
Qed.

Lemma map_combine_snd {A B} (f : nat * A -> B) (g : A -> B) (l : list A) start :
  (forall i x, f (i, x) = g x) ->
  map f (combine (seq start (List.length l)) l) = map g l.
Proof.
  intros H. revert start. induction l as [|x l IH]; intros start; simpl; [reflexivity|].
  now rewrite H, IH.
Qed.

(** X16.  [add_series] on names given once each: the names that are not yet
    categories are appended, in the order given, as categories and as labels;
    the others are skipped.  The rows already there keep their place and
    their cells; every new series gets missing cells in the series table and
    in the fault table (so [isFault] is missing for it, not [False]), and
    the relation matrix grows by missing cells only.  With
    [update_order_series] the order column is renumbered 1..n. *)
Theorem add_series_appends l u s :
  aligned s ->
  NoDup l ->
  (forall v, In v (CategoricalIndex.values (df_index s)) ->
             In v (CategoricalIndex.categories (df_index s))) ->
  let new := filter (fun c => negb (mem_string c (CategoricalIndex.categories (df_index s)))) l in
  let k := List.length new in
  let n := len (df_index s) in
  exists s',
    add_series l u s = (s', None)
    /\ df_index s' = CategoricalIndex.mk (CategoricalIndex.values (df_index s) ++ new)
                                         (CategoricalIndex.categories (df_index s) ++ new)
    /\ faults_rows s' = faults_rows s ++ repeat nan_fault k
    /\ rel_values s' = map (fun r => r ++ repeat None k) (rel_values s)
                       ++ repeat (repeat None (n + k)) k
    /\ map BottomRelation (df_rows s') = map BottomRelation (df_rows s) ++ repeat None k
    /\ map order_series (df_rows s')
       = if u then map (fun i => Some (Z.of_nat (S i))) (seq 0 (n + k))
         else map order_series (df_rows s) ++ repeat None k.
Proof.
  intros Ha Hnd Hsub new k n.
  destruct (aligned_inv s Ha) as (idx & rows & frows & rel & -> & H1 & H2 & H3 & H4).
  cbn [df_index faults_rows rel_values df_rows] in *.
  unfold add_series, with_index. cbn [df_index]. fold new.
  unfold CategoricalIndex.add_categories.
  unfold new at 1. rewrite existsb_filter_fresh.
  assert (Hnew : NoDup new) by (apply NoDup_filter; assumption).
  rewrite (uniqueb_NoDup new Hnew). cbn [negb].
  set (idx1 := CategoricalIndex.mk (CategoricalIndex.values idx)
                                   (CategoricalIndex.categories idx ++ new)).
  assert (L : len idx1 = len idx) by reflexivity.
  erewrite andThen_ok by (apply set_all_uniform; auto).
  assert (Hfresh : forall c, In c new -> ~ In c (CategoricalIndex.categories idx)).
  { intros c Hc. apply filter_In in Hc. destruct Hc as [_ Hc].
    apply mem_string_false. now destruct (mem_string c _). }
  erewrite andThen_ok.
  2:{ apply (for_each_fresh new idx1 rows frows rel); rewrite ?L; auto.
      - rewrite Forall_forall. intros c Hc. unfold idx1. cbn. apply in_or_app. auto.
      - rewrite Forall_forall. intros c Hc Hv. apply (Hfresh c Hc). apply Hsub. exact Hv. }
  fold k. rewrite L. fold n.
  unfold idx1. cbn [CategoricalIndex.values CategoricalIndex.categories].
  destruct u.
  - eexists. split; [reflexivity|]. cbn [df_index faults_rows rel_values df_rows].
    split; [reflexivity|]. split; [reflexivity|]. split; [reflexivity|].
    rewrite !map_map. split.
    + rewrite (map_combine_snd _ BottomRelation); [|reflexivity].
      rewrite map_app. f_equal. clear. induction k; simpl; congruence.
    + rewrite (map_combine_seq _ (fun i => Some (Z.of_nat (S i)))); [|reflexivity].
      rewrite length_app, repeat_length, H1. reflexivity.
  - eexists. split; [reflexivity|]. cbn [df_index faults_rows rel_values df_rows].
    split; [reflexivity|]. split; [reflexivity|]. split; [reflexivity|].
    rewrite !map_app. split; f_equal; clear; induction k; simpl; congruence.
Qed.

Lemma add_series_appends_witness :
  let new := filter (fun c => negb (mem_string c (CategoricalIndex.categories
                                                    (df_index series_A_B))))
                    ["B"; "C"]%string in
  let k := List.length new in
  let n := len (df_index series_A_B) in
  exists s',
    add_series ["B"; "C"]%string true series_A_B = (s', None)
    /\ df_index s' = CategoricalIndex.mk
                       (CategoricalIndex.values (df_index series_A_B) ++ new)
                       (CategoricalIndex.categories (df_index series_A_B) ++ new)
    /\ faults_rows s' = faults_rows series_A_B ++ repeat nan_fault k
    /\ rel_values s' = map (fun r => r ++ repeat None k) (rel_values series_A_B)
                       ++ repeat (repeat None (n + k)) k
    /\ map BottomRelation (df_rows s')
       = map BottomRelation (df_rows series_A_B) ++ repeat None k
    /\ map order_series (df_rows s')
       = map (fun i => Some (Z.of_nat (S i))) (seq 0 (n + k)).
Proof.
  apply (add_series_appends ["B"; "C"]%string true series_A_B).
  - unfold aligned, len. vm_compute. repeat split; repeat constructor.
  - repeat constructor; simpl; intuition discriminate.
  - vm_compute. tauto.
Defined.

Lemma drop_where_combine {A} labels axis (l : list A) :
  List.length l = List.length axis ->
  combine (filter (fun v => negb (mem_string v labels)) axis) (drop_where labels axis l)
  = filter (fun p => negb (mem_string (fst p) labels)) (combine axis l).
Proof.
  revert l. induction axis as [|v axis IH]; intros [|x l] H; simpl in *;
    try discriminate; [reflexivity|].
  destruct (mem_string v labels); simpl; [|f_equal]; apply IH; lia.
Qed.

(** X17.  [delete_series] on labels that are all series returns, and every series
    that stays keeps its row of the series table and of the fault table; the
    categories that are left are those of the series that stay. *)
Theorem delete_series_keeps_other_rows indices s :
  aligned s ->
  (forall c, In c indices -> In c (CategoricalIndex.values (df_index s))) ->
  exists s',
    delete_series indices s = (s', None)
    /\ combine (CategoricalIndex.values (df_index s')) (df_rows s')
       = filter (fun p => negb (mem_string (fst p) indices))
                (combine (CategoricalIndex.values (df_index s)) (df_rows s))
    /\ combine (CategoricalIndex.values (faults_index s')) (faults_rows s')
       = filter (fun p => negb (mem_string (fst p) indices))
                (combine (CategoricalIndex.values (faults_index s)) (faults_rows s))
    /\ CategoricalIndex.values (df_index s')
       = filter (fun v => negb (mem_string v indices)) (CategoricalIndex.values (df_index s))
    /\ CategoricalIndex.categories (df_index s')
       = filter (fun c => mem_string c (CategoricalIndex.values (df_index s')))
                (CategoricalIndex.categories (df_index s)).
Proof.
  intros Ha Hin.
  destruct (aligned_inv s Ha) as (idx & rows & frows & rel & -> & H1 & H2 & H3 & H4).
  cbn [df_index faults_index df_rows faults_rows] in *.
  assert (E : forallb (fun c => mem_string c (CategoricalIndex.values idx)) indices = true).
  { apply forallb_forall. intros c Hc. apply mem_string_In. auto. }
  unfold delete_series, andThen, drop_df, drop_faults, drop_rel_rows, drop_rel_columns,
    with_index, drop_labels.
  cbn [df_index faults_index rel_index rel_columns df_rows faults_rows rel_values].
  rewrite E.
  cbn [df_index faults_index rel_index rel_columns df_rows faults_rows rel_values].
  rewrite E.
  cbn [df_index faults_index rel_index rel_columns df_rows faults_rows rel_values].
  rewrite E.
  cbn [df_index faults_index rel_index rel_columns df_rows faults_rows rel_values].
  rewrite E.
  cbn [df_index faults_index rel_index rel_columns df_rows faults_rows rel_values].
  unfold len in *.
  rewrite set_all_uniform.
  - eexists. split; [reflexivity|].
    cbn [df_index faults_index df_rows faults_rows CategoricalIndex.values
         CategoricalIndex.categories CategoricalIndex.remove_unused_categories].
    rewrite !drop_where_combine by assumption. auto.
  - unfold len. simpl. now apply drop_where_length.
  - unfold len. simpl. now apply drop_where_length.
  - unfold len. simpl. rewrite length_map. now apply drop_where_length.
  - reflexivity.
Qed.

Lemma delete_series_keeps_other_rows_witness :
  exists s',
    delete_series ["A"]%string series_A_B = (s', None)
    /\ combine (CategoricalIndex.values (df_index s')) (df_rows s')
       = filter (fun p => negb (mem_string (fst p) ["A"]%string))
                (combine (CategoricalIndex.values (df_index series_A_B)) (df_rows series_A_B))
    /\ combine (CategoricalIndex.values (faults_index s')) (faults_rows s')
       = filter (fun p => negb (mem_string (fst p) ["A"]%string))
                (combine (CategoricalIndex.values (faults_index series_A_B))
                         (faults_rows series_A_B))
    /\ CategoricalIndex.values (df_index s')
       = filter (fun v => negb (mem_string v ["A"]%string))
                (CategoricalIndex.values (df_index series_A_B))
    /\ CategoricalIndex.categories (df_index s')
       = filter (fun c => mem_string c (CategoricalIndex.values (df_index s')))
                (CategoricalIndex.categories (df_index series_A_B)).
Proof.
  apply (delete_series_keeps_other_rows ["A"]%string series_A_B).
  - unfold aligned, len. vm_compute. repeat split; repeat constructor.
  - intros c [<-|[]]. vm_compute. auto.
Defined.

Lemma recode_map g cats v :
  In v cats -> CategoricalIndex.recode cats (map g cats) v = g v.
Proof.
  induction cats as [|o cats IH]; simpl; intros H; [contradiction|].
  destruct (String.eqb_spec v o) as [->|Hne]; [reflexivity|].
  destruct H as [->|H]; [contradiction|auto].
Qed.

(** X18.  [rename_series] with a dict relabels and does not move rows: when it
    returns, a label that is a key of the dict has become its value, the
    other labels are as they were, and the rows of the series table, of the
    fault table and of the relation matrix are untouched. *)
Theorem rename_series_relabels d s s' :
  rename_series (inr d) s = (s', None) ->
  (forall v, In v (CategoricalIndex.values (df_index s)) ->
             In v (CategoricalIndex.categories (df_index s))) ->
  let g := fun c => match CategoricalIndex.assoc c d with
                    | Some c' => c'
                    | None => c
                    end in
  CategoricalIndex.values (df_index s') = map g (CategoricalIndex.values (df_index s))
  /\ CategoricalIndex.categories (df_index s')
     = map g (CategoricalIndex.categories (df_index s))
  /\ df_rows s' = df_rows s /\ faults_rows s' = faults_rows s
  /\ rel_values s' = rel_values s.
Proof.
  unfold rename_series, with_index. intros H Hsub. cbv zeta.
  set (g := fun c => match CategoricalIndex.assoc c d with Some c' => c' | None => c end).
  destruct (CategoricalIndex.rename_categories (inr d) (df_index s)) as [e|idx1] eqn:E;
    [discriminate|].
  pose proof (set_all_rows idx1 s) as (R1 & R2 & R3).
  pose proof (set_all_index _ _ _ H) as (I1 & _).
  rewrite H in R1, R2, R3. cbn [fst] in *.
  unfold CategoricalIndex.rename_categories in E.
  destruct (negb _); [discriminate|]. destruct (negb _); [discriminate|].
  injection E as <-. rewrite I1. cbn [CategoricalIndex.values CategoricalIndex.categories].
  split; [|auto]. apply map_ext_in. intros v Hv. apply (recode_map g). auto.
Qed.

Lemma rename_series_relabels_witness :
  exists s',
    rename_series (inr [("B", "B2")]%string) series_A_B = (s', None)
    /\ (let g := fun c => match CategoricalIndex.assoc c [("B", "B2")]%string with
                          | Some c' => c'
                          | None => c
                          end in
        CategoricalIndex.values (df_index s')
        = map g (CategoricalIndex.values (df_index series_A_B))
        /\ CategoricalIndex.categories (df_index s')
           = map g (CategoricalIndex.categories (df_index series_A_B))
        /\ df_rows s' = df_rows series_A_B /\ faults_rows s' = faults_rows series_A_B
        /\ rel_values s' = rel_values series_A_B).
Proof.
  eexists. split; [vm_compute; reflexivity|].
  apply (rename_series_relabels [("B", "B2")]%string series_A_B).
  - vm_compute. reflexivity.
  - vm_compute. tauto.
Defined.

End SeriesFacts.

(** ** Formations: ids and basement *)

Module FormationsFacts.
Import Formations.
Local Open Scope nat_scope.
Local Open Scope list_scope.

Lemma set_id_ids s :
  ids (fst (set_id s)) = map (fun l => Some (l + 1)%Z) (labels s).
Proof.
  unfold ids, labels, set_id, with_df. simpl. rewrite !map_map. reflexivity.
Qed.

(** After [delete_formation] the ids are the labels of the rows that are
    left, plus one. *)
Lemma delete_formation_ids indices s s' :
  delete_formation indices true s = (s', None) ->
  labels s' = filter (fun l => negb (existsb (Z.eqb l) indices)) (labels s)
  /\ ids s' = map (fun l => Some (l + 1)%Z) (labels s').
Proof.
  unfold delete_formation, andThen.
  destruct (forallb _ indices); [|discriminate].
  unfold with_df, set_id, with_df. simpl. intros [= <-].
  unfold labels, ids. simpl. rewrite !map_map. simpl. split; [|reflexivity].
  induction (df s) as [|[l r] rows IH]; simpl; [reflexivity|].
  destruct (existsb (Z.eqb l) indices); simpl; now rewrite IH.
Qed.

(** C7, on the catalog of the formations [a], [b], [c] (ids 1, 2, 3, as
    [set_formation_names_pro] builds it): [delete_formation] of the row
    labelled 0 drops the row and recomputes the ids from the labels of the
    frame, which it does not renumber; [b] and [c] keep the ids 2 and 3,
    where their positions plus one are 1 and 2. *)
Theorem delete_formation_keeps_label_ids :
  (forall eq_array,
      fst (set_formation_names_pro eq_array ["a"; "b"; "c"]%string true
                                   (init ["Default series"%string])) = three)
  /\ ids three = consecutive_ids 3
  /\ (exists s', delete_formation [0%Z] true three = (s', None)
                 /\ names s' = ["b"; "c"]%string
                 /\ labels s' = [1%Z; 2%Z]
                 /\ ids s' = [Some 2%Z; Some 3%Z]
                 /\ ids s' <> consecutive_ids (List.length (df s'))).
Proof.
  split; [intros eq_array; vm_compute; reflexivity|].
  split; [vm_compute; reflexivity|].
  eexists. split; [vm_compute; reflexivity|].
  repeat split; try (vm_compute; reflexivity).
  vm_compute. discriminate.
Qed.

Lemma fillna_run s : fillna_isBasement s = (filled s, None).
Proof. reflexivity. Qed.

Lemma flagged_filled_length flags s :
  List.length (df (flagged flags s)) = Nat.min (List.length (df s)) (List.length flags).
Proof. unfold flagged. cbn [df]. now rewrite length_map, length_combine. Qed.

Lemma filled_labels s : labels (filled s) = labels s.
Proof. unfold labels, filled. simpl. rewrite map_map. reflexivity. Qed.

Lemma filled_names s : names (filled s) = names s.
Proof. unfold names, filled. simpl. rewrite map_map. reflexivity. Qed.

Lemma filled_ids s : ids (filled s) = ids s.
Proof. unfold ids, filled. simpl. rewrite map_map. reflexivity. Qed.

Lemma filled_length s : List.length (df (filled s)) = List.length (df s).
Proof. unfold filled. simpl. apply length_map. Qed.

Lemma filled_id s :
  (forall l r, In (l, r) (df s) -> isBasement r <> None) -> filled s = s.
Proof.
  destruct s as [rows cats sidx]. unfold filled. simpl. intros H. f_equal.
  induction rows as [|[l r] rows IH]; simpl; [reflexivity|].
  rewrite IH by (intros; eapply H; right; eassumption). f_equal. f_equal.
  destruct r as [f se i b]. unfold fill. simpl.
  destruct b; [reflexivity|]. exfalso. apply (H l _ (or_introl eq_refl)). reflexivity.
Qed.

Lemma count_basement_pos rows l r :
  In (l, r) rows -> flag r = true -> 1 <= count_basement rows.
Proof.
  intros Hin Hf. unfold count_basement.
  assert (H : In (l, r) (filter (fun lr => flag (snd lr)) rows)) by (apply filter_In; auto).
  destruct (filter _ rows); [contradiction | simpl; lia].
Qed.

(** A second basement through [add_basement]. *)
Lemma add_basement_second name s l r :
  In (l, r) (df s) -> isBasement r = Some true ->
  add_basement name s = (filled s, Some (AssertionError only_one_basement)).
Proof.
  intros Hin Hb. unfold add_basement.
  rewrite (andThen_ok _ _ _ _ (fillna_run s)).
  unfold andThen at 1, assert_that.
  assert (H : 1 <= count_basement (df (filled s))).
  { apply (count_basement_pos _ l (fill r)).
    - unfold filled. simpl. apply in_map_iff. exists (l, r). auto.
    - unfold flag, fill. simpl. now rewrite Hb. }
  destruct (Nat.ltb_spec (count_basement (df (filled s))) 1); [lia|].
  reflexivity.
Qed.

Lemma count_basement_flags rows flags :
  List.length flags = List.length rows ->
  count_basement (map (fun lrb : Z * row * bool =>
                         let '((l, r), b) := lrb in
                         (l, mkrow (formation r) (series r) (id r) (Some b)))
                      (combine rows flags))
  = count_true flags.
Proof.
  unfold count_basement, count_true.
  revert flags. induction rows as [|[l r] rows IH]; intros [|b flags] H; simpl in *;
    try discriminate; [reflexivity|].
  unfold flag at 1. simpl. destruct b; simpl; rewrite IH by lia; reflexivity.
Qed.

Section BasementFacts.
Variable eq_array : list string -> list string -> result (list bool).

(** What [set_basement] does once the comparison has given its flags. *)
Lemma set_basement_flags bf s flags :
  basement_flags eq_array bf (filled s) = inr flags ->
  List.length flags = List.length (df s) ->
  set_basement eq_array bf s
  = (flagged flags (filled s),
     if Nat.leb (count_true flags) 1 then None
     else Some (AssertionError only_one_basement)).
Proof.
  intros Hf Hlen. unfold set_basement.
  rewrite (andThen_ok _ _ _ _ (fillna_run s)). rewrite Hf.
  unfold andThen, set_isBasement.
  rewrite filled_length, Hlen, Nat.eqb_refl.
  unfold flagged at 1. cbn [df].
  rewrite count_basement_flags by (now rewrite filled_length).
  unfold assert_that.
  destruct (Nat.leb (count_true flags) 1); reflexivity.
Qed.

Lemma count_true_eqb n l :
  count_true (map (fun x => String.eqb x n) l) = count_occ string_dec l n.
Proof.
  unfold count_true. induction l as [|x l IH]; simpl; [reflexivity|].
  destruct (String.eqb_spec x n); destruct (string_dec x n); try congruence; simpl; now rewrite IH.
Qed.

Lemma basement_flags_name n s :
  basement_flags eq_array (Some n) (filled s)
  = inr (map (fun x => String.eqb x n) (names s)).
Proof. unfold basement_flags. fold (names (filled s)). now rewrite filled_names. Qed.

Lemma set_basement_name n s :
  set_basement eq_array (Some n) s
  = (flagged (map (fun x => String.eqb x n) (names s)) (filled s),
     if Nat.leb (count_occ string_dec (names s) n) 1 then None
     else Some (AssertionError only_one_basement)).
Proof.
  rewrite (set_basement_flags _ _ _ (basement_flags_name n s)).
  - now rewrite count_true_eqb.
  - unfold names. now rewrite !length_map.
Qed.

Lemma flagged_name_rows n s l r :
  In (l, r) (df (flagged (map (fun x => String.eqb x n) (names s)) (filled s))) ->
  isBasement r = Some (String.eqb (formation r) n).
Proof.
  unfold flagged, names, filled. simpl.
  induction (df s) as [|[l0 r0] rows IH]; simpl; [contradiction|].
  intros [[= <- <-]|H]; [reflexivity | auto].
Qed.

Lemma flagged_count flags s :
  List.length flags = List.length (df s) ->
  count_basement (df (flagged flags (filled s))) = count_true flags.
Proof.
  intros H. unfold flagged. cbn [df]. apply count_basement_flags. now rewrite filled_length.
Qed.

End BasementFacts.

Lemma count_basement_none rows :
  (forall l r, In (l, r) rows -> flag r = false) -> count_basement rows = 0.
Proof.
  unfold count_basement. induction rows as [|[l r] rows IH]; intros H; simpl; [reflexivity|].
  rewrite (H l r (or_introl eq_refl)). apply IH. intros; eapply H; right; eassumption.
Qed.

Lemma count_basement_with_id rows :
  count_basement (map with_id rows) = count_basement rows.
Proof.
  unfold count_basement. induction rows as [|[l r] rows IH]; [reflexivity|].
  cbn [map filter]. replace (flag (snd (with_id (l, r)))) with (flag r) by reflexivity.
  cbn [snd]. destruct (flag r); cbn [List.length]; rewrite IH; reflexivity.
Qed.

Lemma count_basement_app rows rows' :
  count_basement (rows ++ rows') = count_basement rows + count_basement rows'.
Proof. unfold count_basement. now rewrite filter_app, length_app. Qed.

Lemma overwrite_absent j n rows :
  ~ In j (map fst rows) -> map (overwrite j n) rows = rows.
Proof.
  induction rows as [|[l r] rows IH]; simpl; intros H; [reflexivity|].
  unfold overwrite at 1. simpl. destruct (Z.eqb_spec l j); [exfalso; auto|].
  rewrite IH; auto.
Qed.

Lemma count_basement_overwrite j n rows :
  NoDup (map fst rows) -> has_label j rows = true ->
  (forall l r, In (l, r) rows -> flag r = false) ->
  count_basement (map (overwrite j n) rows) = 1.
Proof.
  induction rows as [|[l r] rows IH]; simpl; intros Hnd Hl Hf; [discriminate|].
  inversion Hnd as [|? ? Hnin Hnd']; subst.
  unfold overwrite at 1. simpl. destruct (Z.eqb_spec l j) as [->|Hne].
  - rewrite overwrite_absent by assumption.
    change (count_basement ((j, mkrow n (series r) (id r) (Some true)) :: rows))
      with (count_basement ([(j, mkrow n (series r) (id r) (Some true))] ++ rows)).
    rewrite count_basement_app, (count_basement_none rows); [reflexivity|].
    intros; eapply Hf; right; eassumption.
  - change (count_basement ((l, r) :: map (overwrite j n) rows))
      with (count_basement ([(l, r)] ++ map (overwrite j n) rows)).
    rewrite count_basement_app, IH; auto.
    + rewrite (count_basement_none [(l, r)]); [reflexivity|].
      intros l0 r0 [[= <- <-]|[]]. apply (Hf l r). now left.
    + intros; eapply Hf; right; eassumption.
Qed.

Lemma overwrite_In j n rows :
  has_label j rows = true ->
  exists r, In (j, r) (map (overwrite j n) rows) /\ formation r = n /\ isBasement r = Some true.
Proof.
  induction rows as [|[l r] rows IH]; simpl; intros H; [discriminate|].
  unfold overwrite at 1. simpl. destruct (Z.eqb_spec l j) as [->|Hne].
  - eexists. split; [left; reflexivity|]. split; reflexivity.
  - simpl in H. destruct (IH H) as (r' & Hin & Hr). exists r'. split; [now right | exact Hr].
Qed.

Lemma last_valid_index_nonempty rows : rows <> [] -> exists i, last_valid_index rows = Some i.
Proof.
  intros H. unfold last_valid_index.
  destruct (rev rows) as [|lr rest] eqn:E; [|eauto].
  exfalso. apply H. apply (f_equal (@rev _)) in E. now rewrite rev_involutive in E.
Qed.

(** The first basement through [add_basement]. *)
Lemma add_basement_first name s :
  NoDup (labels s) -> df s <> [] ->
  (forall l r, In (l, r) (df s) -> isBasement r <> Some true) ->
  ~ In (default_name name) (categories s) ->
  exists s', add_basement name s = (s', None)
             /\ count_basement (df s') = 1
             /\ (exists l r, In (l, r) (df s') /\ formation r = default_name name
                             /\ isBasement r = Some true)
             /\ categories s' = categories s ++ [default_name name].
Proof.
  intros Hnd Hne Hnb Hcat. unfold add_basement.
  rewrite (andThen_ok _ _ _ _ (fillna_run s)).
  assert (Hflags : forall l r, In (l, r) (df (filled s)) -> flag r = false).
  { unfold filled. simpl. intros l r Hin. apply in_map_iff in Hin.
    destruct Hin as [[l0 r0] [[= <- <-] Hin]]. specialize (Hnb _ _ Hin).
    unfold flag, fill. simpl. destruct (isBasement r0) as [[|]|]; congruence. }
  assert (H0 : count_basement (df (filled s)) = 0) by (apply count_basement_none; exact Hflags).
  unfold andThen at 1, assert_that. rewrite H0. cbn [Nat.ltb Nat.leb skip].
  unfold andThen at 1, add_categories.
  assert (Hm : existsb (fun c => mem_string c (categories (filled s))) [default_name name] = false).
  { simpl. rewrite orb_false_r. apply mem_string_false. exact Hcat. }
  rewrite Hm. cbn [CategoricalIndex.uniqueb mem_string existsb negb andb].
  set (s1 := mk (df (filled s)) (categories (filled s) ++ [default_name name])
                (series_index (filled s))).
  assert (Hne1 : df s1 <> []).
  { simpl. intros E. apply Hne. destruct (df s); [reflexivity | discriminate]. }
  destruct (last_valid_index_nonempty _ Hne1) as [i Hi].
  unfold andThen. rewrite Hi. unfold loc_basement, set_id, with_df.
  cbn [df categories series_index fst snd].
  eexists. split; [reflexivity|]. cbn [df categories].
  assert (Hnd1 : NoDup (map fst (df s1))).
  { simpl. rewrite map_map. simpl. exact Hnd. }
  rewrite count_basement_with_id.
  split; [|split; [|reflexivity]].
  - destruct (has_label (i + 1) (df s1)) eqn:E.
    + apply count_basement_overwrite; auto.
    + rewrite count_basement_app.
      change (count_basement (df s1)) with (count_basement (df (filled s))).
      rewrite H0. reflexivity.
  - destruct (has_label (i + 1) (df s1)) eqn:E.
    + destruct (overwrite_In (i + 1)%Z (default_name name) _ E) as (r & Hin & Hf & Hb).
      exists (i + 1)%Z, (snd (with_id (i + 1, r)%Z)). split; [|split; assumption].
      apply in_map_iff. exists (i + 1, r)%Z. split; [reflexivity | assumption].
    + eexists _, _. split.
      * apply in_map_iff. eexists. split; [reflexivity|]. apply in_or_app. right. left. reflexivity.
      * split; reflexivity.
Qed.

(** The operations of the catalog keep the labels of its rows distinct. *)

Lemma with_df_distinct f :
  (forall rows, NoDup (map fst rows) -> NoDup (map fst (f rows))) ->
  preserves distinct_labels (with_df f).
Proof. intros H s Hs. unfold distinct_labels, labels, with_df in *. simpl. auto. Qed.

Lemma with_df_same_labels f :
  (forall rows, map fst (f rows) = map fst rows) ->
  preserves distinct_labels (with_df f).
Proof. intros H. apply with_df_distinct. intros rows. now rewrite H. Qed.

Lemma set_id_distinct : preserves distinct_labels set_id.
Proof.
  apply with_df_same_labels. intros rows. rewrite map_map. reflexivity.
Qed.

Lemma fillna_distinct : preserves distinct_labels fillna_isBasement.
Proof.
  intros s Hs. unfold distinct_labels, labels, fillna_isBasement, filled in *. simpl.
  now rewrite map_map.
Qed.

Lemma assert_distinct b msg : preserves distinct_labels (assert_that b msg).
Proof. intros s Hs. unfold assert_that. destruct b; exact Hs. Qed.

Lemma combine_labels {B} (rows : list (Z * row)) (l : list B) (f : Z * row * B -> Z * row) :
  (forall lr b, fst (f (lr, b)) = fst lr) ->
  List.length l = List.length rows ->
  map fst (map f (combine rows l)) = map fst rows.
Proof.
  intros Hf. revert l. induction rows as [|lr rows IH]; intros [|b l] H; simpl in *;
    try discriminate; [reflexivity|].
  rewrite Hf, IH by lia. reflexivity.
Qed.

Lemma set_isBasement_distinct flags : preserves distinct_labels (set_isBasement flags).
Proof.
  intros s Hs. unfold set_isBasement.
  destruct (Nat.eqb_spec (List.length flags) (List.length (df s))) as [E|_]; [|exact Hs].
  unfold distinct_labels, labels, flagged in *. simpl.
  rewrite combine_labels; auto. intros [l r] b. reflexivity.
Qed.

Lemma map_series_distinct : preserves distinct_labels map_series.
Proof.
  intros s Hs. unfold map_series.
  destruct (series_index s); [exact Hs|].
  destruct (CategoricalIndex.uniqueb _);
    unfold distinct_labels, labels, with_df in *; simpl; rewrite ?map_map; simpl; exact Hs.
Qed.

Lemma overwrite_labels i n rows : map fst (map (overwrite i n) rows) = map fst rows.
Proof.
  rewrite map_map. apply map_ext. intros [l r]. unfold overwrite. simpl.
  destruct (Z.eqb l i); reflexivity.
Qed.

Lemma has_label_false i (rows : list (Z * row)) :
  has_label i rows = false -> ~ In i (map fst rows).
Proof.
  unfold has_label. intros H Hin. apply in_map_iff in Hin.
  destruct Hin as [lr [<- Hin]].
  assert (existsb (fun lr0 => (fst lr0 =? fst lr)%Z) rows = true).
  { apply existsb_exists. exists lr. split; [assumption | apply Z.eqb_refl]. }
  congruence.
Qed.

Lemma append_distinct i r (rows : list (Z * row)) :
  has_label i rows = false -> NoDup (map fst rows) -> NoDup (map fst (rows ++ [(i, r)])).
Proof.
  intros H Hnd. rewrite map_app. simpl.
  apply NoDup_app; [assumption | repeat constructor; simpl; tauto | ].
  intros x Hx [<-|[]]. now apply (has_label_false _ _ H).
Qed.

Lemma loc_basement_distinct i n : preserves distinct_labels (loc_basement i n).
Proof.
  apply with_df_distinct. intros rows Hnd.
  destruct (has_label i rows) eqn:E.
  - now rewrite overwrite_labels.
  - now apply append_distinct.
Qed.

Lemma loc_formation_distinct i n : preserves distinct_labels (loc_formation i n).
Proof.
  apply with_df_distinct. intros rows Hnd.
  destruct (has_label i rows) eqn:E.
  - rewrite map_map.
    replace (map _ rows) with (map fst rows); [assumption|].
    apply map_ext. intros [l r]. simpl. destruct (Z.eqb l i); reflexivity.
  - now apply append_distinct.
Qed.

Lemma add_categories_distinct new : preserves distinct_labels (add_categories new).
Proof.
  intros s Hs. unfold add_categories.
  destruct (existsb _ new); [exact Hs|]. destruct (negb _); exact Hs.
Qed.

Lemma for_each_distinct l body :
  (forall c, preserves distinct_labels (body c)) ->
  preserves distinct_labels (for_each l body).
Proof.
  intros H. induction l as [|c l IH]; simpl.
  - intros s Hs. exact Hs.
  - apply andThen_preserves; auto.
Qed.

Section CatalogOperations.
Variable eq_array : list string -> list string -> result (list bool).

Lemma set_basement_distinct bf : preserves distinct_labels (set_basement eq_array bf).
Proof.
  unfold set_basement. apply andThen_preserves; [apply fillna_distinct|].
  intros s Hs. destruct (basement_flags eq_array bf s); [exact Hs|].
  apply andThen_preserves; [apply set_isBasement_distinct | | exact Hs].
  intros s' Hs'. apply assert_distinct. exact Hs'.
Qed.

Lemma update_df_distinct : preserves distinct_labels (update_df_steps eq_array).
Proof.
  unfold update_df_steps.
  apply andThen_preserves; [apply map_series_distinct|].
  apply andThen_preserves; [apply set_id_distinct | apply set_basement_distinct].
Qed.

Lemma add_formation_distinct l u : preserves distinct_labels (add_formation eq_array l u).
Proof.
  intros s Hs. unfold add_formation.
  apply andThen_preserves; [apply add_categories_distinct | | exact Hs].
  apply andThen_preserves.
  - apply for_each_distinct. intros c s' Hs'. now apply loc_formation_distinct.
  - destruct u; [apply update_df_distinct | intros s' Hs'; exact Hs'].
Qed.

Lemma delete_formation_distinct i u : preserves distinct_labels (delete_formation i u).
Proof.
  unfold delete_formation. apply andThen_preserves.
  - intros s Hs. destruct (forallb _ i); [|exact Hs].
    revert s Hs. apply with_df_distinct. intros rows Hnd.
    induction rows as [|[l r] rows IH]; simpl; [constructor|].
    inversion Hnd as [|? ? Hnin Hnd']; subst.
    destruct (existsb (Z.eqb l) i); simpl; [auto|].
    constructor; [|auto]. intros Hin. apply Hnin.
    apply in_map_iff in Hin. destruct Hin as [lr [<- Hin]].
    apply filter_In in Hin. apply in_map. tauto.
  - destruct u; [apply set_id_distinct | intros s Hs; exact Hs].
Qed.

Lemma seq_labels_distinct (l : list string) :
  NoDup (map fst (map (fun ic : nat * string => (Z.of_nat (fst ic), mkrow (snd ic) None None None))
                      (combine (seq 0 (List.length l)) l))).
Proof.
  rewrite map_map. simpl.
  replace (map (fun x : nat * string => Z.of_nat (fst x)) (combine (seq 0 (List.length l)) l))
    with (map Z.of_nat (seq 0 (List.length l))).
  - apply Finite.Injective_map_NoDup; [intros a b; apply Nat2Z.inj | apply seq_NoDup].
  - generalize 0. induction l as [|c l IH]; intros n; simpl; [reflexivity|].
    now rewrite IH.
Qed.

Lemma set_formation_names_pro_distinct l u :
  preserves distinct_labels (set_formation_names_pro eq_array l u).
Proof.
  unfold set_formation_names_pro. apply andThen_preserves.
  - intros s Hs. destruct (df s) as [|lr rows] eqn:E.
    + unfold distinct_labels, labels. simpl. apply seq_labels_distinct.
    + destruct (Nat.eqb_spec (List.length l) (List.length (lr :: rows))) as [El|_]; [|exact Hs].
      unfold distinct_labels, labels in *. cbn beta iota delta [fst df]. rewrite E in Hs.
      rewrite (combine_labels (lr :: rows) l); auto. intros [l0 r0] b. reflexivity.
  - destruct u; [apply update_df_distinct | intros s Hs; exact Hs].
Qed.

End CatalogOperations.

Lemma add_basement_distinct name : preserves distinct_labels (add_basement name).
Proof.
  unfold add_basement.
  apply andThen_preserves; [apply fillna_distinct|].
  apply andThen_preserves; [intros s Hs; now apply assert_distinct|].
  apply andThen_preserves; [apply add_categories_distinct|].
  apply andThen_preserves; [|apply set_id_distinct].
  intros s Hs. destruct (last_valid_index (df s)); [|exact Hs].
  now apply loc_basement_distinct.
Qed.

Lemma init_distinct si : distinct_labels (init si).
Proof. constructor. Qed.

(** C8, as amended.  In a catalog whose labels are distinct:
    [add_basement] raises the error "Only one formation can be basement"
    when a row is already flagged, appends no row, and leaves the catalog as
    it was except that missing [isBasement] flags have become [False];
    [set_basement] raises the same error when its comparison flags two rows,
    as it does for a name that two rows bear; [set_basement] with a name that
    one row bears returns and flags that row alone; [add_basement] on a
    catalog that has rows but no basement, with a name that is not yet a
    category, returns and leaves one row flagged, the one of that name. *)
Theorem basement_invariant eq_array s name :
  distinct_labels s ->
  ((exists l r, In (l, r) (df s) /\ isBasement r = Some true) ->
     add_basement name s = (filled s, Some (AssertionError only_one_basement))
     /\ labels (filled s) = labels s
     /\ names (filled s) = names s
     /\ ids (filled s) = ids s
     /\ categories (filled s) = categories s
     /\ ((forall l r, In (l, r) (df s) -> isBasement r <> None) -> filled s = s))
  /\ (forall n, 2 <= count_occ string_dec (names s) n ->
        snd (set_basement eq_array (Some n) s)
        = Some (AssertionError only_one_basement))
  /\ (forall bf flags,
        basement_flags eq_array bf (filled s) = inr flags ->
        List.length flags = List.length (df s) ->
        2 <= count_true flags ->
        snd (set_basement eq_array bf s) = Some (AssertionError only_one_basement))
  /\ (forall n, count_occ string_dec (names s) n = 1 ->
        exists s', set_basement eq_array (Some n) s = (s', None)
                   /\ count_basement (df s') = 1
                   /\ forall l r, In (l, r) (df s') ->
                                  isBasement r = Some (String.eqb (formation r) n))
  /\ (df s <> [] ->
      (forall l r, In (l, r) (df s) -> isBasement r <> Some true) ->
      ~ In (default_name name) (categories s) ->
      exists s', add_basement name s = (s', None)
                 /\ count_basement (df s') = 1
                 /\ (exists l r, In (l, r) (df s') /\ formation r = default_name name
                                 /\ isBasement r = Some true)
                 /\ categories s' = categories s ++ [default_name name]).
Proof.
  intros Hnd. split.
  { intros (l & r & Hin & Hb).
    split; [exact (add_basement_second name s l r Hin Hb)|].
    split; [apply filled_labels|]. split; [apply filled_names|].
    split; [apply filled_ids|]. split; [reflexivity|]. apply filled_id. }
  split.
  { intros n Hn. rewrite set_basement_name. simpl.
    destruct (Nat.leb_spec (count_occ string_dec (names s) n) 1); [lia | reflexivity]. }
  split.
  { intros bf flags Hf Hlen Hc. rewrite (set_basement_flags _ _ _ _ Hf Hlen). simpl.
    destruct (Nat.leb_spec (count_true flags) 1); [lia | reflexivity]. }
  split.
  { intros n Hn. rewrite set_basement_name, Hn.
    eexists. split; [reflexivity|]. split.
    - rewrite flagged_count by (unfold names; rewrite !length_map; reflexivity).
      now rewrite count_true_eqb.
    - apply flagged_name_rows. }
  intros Hne Hnb Hcat. now apply add_basement_first.
Qed.

Lemma basement_invariant_witness :
  ((exists l r, In (l, r) (df three) /\ isBasement r = Some true) ->
     add_basement None three = (filled three, Some (AssertionError only_one_basement))
     /\ labels (filled three) = labels three
     /\ names (filled three) = names three
     /\ ids (filled three) = ids three
     /\ categories (filled three) = categories three
     /\ ((forall l r, In (l, r) (df three) -> isBasement r <> None) ->
         filled three = three))
  /\ (forall n, 2 <= count_occ string_dec (names three) n ->
        snd (set_basement eq_array_sample (Some n) three)
        = Some (AssertionError only_one_basement))
  /\ (forall bf flags,
        basement_flags eq_array_sample bf (filled three) = inr flags ->
        List.length flags = List.length (df three) ->
        2 <= count_true flags ->
        snd (set_basement eq_array_sample bf three)
        = Some (AssertionError only_one_basement))
  /\ (forall n, count_occ string_dec (names three) n = 1 ->
        exists s', set_basement eq_array_sample (Some n) three = (s', None)
                   /\ count_basement (df s') = 1
                   /\ forall l r, In (l, r) (df s') ->
                                  isBasement r = Some (String.eqb (formation r) n))
  /\ (df three <> [] ->
      (forall l r, In (l, r) (df three) -> isBasement r <> Some true) ->
      ~ In (default_name None) (categories three) ->
      exists s', add_basement None three = (s', None)
                 /\ count_basement (df s') = 1
                 /\ (exists l r, In (l, r) (df s') /\ formation r = default_name None
                                 /\ isBasement r = Some true)
                 /\ categories s' = categories three ++ [default_name None]).
Proof.
  apply (basement_invariant eq_array_sample three None).
  unfold distinct_labels, labels, three. simpl.
  repeat (constructor; [simpl; intuition discriminate|]). constructor.
Defined.

(** The cases of C8 on concrete catalogs: a basement added to [three], a
    second one refused, a name that two rows bear refused by
    [set_basement]. *)
Example add_basement_then_second :
  exists s', add_basement None three = (s', None)
             /\ names s' = ["a"; "b"; "c"; "basement"]%string
             /\ map (fun lr => isBasement (snd lr)) (df s')
                = [Some false; Some false; Some false; Some true]
             /\ add_basement (Some "bottom"%string) s'
                = (s', Some (AssertionError only_one_basement)).
Proof.
  eexists. split; [vm_compute; reflexivity|].
  repeat split; vm_compute; reflexivity.
Qed.

(** C8 as stated fails on the catalog [missing_flag], which is what
    [set_formation_names_pro(['a'])], [add_basement()] and
    [add_formation(['x'], update_df=False)] build: a second [add_basement]
    raises the validation error before it appends a row, and the catalog is
    not unchanged, the missing flag of [x] is now [False]. *)
Lemma add_basement_error_fills_flags :
  (forall eq_array,
      fst (add_formation eq_array ["x"%string] false
             (fst (add_basement None
                     (fst (set_formation_names_pro eq_array ["a"%string] true
                                                   (init ["Default series"%string]))))))
      = missing_flag)
  /\ snd (add_basement (Some "b2"%string) missing_flag)
     = Some (AssertionError only_one_basement)
  /\ fst (add_basement (Some "b2"%string) missing_flag) <> missing_flag
  /\ map (fun lr => isBasement (snd lr)) (df missing_flag)
     = [Some false; Some true; None]
  /\ map (fun lr => isBasement (snd lr))
         (df (fst (add_basement (Some "b2"%string) missing_flag)))
     = [Some false; Some true; Some false].
Proof.
  split; [intros eq_array; vm_compute; reflexivity|].
  split; [vm_compute; reflexivity|].
  split; [vm_compute; discriminate|].
  split; vm_compute; reflexivity.
Qed.

Lemma keeps_labels_length a s :
  keeps_labels a -> List.length (df (fst (a s))) = List.length (df s).
Proof.
  intros H. specialize (H s). unfold labels in H.
  apply (f_equal (@List.length _)) in H. now rewrite !length_map in H.
Qed.

Lemma keeps_andThen a b : keeps_labels a -> keeps_labels b -> keeps_labels (a >> b).
Proof.
  intros Ha Hb s. unfold andThen. specialize (Ha s).
  destruct (a s) as [s' [e|]]; simpl in *; [assumption|]. now rewrite Hb.
Qed.

Lemma keeps_set_id : keeps_labels set_id.
Proof. intros s. unfold labels, set_id, with_df. simpl. rewrite map_map. reflexivity. Qed.

Lemma keeps_fillna : keeps_labels fillna_isBasement.
Proof. intros s. apply filled_labels. Qed.

Lemma keeps_assert b msg : keeps_labels (assert_that b msg).
Proof. intros s. unfold assert_that. destruct b; reflexivity. Qed.

Lemma keeps_set_isBasement flags : keeps_labels (set_isBasement flags).
Proof.
  intros s. unfold set_isBasement.
  destruct (Nat.eqb_spec (List.length flags) (List.length (df s))) as [E|_]; [|reflexivity].
  unfold labels, flagged. simpl. rewrite combine_labels; auto. intros [l r] b. reflexivity.
Qed.

Lemma keeps_map_series : keeps_labels map_series.
Proof.
  intros s. unfold map_series. destruct (series_index s) as [|first rest]; [reflexivity|].
  destruct (CategoricalIndex.uniqueb _); unfold labels, with_df; simpl;
    rewrite ?map_map; reflexivity.
Qed.

Lemma keeps_add_categories new : keeps_labels (add_categories new).
Proof.
  intros s. unfold add_categories.
  destruct (existsb _ new); [reflexivity|]. destruct (negb _); reflexivity.
Qed.

Section Keeps.
Variable eq_array : list string -> list string -> result (list bool).

Lemma keeps_set_basement bf : keeps_labels (set_basement eq_array bf).
Proof.
  unfold set_basement. apply keeps_andThen; [apply keeps_fillna|].
  intros s. destruct (basement_flags eq_array bf s) as [e|flags]; [reflexivity|].
  apply (keeps_andThen (set_isBasement flags)
           (fun s => assert_that (Nat.leb (count_basement (df s)) 1) only_one_basement s)).
  - apply keeps_set_isBasement.
  - intros s'. apply keeps_assert.
Qed.

Lemma keeps_update_df : keeps_labels (update_df_steps eq_array).
Proof.
  unfold update_df_steps.
  apply keeps_andThen; [apply keeps_map_series|].
  apply keeps_andThen; [apply keeps_set_id | apply keeps_set_basement].
Qed.
End Keeps.

Lemma keeps_preserves (Q : list Z -> nat -> Prop) a :
  keeps_labels a -> preserves (fun s => Q (labels s) (List.length (df s))) a.
Proof. intros H s Hs. rewrite H, keeps_labels_length; assumption. Qed.

(** *** The invariant on the cells: an id is the label plus one. *)

Lemma follows_with_df f :
  (forall rows l r, In (l, r) (f rows) ->
     (exists r0, In (l, r0) rows /\ id r = id r0) \/ id r = None \/ id r = Some (l + 1)%Z) ->
  preserves follows (with_df f).
Proof.
  intros H s Hs l r Hin. unfold with_df in Hin. simpl in Hin.
  destruct (H _ _ _ Hin) as [(r0 & Hin0 & E)|Hid]; [|assumption].
  rewrite E. apply (Hs _ _ Hin0).
Qed.

Lemma follows_set_id : preserves follows set_id.
Proof.
  apply follows_with_df. intros rows l r Hin. apply in_map_iff in Hin.
  destruct Hin as [[l0 r0] [[= <- <-] _]]. simpl. auto.
Qed.

Lemma follows_fillna : preserves follows fillna_isBasement.
Proof.
  intros s Hs l r Hin. simpl in Hin. apply in_map_iff in Hin.
  destruct Hin as [[l0 r0] [[= <- <-] Hin]]. simpl. apply (Hs _ _ Hin).
Qed.

Lemma follows_assert b msg : preserves follows (assert_that b msg).
Proof. intros s Hs. unfold assert_that. destruct b; exact Hs. Qed.

Lemma In_combine_map {B} (f : Z * row * B -> Z * row) (rows : list (Z * row)) (l : list B) x :
  In x (map f (combine rows l)) -> exists lr b, In lr rows /\ x = f (lr, b).
Proof.
  intros H. apply in_map_iff in H. destruct H as [[lr b] [<- Hin]].
  apply in_combine_l in Hin. eauto.
Qed.

Lemma follows_set_isBasement flags : preserves follows (set_isBasement flags).
Proof.
  intros s Hs. unfold set_isBasement.
  destruct (Nat.eqb (List.length flags) (List.length (df s))); [|exact Hs].
  intros l r Hin. simpl in Hin. apply In_combine_map in Hin.
  destruct Hin as ([l0 r0] & b & Hin & [= -> ->]). simpl. apply (Hs _ _ Hin).
Qed.

Lemma follows_map_series : preserves follows map_series.
Proof.
  intros s Hs. unfold map_series. destruct (series_index s) as [|first rest]; [exact Hs|].
  destruct (CategoricalIndex.uniqueb _); intros l r Hin; simpl in Hin;
    rewrite ?map_map in Hin; apply in_map_iff in Hin;
    destruct Hin as [[l0 r0] [[= <- <-] Hin]]; simpl; apply (Hs _ _ Hin).
Qed.

Lemma follows_add_categories new : preserves follows (add_categories new).
Proof.
  intros s Hs. unfold add_categories.
  destruct (existsb _ new); [exact Hs|]. destruct (negb _); exact Hs.
Qed.

Lemma follows_loc_formation i c : preserves follows (loc_formation i c).
Proof.
  apply follows_with_df. intros rows l r Hin.
  destruct (has_label i rows).
  - apply in_map_iff in Hin. destruct Hin as [[l0 r0] [E Hin]]. simpl in E.
    destruct (Z.eqb l0 i); injection E as <- <-; left; eauto.
  - apply in_app_or in Hin. destruct Hin as [Hin|[[= <- <-]|[]]]; [left; eauto|].
    simpl. auto.
Qed.

Lemma follows_loc_basement i c : preserves follows (loc_basement i c).
Proof.
  apply follows_with_df. intros rows l r Hin.
  destruct (has_label i rows).
  - apply in_map_iff in Hin. destruct Hin as [[l0 r0] [E Hin]]. unfold overwrite in E.
    simpl in E. destruct (Z.eqb l0 i); injection E as <- <-; left; eauto.
  - apply in_app_or in Hin. destruct Hin as [Hin|[[= <- <-]|[]]]; [left; eauto|].
    simpl. auto.
Qed.

Lemma for_each_preserves (P : t -> Prop) l body :
  (forall c, preserves P (body c)) -> preserves P (for_each l body).
Proof.
  intros H. induction l as [|c l IH]; simpl.
  - intros s Hs. exact Hs.
  - apply andThen_preserves; auto.
Qed.

Section Invariants.
Variable eq_array : list string -> list string -> result (list bool).

Lemma follows_set_basement bf : preserves follows (set_basement eq_array bf).
Proof.
  unfold set_basement. apply andThen_preserves; [apply follows_fillna|].
  intros s Hs. destruct (basement_flags eq_array bf s); [exact Hs|].
  apply andThen_preserves; [apply follows_set_isBasement | | exact Hs].
  intros s' Hs'. apply follows_assert. exact Hs'.
Qed.

Lemma follows_update_df : preserves follows (update_df_steps eq_array).
Proof.
  unfold update_df_steps.
  apply andThen_preserves; [apply follows_map_series|].
  apply andThen_preserves; [apply follows_set_id | apply follows_set_basement].
Qed.

Lemma skip_preserves (P : t -> Prop) : preserves P skip.
Proof. intros s Hs. exact Hs. Qed.

Lemma follows_add_formation l u : preserves follows (add_formation eq_array l u).
Proof.
  intros s Hs. unfold add_formation.
  apply andThen_preserves; [apply follows_add_categories | | exact Hs].
  apply andThen_preserves.
  - apply for_each_preserves. intros c s' Hs'. now apply follows_loc_formation.
  - destruct u; [apply follows_update_df | apply skip_preserves].
Qed.

Lemma follows_delete_formation i u : preserves follows (delete_formation i u).
Proof.
  unfold delete_formation. apply andThen_preserves.
  - intros s Hs. destruct (forallb _ i); [|exact Hs].
    revert s Hs. apply follows_with_df. intros rows l r Hin.
    apply filter_In in Hin. left. exists r. tauto.
  - destruct u; [apply follows_set_id | apply skip_preserves].
Qed.

Lemma follows_set_formation_names_pro l u :
  preserves follows (set_formation_names_pro eq_array l u).
Proof.
  unfold set_formation_names_pro. apply andThen_preserves.
  - intros s Hs. destruct (df s) as [|lr rows] eqn:E.
    + intros l0 r Hin. simpl in Hin. apply in_map_iff in Hin.
      destruct Hin as [[i c] [[= <- <-] _]]. simpl. auto.
    + destruct (Nat.eqb _ _); [|exact Hs].
      intros l0 r Hin. cbn [df] in Hin. apply In_combine_map in Hin.
      destruct Hin as ([l1 r1] & c & Hin & [= -> ->]). simpl.
      apply (Hs l1 r1). rewrite E. exact Hin.
  - destruct u; [apply follows_update_df | apply skip_preserves].
Qed.

Lemma follows_add_basement name : preserves follows (add_basement name).
Proof.
  unfold add_basement.
  apply andThen_preserves; [apply follows_fillna|].
  apply andThen_preserves; [intros s Hs; now apply follows_assert|].
  apply andThen_preserves; [apply follows_add_categories|].
  apply andThen_preserves; [|apply follows_set_id].
  intros s Hs. destruct (last_valid_index (df s)); [|exact Hs].
  now apply follows_loc_basement.
Qed.

Lemma follows_run o : preserves follows (run eq_array o).
Proof.
  destruct o; simpl.
  - apply follows_set_formation_names_pro.
  - apply follows_add_formation.
  - apply follows_delete_formation.
  - apply follows_set_basement.
  - apply follows_add_basement.
Qed.

End Invariants.



Lemma last_valid_index_snoc (rows : list (Z * row)) lr :
  last_valid_index (rows ++ [lr]) = Some (fst lr).
Proof. unfold last_valid_index. rewrite rev_app_distr. reflexivity. Qed.

Lemma snoc_cases {A} (l : list A) : l = [] \/ exists l' x, l = l' ++ [x].
Proof.
  destruct l as [|a l]; [now left|]. right.
  destruct (exists_last (l := a :: l)) as (l' & x & E); [discriminate|]. eauto.
Qed.

Lemma sorted_snoc l y :
  StronglySorted Z.lt l -> Forall (fun x => (x < y)%Z) l -> StronglySorted Z.lt (l ++ [y]).
Proof.
  induction 1 as [|x l Hs IH Hall]; intros Hy; simpl.
  - repeat constructor.
  - inversion Hy; subst. constructor; [auto|].
    apply Forall_app. split; [assumption | repeat constructor; assumption].
Qed.

Lemma sorted_last l i :
  StronglySorted Z.lt (l ++ [i]) -> Forall (fun x => (x < i + 1)%Z) (l ++ [i]).
Proof.
  induction l as [|x l IH]; simpl; intros H.
  - repeat constructor. lia.
  - inversion H as [|? ? Hs Hall]; subst. constructor; [|auto].
    rewrite Forall_forall in Hall.
    assert (Hi : In i (l ++ [i])) by (apply in_or_app; right; now left).
    specialize (Hall i Hi). lia.
Qed.

Lemma grows_ascending a : grows a -> preserves ascending a.
Proof.
  intros H s Hs. unfold ascending in *. destruct (H s) as [E|[r E]]; [now rewrite E|].
  unfold labels in *. rewrite E, map_app. cbn [map fst].
  unfold next. destruct (snoc_cases (df s)) as [E0|(rows & lr & E0)]; rewrite E0 in *.
  - repeat constructor.
  - rewrite last_valid_index_snoc. rewrite map_app in *. cbn [map] in *.
    apply sorted_snoc; [assumption | now apply sorted_last].
Qed.

Lemma grows_dense a : grows a -> preserves dense a.
Proof.
  intros H s Hs. unfold dense in *. destruct (H s) as [E|[r E]].
  - rewrite E, Hs. f_equal. f_equal. unfold labels in E.
    apply (f_equal (@List.length _)) in E. rewrite !length_map in E. now rewrite E.
  - unfold labels in *. rewrite E, map_app, length_app. cbn [map fst List.length].
    rewrite Nat.add_1_r, seq_S, map_app, <- Hs. cbn [map Nat.add]. f_equal. f_equal.
    unfold next. destruct (snoc_cases (df s)) as [E0|(rows & lr & E0)]; rewrite E0 in *.
    + reflexivity.
    + rewrite last_valid_index_snoc. rewrite map_app, length_app in Hs.
      cbn [map List.length] in Hs. rewrite Nat.add_1_r, seq_S, map_app in Hs.
      apply app_inj_tail in Hs. destruct Hs as [_ ->]. rewrite length_app. simpl. lia.
Qed.

Lemma keeps_grows a : keeps_labels a -> grows a.
Proof. intros H s. left. apply H. Qed.

Lemma map_keeps_labels (f : Z * row -> Z * row) rows :
  (forall lr, fst (f lr) = fst lr) -> map fst (map f rows) = map fst rows.
Proof. intros H. rewrite map_map. apply map_ext. exact H. Qed.

(** The write of [add_formation]: at the label after the last one, or at 0
    in an empty frame. *)
Lemma grows_add_row c :
  grows (fun s => let idx := match last_valid_index (df s) with
                             | Some i => i
                             | None => (-1)%Z
                             end in
                  loc_formation (idx + 1) c s).
Proof.
  intros s. cbn zeta. unfold loc_formation, with_df. cbn [fst df labels].
  set (j := (_ + 1)%Z).
  assert (Hj : j = next (df s)).
  { unfold j, next. destruct (last_valid_index (df s)); reflexivity. }
  destruct (has_label j (df s)).
  - left. unfold labels. cbn [df]. apply map_keeps_labels. intros [l r]. simpl.
    destruct (Z.eqb l j); reflexivity.
  - right. rewrite Hj. eauto.
Qed.

Lemma grows_loc_basement name :
  grows (fun s => match last_valid_index (df s) with
                  | Some i => loc_basement (i + 1) name s
                  | None => (s, Some TypeError)
                  end).
Proof.
  intros s. destruct (last_valid_index (df s)) as [i|] eqn:E; [|now left].
  unfold loc_basement, with_df. cbn [fst df].
  destruct (has_label (i + 1) (df s)).
  - left. unfold labels. cbn [df]. apply overwrite_labels.
  - right. unfold next. rewrite E. eauto.
Qed.

Lemma sorted_of_nat n start : StronglySorted Z.lt (map Z.of_nat (seq start n)).
Proof.
  revert start. induction n as [|n IH]; intros start; simpl; constructor; [apply IH|].
  rewrite Forall_map, Forall_forall. intros x Hx. apply in_seq in Hx. lia.
Qed.

Lemma labels_of_names (l : list string) :
  map fst (map (fun ic : nat * string => (Z.of_nat (fst ic), mkrow (snd ic) None None None))
               (combine (seq 0 (List.length l)) l))
  = map Z.of_nat (seq 0 (List.length l)).
Proof.
  rewrite map_map. cbn [fst]. generalize 0%nat.
  induction l as [|c l IH]; intros start; simpl; [reflexivity|]. now rewrite IH.
Qed.

Lemma sorted_filter (p : Z * row -> bool) rows :
  StronglySorted Z.lt (map fst rows) -> StronglySorted Z.lt (map fst (filter p rows)).
Proof.
  induction rows as [|lr rows IH]; simpl; intros H; [constructor|].
  inversion H as [|? ? Hs Hall]; subst.
  destruct (p lr); simpl; [|auto]. constructor; [auto|].
  rewrite Forall_forall in *. intros x Hx. apply Hall.
  apply in_map_iff in Hx. destruct Hx as [y [<- Hy]]. apply filter_In in Hy.
  apply in_map. tauto.
Qed.

Section LabelInvariants.
Variable eq_array : list string -> list string -> result (list bool).

Lemma ascending_update_df (u : bool) :
  preserves ascending (if u then update_df_steps eq_array else skip).
Proof.
  destruct u; [|apply skip_preserves].
  apply grows_ascending, keeps_grows, keeps_update_df.
Qed.

Lemma dense_update_df (u : bool) :
  preserves dense (if u then update_df_steps eq_array else skip).
Proof.
  destruct u; [|apply skip_preserves].
  apply grows_dense, keeps_grows, keeps_update_df.
Qed.

Lemma set_names_labels l s :
  let s' := fst (match df s with
                 | [] =>
                     (mk (map (fun ic : nat * string =>
                                 (Z.of_nat (fst ic), mkrow (snd ic) None None None))
                              (combine (seq 0 (List.length l)) l))
                         (infer_categories l) (series_index s), None)
                 | rows =>
                     if Nat.eqb (List.length l) (List.length rows)
                     then (mk (map (fun lrc : Z * row * string =>
                                      let '((l0, r), c) := lrc in
                                      (l0, mkrow c (series r) (id r) (isBasement r)))
                                   (combine rows l))
                              (infer_categories l) (series_index s), None)
                     else (s, Some ValueError)
                 end) in
  (df s = [] /\ labels s' = map Z.of_nat (seq 0 (List.length l))
   /\ List.length (df s') = List.length l)
  \/ (labels s' = labels s /\ List.length (df s') = List.length (df s)).
Proof.
  cbv zeta. destruct (df s) as [|lr rows] eqn:E.
  - left. split; [reflexivity|]. unfold labels. cbn [fst df].
    rewrite labels_of_names, length_map, length_combine, length_seq, Nat.min_id. auto.
  - right. destruct (Nat.eqb_spec (List.length l) (List.length (lr :: rows))) as [El|_].
    + unfold labels. cbn [fst df]. rewrite E. split.
      * apply (combine_labels (lr :: rows) l); [|assumption]. intros [l0 r0] b. reflexivity.
      * rewrite length_map, length_combine, El. apply Nat.min_id.
    + cbn [fst]. rewrite E. auto.
Qed.

Lemma ascending_run o : preserves ascending (run eq_array o).
Proof.
  destruct o as [l u|l u|i u|bf|name]; cbn [run].
  - unfold set_formation_names_pro. apply andThen_preserves; [|apply ascending_update_df].
    intros s Hs. unfold ascending in *. cbv beta.
    destruct (set_names_labels l s) as [(_ & E & _)|(E & _)]; cbv zeta in E; rewrite E;
      [apply sorted_of_nat | assumption].
  - intros s Hs. unfold add_formation.
    apply andThen_preserves; [apply grows_ascending, keeps_grows, keeps_add_categories | | exact Hs].
    apply andThen_preserves; [|apply ascending_update_df].
    apply for_each_preserves. intros c. apply grows_ascending, grows_add_row.
  - unfold delete_formation. apply andThen_preserves.
    + intros s Hs. destruct (forallb _ i); [|exact Hs].
      unfold ascending, labels, with_df in *. cbn [fst df]. now apply sorted_filter.
    + destruct u; [apply grows_ascending, keeps_grows, keeps_set_id | apply skip_preserves].
  - apply grows_ascending, keeps_grows, keeps_set_basement.
  - unfold add_basement.
    apply andThen_preserves; [apply grows_ascending, keeps_grows, keeps_fillna|].
    apply andThen_preserves;
      [intros s Hs; now apply (grows_ascending _ (keeps_grows _ (keeps_assert _ _)))|].
    apply andThen_preserves; [apply grows_ascending, keeps_grows, keeps_add_categories|].
    apply andThen_preserves; [|apply grows_ascending, keeps_grows, keeps_set_id].
    apply grows_ascending, grows_loc_basement.
Qed.

Lemma dense_run o : no_delete o = true -> preserves dense (run eq_array o).
Proof.
  destruct o as [l u|l u|i u|bf|name]; cbn [run no_delete]; intros Hd; try discriminate.
  - unfold set_formation_names_pro. apply andThen_preserves; [|apply dense_update_df].
    intros s Hs. unfold dense in *. cbv beta.
    destruct (set_names_labels l s) as [(_ & E & L)|(E & L)]; cbv zeta in E, L; rewrite E, L;
      [reflexivity | assumption].
  - intros s Hs. unfold add_formation.
    apply andThen_preserves; [apply grows_dense, keeps_grows, keeps_add_categories | | exact Hs].
    apply andThen_preserves; [|apply dense_update_df].
    apply for_each_preserves. intros c. apply grows_dense, grows_add_row.
  - apply grows_dense, keeps_grows, keeps_set_basement.
  - unfold add_basement.
    apply andThen_preserves; [apply grows_dense, keeps_grows, keeps_fillna|].
    apply andThen_preserves;
      [intros s Hs; now apply (grows_dense _ (keeps_grows _ (keeps_assert _ _)))|].
    apply andThen_preserves; [apply grows_dense, keeps_grows, keeps_add_categories|].
    apply andThen_preserves; [|apply grows_dense, keeps_grows, keeps_set_id].
    apply grows_dense, grows_loc_basement.
Qed.

Lemma reachable_invariants series_index ops :
  ascending (run_all eq_array ops (init series_index))
  /\ follows (run_all eq_array ops (init series_index)).
Proof.
  assert (H : forall s, ascending s /\ follows s ->
                        ascending (run_all eq_array ops s) /\ follows (run_all eq_array ops s)).
  { unfold run_all. induction ops as [|o ops IH]; intros s [Ha Hf]; simpl; [auto|].
    apply IH. split; [now apply ascending_run | now apply follows_run]. }
  apply H. split; [constructor | intros l r []].
Qed.

(** X19.  In every state the catalog reaches from the empty one, the labels of the
    rows are strictly increasing down the frame, an id that is set is the
    label of its row plus one, and so no two rows share an id. *)
Theorem formation_ids_unique series_index ops :
  let s := run_all eq_array ops (init series_index) in
  ascending s
  /\ follows s
  /\ (forall l1 r1 l2 r2 i,
        In (l1, r1) (df s) -> In (l2, r2) (df s) ->
        id r1 = Some i -> id r2 = Some i -> (l1, r1) = (l2, r2)).
Proof.
  cbn zeta. destruct (reachable_invariants series_index ops) as [Ha Hf].
  split; [assumption|]. split; [assumption|].
  intros l1 r1 l2 r2 i H1 H2 E1 E2.
  destruct (Hf _ _ H1) as [C|C1]; [congruence|].
  destruct (Hf _ _ H2) as [C|C2]; [congruence|].
  assert (l1 = l2) by (rewrite E1 in C1; rewrite E2 in C2; injection C1; injection C2; lia).
  subst l2. f_equal.
  unfold ascending, labels in Ha. clear - Ha H1 H2.
  induction (df (run_all eq_array ops (init series_index))) as [|[l r] rows IH];
    simpl in *; [contradiction|].
  inversion Ha as [|? ? Hs Hall]; subst. rewrite Forall_forall in Hall.
  destruct H1 as [[= -> ->]|H1]; destruct H2 as [[= <-]|H2]; auto.
  - specialize (Hall l1 (in_map fst _ _ H2)). simpl in Hall. lia.
  - specialize (Hall l (in_map fst _ _ H1)). simpl in Hall. lia.
Qed.

(** X20.  As long as no formation is deleted the labels are 0, 1, 2, ... down the
    frame, so an id that is set is the position of its row plus one. *)
Theorem ids_consecutive_without_delete series_index ops :
  forallb no_delete ops = true ->
  let s := run_all eq_array ops (init series_index) in
  dense s
  /\ forall n l r, nth_error (df s) n = Some (l, r) ->
       l = Z.of_nat n /\ (id r = None \/ id r = Some (Z.of_nat (S n))).
Proof.
  intros Hops. cbn zeta.
  assert (H : forall s, dense s -> dense (run_all eq_array ops s)).
  { unfold run_all. induction ops as [|o ops IH]; intros s Hs; simpl; [auto|].
    simpl in Hops. apply andb_true_iff in Hops. destruct Hops as [Ho Hops].
    apply IH; [assumption|]. now apply dense_run. }
  pose proof (H (init series_index) eq_refl) as Hd.
  destruct (reachable_invariants series_index ops) as (_ & Hf).
  split; [assumption|]. intros n l r Hn.
  assert (Hl : l = Z.of_nat n).
  { unfold dense, labels in Hd.
    assert (E : nth_error (map fst (df (run_all eq_array ops (init series_index)))) n = Some l)
      by (rewrite nth_error_map, Hn; reflexivity).
    rewrite Hd, nth_error_map in E.
    assert (Hlt : (n < List.length (df (run_all eq_array ops (init series_index))))%nat)
      by (apply nth_error_Some; congruence).
    rewrite (nth_error_nth' _ 0%nat) in E by (now rewrite length_seq).
    rewrite seq_nth in E by assumption. simpl in E. congruence. }
  split; [assumption|].
  destruct (Hf l r (nth_error_In _ _ Hn)) as [C|C]; [now left|right].
  rewrite C, Hl. f_equal. lia.
Qed.

End LabelInvariants.

(** X21.  A basement cannot be added to an empty catalog: [add_basement] raises
    [TypeError] at the label it computes from the last row, after it has
    added the category; a name that is a category already is refused before
    that. *)
Theorem add_basement_empty_catalog name s :
  df s = [] ->
  add_basement name s
  = if mem_string (default_name name) (categories s)
    then (s, Some ValueError)
    else (mk [] (categories s ++ [default_name name]) (series_index s), Some TypeError).
Proof.
  intros E. destruct s as [rows cats si]. cbn [df categories series_index] in *. subst rows.
  unfold add_basement, andThen, fillna_isBasement, filled, assert_that, add_categories.
  cbn [df categories series_index map count_basement filter List.length Nat.ltb Nat.leb skip
       existsb orb].
  destruct (mem_string (default_name name) cats); cbn; reflexivity.
Qed.

Lemma add_basement_empty_catalog_witness :
  add_basement None (init ["Default series"%string])
  = if mem_string (default_name None) (categories (init ["Default series"%string]))
    then (init ["Default series"%string], Some ValueError)
    else (mk [] (categories (init ["Default series"%string]) ++ [default_name None])
             (series_index (init ["Default series"%string])), Some TypeError).
Proof. apply (add_basement_empty_catalog None (init ["Default series"%string])). reflexivity. Defined.

Lemma ids_consecutive_without_delete_witness :
  let s := run_all eq_array_sample
             [SetNames ["a"; "b"]%string true; AddFormation ["c"]%string true;
              AddBasement None] (init ["Default series"%string]) in
  dense s
  /\ forall n l r, nth_error (df s) n = Some (l, r) ->
       l = Z.of_nat n /\ (id r = None \/ id r = Some (Z.of_nat (S n))).
Proof.
  apply (ids_consecutive_without_delete eq_array_sample ["Default series"%string]
           [SetNames ["a"; "b"]%string true; AddFormation ["c"]%string true;
            AddBasement None]).
  reflexivity.
Defined.

Lemma uniqueb_true_NoDup l : CategoricalIndex.uniqueb l = true -> NoDup l.
Proof.
  induction l as [|x l IH]; simpl; intros H; [constructor|].
  apply andb_true_iff in H. destruct H as [Hx Hl].
  constructor; [|auto]. apply mem_string_false. now destruct (mem_string x l).
Qed.

Section Repeated.
Variable eq_array : list string -> list string -> result (list bool).

(** X22.  [add_formation] on a list in which a name that is not yet in the catalog
    comes twice raises [ValueError] and leaves the catalog as it was: no
    formation of the list is added. *)
Theorem add_formation_repeated_name l u s :
  ~ NoDup (filter (fun c => negb (mem_string c (categories s))) l) ->
  add_formation eq_array l u s = (s, Some ValueError).
Proof.
  intros H. unfold add_formation, andThen, add_categories.
  rewrite SeriesFacts.existsb_filter_fresh.
  destruct (CategoricalIndex.uniqueb _) eqn:E; [|reflexivity].
  exfalso. apply H. now apply uniqueb_true_NoDup.
Qed.

End Repeated.

Lemma add_formation_repeated_name_witness :
  add_formation eq_array_sample ["x"; "b"; "x"]%string true three = (three, Some ValueError).
Proof.
  apply (add_formation_repeated_name eq_array_sample ["x"; "b"; "x"]%string true three).
  vm_compute. intros H. inversion H as [|? ? Hx _]; subst. apply Hx. now left.
Defined.

End FormationsFacts.

(** ** Surface extraction *)

Module SolutionFacts.
Import Solution.
Local Open Scope Q_scope.

Lemma min_le_max field M m :
  array_max field = inr M -> array_min field = inr m -> m <= M.
Proof.
  destruct field as [|x r]; simpl; [discriminate|].
  intros [= <-] [= <-].
  destruct (RescaleFacts.fold_max_spec r x) as (_ & H1 & _).
  destruct (RescaleFacts.fold_min_spec r x) as (_ & H2 & _).
  eapply Qle_trans; eassumption.
Qed.

Lemma clamp_spec id M m p :
  m <= M ->
  let level := fst (clamp id M m p) in
  let out := snd (clamp id M m p) in
  (m <= level /\ level <= M)
  /\ (M <= p -> level == M /\ In (OutsideGridBoundaries id) out)
  /\ (p <= m -> level = m /\ In (OutsideGridBoundaries id) out)
  /\ (m < p -> p < M -> level = p /\ out = []).
Proof.
  intros HmM. unfold clamp.
  destruct (Qlt_le_dec p M) as [HpM|HMp]; destruct (Qlt_le_dec m _) as [Hm|Hm]; simpl;
    repeat split; intros; try Lqa.lra; try (exfalso; Lqa.lra); auto.
Qed.

Lemma array_max_spec field M : array_max field = inr M -> RescaledData.is_max field M.
Proof.
  destruct field as [|x r]; simpl; [discriminate|].
  intros [= <-]. destruct (RescaleFacts.fold_max_spec r x) as (Hin & Hle & Hall).
  split; [destruct Hin as [->|Hin]; simpl; auto | constructor; assumption].
Qed.

Lemma array_min_spec field m : array_min field = inr m -> RescaledData.is_min field m.
Proof.
  destruct field as [|x r]; simpl; [discriminate|].
  intros [= <-]. destruct (RescaleFacts.fold_min_spec r x) as (Hin & Hle & Hall).
  split; [destruct Hin as [->|Hin]; simpl; auto | constructor; assumption].
Qed.

Section Extraction.

Variable Mesh : Type.
Variable marching_cubes_lewiner :
  nat * nat * nat -> list Q -> Q -> Q * Q * Q -> result Mesh.

(** C9, as amended.  For a surface id that indexes the isovalues and a field
    of nx * ny * nz samples that is not empty, the method raises nothing of
    its own.  The field has a greatest sample M and a least sample m; the
    level is M when the isovalue is not below M and m when the isovalue is
    not above m, and in both cases a message is printed; an isovalue
    strictly inside the range is used as it is and nothing is printed.  The
    extraction routine is then called with the field reshaped to the
    resolution, this level, which lies between m and M, and the cell widths,
    and what the method answers is what the routine answers, its exception
    included: nothing is assumed of the routine. *)
Theorem compute_surface_regular_grid_clamps self surface_id field
    nx ny nz e0 e1 e2 e3 e4 e5 p :
  (0 <= surface_id)%Z ->
  resolution self = [nx; ny; nz] ->
  extent self = [e0; e1; e2; e3; e4; e5] ->
  List.length field = (nx * ny * nz)%nat ->
  field <> [] ->
  nth_error (sum_axis0 (scalar_field_at_interfaces self)) (Z.to_nat surface_id)
  = Some p ->
  exists M m level out,
    RescaledData.is_max field M
    /\ RescaledData.is_min field m
    /\ compute_surface_regular_grid Mesh marching_cubes_lewiner surface_id field self
       = (out,
          marching_cubes_lewiner (nx, ny, nz) field level
            ((e1 - e0) / inject_Z (Z.of_nat nx),
             (e3 - e2) / inject_Z (Z.of_nat ny),
             (e5 - e4) / inject_Z (Z.of_nat nz)))
    /\ (m <= level /\ level <= M)
    /\ (M <= p -> level == M /\ In (OutsideGridBoundaries surface_id) out)
    /\ (p <= m -> level = m /\ In (OutsideGridBoundaries surface_id) out)
    /\ (m < p -> p < M -> level = p /\ out = []).
Proof.
  intros Hid Hres Hext Hlen Hne Hp.
  destruct (array_max field) as [e|M] eqn:HM; [destruct field; [congruence|discriminate]|].
  destruct (array_min field) as [e|m] eqn:Hm; [destruct field; [congruence|discriminate]|].
  pose proof (clamp_spec surface_id M m p (min_le_max _ _ _ HM Hm)) as Hc.
  unfold compute_surface_regular_grid.
  destruct (Z.ltb_spec surface_id 0) as [C|_]; [lia|].
  unfold getitem at 1. rewrite HM, Hp, Hm.
  destruct (clamp surface_id M m p) as [level out]. simpl in Hc.
  rewrite Hres, Hext. unfold getitem, reshape. simpl nth_error. cbn [bind].
  rewrite Hlen, Nat.eqb_refl. cbn [bind fst snd].
  destruct Hc as ((Hlo & Hhi) & Hrest).
  exists M, m, level, out.
  split; [now apply array_max_spec|]. split; [now apply array_min_spec|].
  split; [reflexivity|]. split; [split; assumption|].
  exact Hrest.
Qed.

End Extraction.

Lemma compute_surface_regular_grid_clamps_witness :
  exists M m level out,
    RescaledData.is_max sample_field M
    /\ RescaledData.is_min sample_field m
    /\ compute_surface_regular_grid Q extract_level 0 sample_field sample
       = (out,
          extract_level (2, 2, 2)%nat sample_field level
            ((1 - 0) / inject_Z (Z.of_nat 2),
             (1 - 0) / inject_Z (Z.of_nat 2),
             (1 - 0) / inject_Z (Z.of_nat 2)))
    /\ (m <= level /\ level <= M)
    /\ (M <= 9 -> level == M /\ In (OutsideGridBoundaries 0) out)
    /\ (9 <= m -> level = m /\ In (OutsideGridBoundaries 0) out)
    /\ (m < 9 -> 9 < M -> level = 9 /\ out = []).
Proof.
  apply (compute_surface_regular_grid_clamps Q extract_level sample 0%Z sample_field
           2%nat 2%nat 2%nat 0 1 0 1 0 1 9);
    first [reflexivity | lia | discriminate].
Defined.

(** C9 as stated fails with an extraction routine that finds no surface at
    the greatest sample of the field: on the sample the isovalue 9 lies
    above the field, whose maximum is 8; the level is clamped to 8 and the
    message is printed, and the method raises the [RuntimeError] of the
    routine instead of returning buffers. *)
Lemma clamped_level_can_still_fail :
  compute_surface_regular_grid Q no_surface_at_maximum 0 sample_field sample
  = ([OutsideGridBoundaries 0], inl RuntimeError)
  /\ no_surface_at_maximum (2, 2, 2)%nat sample_field 8
       (1 # 2, 1 # 2, 1 # 2) = inl RuntimeError
  /\ no_surface_at_maximum (2, 2, 2)%nat sample_field 5
       (1 # 2, 1 # 2, 1 # 2) = inr 5.
Proof. repeat split; vm_compute; reflexivity. Qed.

(** On the sample the isovalue 9 lies above the field, whose maximum is 8:
    the level is 8 and one message is printed; the isovalue 0 of the second
    surface lies below the minimum 1: the level is 1. *)
Example compute_surface_regular_grid_sample :
  compute_surface_regular_grid Q extract_level 0 sample_field sample
  = ([OutsideGridBoundaries 0], inr 8)
  /\ compute_surface_regular_grid Q extract_level 1 sample_field sample
     = ([OutsideGridBoundaries 1], inr 1).
Proof. split; vm_compute; reflexivity. Qed.

Section Refusals.
Variable Mesh : Type.
Variable marching_cubes_lewiner :
  nat * nat * nat -> list Q -> Q -> Q * Q * Q -> result Mesh.

(** X23.  A surface id that is negative, or that is not below the number of
    isovalues, is refused before anything is printed and before the
    extraction routine is reached: with the assertion error for a negative
    id, and otherwise with the error of the maximum of an empty field or
    with [IndexError]. *)
Theorem compute_surface_regular_grid_bad_id surface_id field self :
  (surface_id < 0)%Z
  \/ (List.length (sum_axis0 (scalar_field_at_interfaces self)) <= Z.to_nat surface_id)%nat ->
  compute_surface_regular_grid Mesh marching_cubes_lewiner surface_id field self
  = ([], inl (if Z.ltb surface_id 0 then AssertionError positive_id
              else match field with
                   | [] => ValueError
                   | _ :: _ => IndexError
                   end)).
Proof.
  intros H. unfold compute_surface_regular_grid.
  destruct (Z.ltb_spec surface_id 0) as [Hneg|Hpos]; [reflexivity|].
  destruct H as [H|H]; [lia|].
  destruct field as [|x field]; [reflexivity|].
  cbn [array_max]. unfold getitem at 1.
  apply nth_error_None in H. rewrite H. reflexivity.
Qed.

End Refusals.

Lemma compute_surface_regular_grid_bad_id_witness :
  compute_surface_regular_grid Q extract_level 2 sample_field sample
  = ([], inl (if Z.ltb 2 0 then AssertionError positive_id
              else match sample_field with
                   | [] => ValueError
                   | _ :: _ => IndexError
                   end)).
Proof.
  apply (compute_surface_regular_grid_bad_id Q extract_level 2%Z sample_field sample).
  right. vm_compute. lia.
Defined.

End SolutionFacts.
